(** * libear (Bear's exec interception shim): a shallow embedding of
      [libear/ear.c] and the properties of its report writer, JSON string
      encoder, environment-vector transformer and load/unload state.

    Conventions of the embedding.

    - A C string is a Rocq [string] holding the bytes before its terminating
      zero.  A wide character ([wchar_t]) is a [Z].
    - The destination buffer of [encode_json_string] is a finite map from
      byte offsets (relative to [dst]) to the bytes stored there.  Every store
      is recorded, also one that lands at or beyond [dst_size], so that
      staying inside the buffer is a property one can state and test.
    - [mbstowcs] belongs to the C library and depends on the locale in use;
      the encoder takes it as a parameter.  [mbstowcs_utf8] is the decoder of
      a UTF-8 locale and instantiates the parameter in concrete runs.
    - [dprintf] appends to the text of the report file and is taken to
      succeed, as is the [snprintf] of the file name; [malloc], [realloc]
      and [strdup] are taken to succeed except in [capture_env_t], whose
      result depends on it.
    - The calls of the C library whose failure [report_call] and
      [write_report] test ([mkstemp], [uselocale], [getcwd], [close]) succeed
      or fail as the state of the process tells; [getcwd] allocates the
      string it returns, [mkstemp] replaces the six last characters of its
      template.
    - Dynamic memory is a finite map from locations to blocks, a block
      being the bytes of a string or an array of pointers.  The functions
      on string arrays run in a state monad over it; a load or store outside
      a live block and a [free] of something not live are faults.
    - The state of the process (the statics of the unit, [environ], the
      locale of the thread, the files made) is a record; the entry points
      run in a monad over it whose outcomes are a return, an exit of the
      process or a fault.  Calls are sequential: the mutex of [on_load] and
      [on_unload] is not modelled, nor is the [HAVE_NSGETENVIRON] branch of
      [mt_safe_on_load].
    - The unit is modelled for both settings of [APPLE]: the functions that
      depend on [ENV_SIZE] and [env_names] take a boolean. *)

From Stdlib Require Import ZArith Lia String Ascii List.
From stdpp Require Import base tactics option list gmap strings pretty.

Local Open Scope string_scope.
Local Open Scope list_scope.
Local Open Scope nat_scope.

(* ===================================================================== *)
(** * Part I: the program                                                 *)
(* ===================================================================== *)

(** ** Characters and [printf] conversions *)

Definition wchar_t : Type := Z.

Definition NUL : ascii := "000"%char.
Definition backslash : ascii := "\"%char.
Definition dquote : ascii := Ascii false true false false false true false false.

(** The string made of one double quote, for writing format strings. *)
Definition q : string := String dquote "".

Definition char_of_wchar (c : wchar_t) : ascii := ascii_of_N (Z.to_N c).
Definition wchar_of_char (a : ascii) : wchar_t := Z.of_N (N_of_ascii a).

(** [(unsigned int)c] for a 32-bit [wchar_t]. *)
Definition to_unsigned_int (c : wchar_t) : Z := c mod 2 ^ 32.

Definition hex_digit (d : Z) : ascii :=
  match String.get (Z.to_nat d) "0123456789abcdef" with
  | Some a => a
  | None => "0"%char
  end.

(** The digits of [u] in base 16, most significant first, none for 0. *)
Fixpoint hex_digits (fuel : nat) (u : Z) (acc : list ascii) : list ascii :=
  match fuel with
  | O => acc
  | S fuel' =>
      if (u =? 0)%Z then acc
      else hex_digits fuel' (u / 16) (hex_digit (u mod 16) :: acc)
  end.

(** The conversion [%04x] of an [unsigned int]: lower-case hexadecimal,
    padded with zeros to four digits, longer when the value needs it. *)
Definition fmt_04x (u : Z) : list ascii :=
  let ds := hex_digits 8 u [] in
  replicate (4 - length ds) "0"%char ++ ds.

(** The conversion [%d] of an [int]. *)
Definition fmt_d (n : Z) : string := pretty n.

(** ** The destination buffer *)

Fixpoint store_chars (dst : gmap nat ascii) (at_ : nat) (s : list ascii)
  : gmap nat ascii :=
  match s with
  | [] => dst
  | c :: s' => store_chars (<[at_ := c]> dst) (S at_) s'
  end.

(** [snprintf(dst + at_, size, "...")] where the formatted text is [s]:
    stores at most [size - 1] characters of [s] and a terminating zero, and
    returns the length [s] has untruncated. *)
Definition snprintf (dst : gmap nat ascii) (at_ size : nat) (s : list ascii)
  : nat * gmap nat ascii :=
  match size with
  | O => (length s, dst)
  | S room =>
      let shown := take room s in
      (length s, <[at_ + length shown := NUL]> (store_chars dst at_ shown))
  end.

(** What [%s] reads at [dst + i]: the bytes up to the first zero.  Reading a
    byte that was never stored, or running through the [fuel] bytes of the
    buffer without meeting a zero, is undefined: [None]. *)
Fixpoint read_string (fuel : nat) (dst : gmap nat ascii) (i : nat)
  : option string :=
  match fuel with
  | O => None
  | S fuel' =>
      match dst !! i with
      | None => None
      | Some c =>
          if decide (c = NUL) then Some ""
          else String c <$> read_string fuel' dst (S i)
      end
  end.

(** ** encode_json_string *)

Record encoding := Encoding {
  enc_ret : Z;                 (* 0, or -1 on error *)
  enc_dst : gmap nat ascii     (* the bytes stored, by offset from [dst] *)
}.

(** The body of the [switch]: returns the advance of [dst_it] and the
    buffer after the store. *)
Definition encode_wchar (c : wchar_t) (dst : gmap nat ascii) (dst_it : nat)
  : nat * gmap nat ascii :=
  if (c =? 8)%Z then snprintf dst dst_it 3 [backslash; "b"%char]
  else if (c =? 12)%Z then snprintf dst dst_it 3 [backslash; "f"%char]
  else if (c =? 10)%Z then snprintf dst dst_it 3 [backslash; "n"%char]
  else if (c =? 13)%Z then snprintf dst dst_it 3 [backslash; "r"%char]
  else if (c =? 9)%Z then snprintf dst dst_it 3 [backslash; "t"%char]
  else if (c =? 34)%Z then snprintf dst dst_it 3 [backslash; dquote]
  else if (c =? 92)%Z then snprintf dst dst_it 3 [backslash; backslash]
  else if ((c <? 32) || (127 <? c))%Z then
    snprintf dst dst_it 7
      (backslash :: "u"%char :: fmt_04x (to_unsigned_int c))
  else (1, <[dst_it := char_of_wchar c]> dst).

(** The [for] loop over the wide characters and the final store of the
    terminating zero. *)
Fixpoint encode_loop (wsrc : list wchar_t) (dst : gmap nat ascii)
    (dst_it dst_size : nat) : encoding :=
  match wsrc with
  | [] =>
      if decide (dst_it < dst_size)
      then Encoding 0 (<[dst_it := NUL]> dst)
      else Encoding (-1) dst
  | c :: wsrc' =>
      if decide (dst_size ≤ dst_it) then Encoding (-1) dst
      else
        let '(n, dst') := encode_wchar c dst dst_it in
        encode_loop wsrc' dst' (dst_it + n) dst_size
  end.

Section Encoder.
(** [mbstowcs] of the locale in use: the wide characters of a multibyte
    string, or [None] where the C function returns [(size_t)-1]. *)
Context (mbstowcs : string → option (list wchar_t)).

Definition encode_json_string (src : string) (dst_size : nat) : encoding :=
  match mbstowcs src with
  | None => Encoding (-1) ∅
  | Some wsrc => encode_loop wsrc ∅ 0 dst_size
  end.

(** One buffer of [write_json_report]: the encoder is run on a buffer of
    [buffer_size] bytes and, unless it reports an error, the buffer is
    handed to [%s].  [Some None] stands for [return -1], [None] for an
    undefined read. *)
Definition encode_in_buffer (src : string) (buffer_size : nat)
  : option (option string) :=
  let e := encode_json_string src buffer_size in
  if (enc_ret e =? -1)%Z then Some None
  else Some <$> read_string buffer_size (enc_dst e) 0.

(** The loop over [cmd]; [first] tells whether [it == cmd]. *)
Fixpoint write_cmd (first : bool) (cmd : list string) (out : string)
  : option (Z * string) :=
  match cmd with
  | [] => Some (0%Z, out)
  | arg :: cmd' =>
      let sep := if first then "" else "," in
      let buffer_size := 6 * String.length arg + 1 in
      match encode_in_buffer arg buffer_size with
      | None => None
      | Some None => Some ((-1)%Z, out)
      | Some (Some buffer) =>
          write_cmd false cmd' (out +:+ sep +:+ " " +:+ q +:+ buffer +:+ q)
      end
  end.

(** [write_json_report]: [out] is the text already in the file, [cmd] the
    argument vector ([None] for a null pointer).  Returns the return value
    and the text of the file afterwards. *)
Definition write_json_report (out : string) (cmd : option (list string))
    (cwd : string) (pid : Z) : option (Z * string) :=
  let out1 :=
    out +:+ "{ " +:+ q +:+ "pid" +:+ q +:+ ": " +:+ fmt_d pid +:+ ", "
        +:+ q +:+ "cmd" +:+ q +:+ ": [" in
  match write_cmd true (default [] cmd) out1 with
  | None => None
  | Some (0%Z, out2) =>
      let buffer_size := 6 * String.length cwd in
      match encode_in_buffer cwd buffer_size with
      | None => None
      | Some None => Some ((-1)%Z, out2)
      | Some (Some buffer) =>
          Some (0%Z, out2 +:+ "], " +:+ q +:+ "cwd" +:+ q +:+ ": " +:+ q
                          +:+ buffer +:+ q +:+ " }")
      end
  | Some r => Some r
  end.
End Encoder.

(** ** [mbstowcs] of a UTF-8 locale *)

Definition is_cont (b : Z) : bool := ((128 <=? b) && (b <? 192))%Z.

Fixpoint utf8_decode (bs : list Z) : option (list wchar_t) :=
  match bs with
  | [] => Some []
  | b0 :: r0 =>
      if (b0 <? 128)%Z then (b0 ::.) <$> utf8_decode r0
      else if (b0 <? 194)%Z then None
      else if (b0 <? 224)%Z then
        match r0 with
        | b1 :: r1 =>
            if is_cont b1
            then (((b0 - 192) * 64 + (b1 - 128))%Z ::.) <$> utf8_decode r1
            else None
        | _ => None
        end
      else if (b0 <? 240)%Z then
        match r0 with
        | b1 :: b2 :: r2 =>
            let c := ((b0 - 224) * 4096 + (b1 - 128) * 64 + (b2 - 128))%Z in
            if is_cont b1 && is_cont b2 && (2048 <=? c)%Z
               && negb ((55296 <=? c) && (c <? 57344))%Z
            then (c ::.) <$> utf8_decode r2
            else None
        | _ => None
        end
      else if (b0 <? 245)%Z then
        match r0 with
        | b1 :: b2 :: b3 :: r3 =>
            let c := ((b0 - 240) * 262144 + (b1 - 128) * 4096
                      + (b2 - 128) * 64 + (b3 - 128))%Z in
            if is_cont b1 && is_cont b2 && is_cont b3
               && (65536 <=? c)%Z && (c <? 1114112)%Z
            then (c ::.) <$> utf8_decode r3
            else None
        | _ => None
        end
      else None
  end.

Definition mbstowcs_utf8 (src : string) : option (list wchar_t) :=
  utf8_decode (wchar_of_char <$> list_ascii_of_string src).

(** ** Dynamic memory *)

Definition loc : Type := positive.

(** A cell of a pointer array: not yet written, or a pointer ([None] is the
    null pointer). *)
Inductive cell := Undef | Ptr (p : option loc).

(** An allocated block: the bytes of a string, or an array of pointers. *)
Inductive block := BStr (s : string) | BArr (cells : list cell).

(** Computations on the heap; [None] is a memory fault (a load or store
    outside a live block, a read of an unwritten cell, a [free] of something
    that is not live). *)
Definition H (A : Type) : Type := gmap loc block → option (A * gmap loc block).

#[global] Instance H_ret : MRet H := λ A a h, Some (a, h).
#[global] Instance H_bind : MBind H := λ A B f m h,
  match m h with
  | Some (a, h') => f a h'
  | None => None
  end.

Definition fault {A} : H A := λ _, None.

Definition malloc (b : block) : H loc := λ h,
  let l := fresh (dom h) in Some (l, <[l := b]> h).

Definition free (p : option loc) : H unit := λ h,
  match p with
  | None => Some ((), h)
  | Some l => if decide (is_Some (h !! l)) then Some ((), delete l h) else None
  end.

Definition block_at (l : loc) : H block := λ h,
  match h !! l with
  | Some b => Some (b, h)
  | None => None
  end.

Definition read_str (l : loc) : H string :=
  b ← block_at l;
  match b with BStr s => mret s | _ => fault end.

Definition read_cells (a : loc) : H (list cell) :=
  b ← block_at a;
  match b with BArr cells => mret cells | _ => fault end.

(** [a[i]] as an rvalue. *)
Definition load (a : loc) (i : nat) : H (option loc) :=
  cells ← read_cells a;
  match cells !! i with
  | Some (Ptr p) => mret p
  | _ => fault
  end.

Definition put_block (l : loc) (b : block) : H unit := λ h,
  Some ((), <[l := b]> h).

(** [a[i] = p]. *)
Definition store (a : loc) (i : nat) (p : option loc) : H unit :=
  cells ← read_cells a;
  if decide (i < length cells)
  then put_block a (BArr (<[i := Ptr p]> cells))
  else fault.

Definition strdup (s : loc) : H loc :=
  text ← read_str s;
  malloc (BStr text).

(** [realloc] of [p] to [n] pointers: a block of [n] cells that keeps
    the old cells; the old block is given back first, so that the new one
    may or may not have the old address. *)
Definition realloc (p : option loc) (n : nat) : H loc :=
  match p with
  | None => malloc (BArr (replicate n Undef))
  | Some a =>
      cells ← read_cells a;
      free (Some a);;
      malloc (BArr (take n cells ++ replicate (n - length cells) Undef))
  end.

(** The number of cells of the block an array pointer points to: an upper
    bound on the iterations of a scan that stays inside the block. *)
Definition cells_count (a : loc) : H nat :=
  cells ← read_cells a; mret (length cells).

(** ** String arrays *)

(** The loop of [string_array_length], counting up to the null sentinel. *)
Fixpoint string_array_length_loop (fuel : nat) (a : loc) (it result : nat)
  : H nat :=
  match fuel with
  | O => fault
  | S fuel' =>
      p ← load a it;
      match p with
      | None => mret result
      | Some _ => string_array_length_loop fuel' a (S it) (S result)
      end
  end.

Definition string_array_length (in_ : option loc) : H nat :=
  match in_ with
  | None => mret 0
  | Some a => n ← cells_count a; string_array_length_loop n a 0 0
  end.

Fixpoint string_array_copy_loop (fuel : nat) (a result : loc) (it : nat)
  : H nat :=
  match fuel with
  | O => fault
  | S fuel' =>
      p ← load a it;
      match p with
      | None => mret it
      | Some s =>
          c ← strdup s;
          store result it (Some c);;
          string_array_copy_loop fuel' a result (S it)
      end
  end.

Definition string_array_copy (in_ : option loc) : H loc :=
  size ← string_array_length in_;
  result ← malloc (BArr (replicate (size + 1) Undef));
  out_it ← match in_ with
           | None => mret 0
           | Some a => n ← cells_count a; string_array_copy_loop n a result 0
           end;
  store result out_it None;;
  mret result.

Fixpoint string_array_release_loop (fuel : nat) (a : loc) (it : nat)
  : H unit :=
  match fuel with
  | O => fault
  | S fuel' =>
      p ← load a it;
      match p with
      | None => mret ()
      | Some s => free (Some s);; string_array_release_loop fuel' a (S it)
      end
  end.

Definition string_array_release (in_ : option loc) : H unit :=
  match in_ with
  | None => mret ()
  | Some a => n ← cells_count a; string_array_release_loop n a 0
  end;;
  free in_.

(** [va_arg]: the next variadic argument. *)
Definition va_arg (args : list (option loc))
  : H (option loc * list (option loc)) :=
  match args with
  | [] => fault
  | p :: args' => mret (p, args')
  end.

(** The collecting loop of [string_array_from_varargs]; returns [result],
    [size] and the arguments left after the terminating null. *)
Fixpoint string_array_from_varargs_loop (it : option loc)
    (args : list (option loc)) (result : option loc) (size : nat)
  : H (option loc * nat * list (option loc)) :=
  match it with
  | None => mret (result, size, args)
  | Some s =>
      r ← realloc result (size + 1);
      copy ← strdup s;
      store r size (Some copy);;
      match args with
      | [] => fault
      | next :: args' =>
          string_array_from_varargs_loop next args' (Some r) (S size)
      end
  end.

Definition string_array_from_varargs (arg : option loc)
    (args : list (option loc)) : H (loc * list (option loc)) :=
  '(result, size, args') ← string_array_from_varargs_loop arg args None 0;
  r ← realloc result (size + 1);
  store r size None;;
  mret (r, args').

(** ** The environment-vector transformer *)

Definition byte_of (a : ascii) : Z := Z.of_N (N_of_ascii a).

(** [strncmp]: the difference of the first bytes that differ among the
    first [n], the end of a string counting as a zero byte. *)
Fixpoint strncmp (s1 s2 : string) (n : nat) : Z :=
  match n with
  | O => 0%Z
  | S n' =>
      match s1, s2 with
      | "", "" => 0%Z
      | "", String b _ => (- byte_of b)%Z
      | String a _, "" => byte_of a
      | String a s1', String b s2' =>
          if decide (a = b) then strncmp s1' s2' n'
          else (byte_of a - byte_of b)%Z
      end
  end.

(** The test of the scanning loop of [string_array_single_update]. *)
Definition key_matches (entry key : string) : bool :=
  let key_length := String.length key in
  bool_decide (strncmp entry key key_length = 0%Z)
  && bool_decide (key_length < String.length entry)
  && bool_decide (String.get key_length entry = Some "="%char).

(** The scanning loop; returns the index [it] stops at. *)
Fixpoint string_array_find_loop (fuel : nat) (a : loc) (it : nat)
    (key : string) : H nat :=
  match fuel with
  | O => fault
  | S fuel' =>
      p ← load a it;
      match p with
      | None => mret it
      | Some e =>
          entry ← read_str e;
          if key_matches entry key then mret it
          else string_array_find_loop fuel' a (S it) key
      end
  end.

Definition string_array_single_update (envs : option loc)
    (key value : string) : H loc :=
  (* find the key if it's there *)
  it ← match envs with
       | None => mret None
       | Some a =>
           n ← cells_count a;
           i ← string_array_find_loop n a 0 key;
           mret (Some (a, i))
       end;
  (* allocate a environment entry *)
  env ← malloc (BStr (key +:+ "=" +:+ value));
  (* replace or append the environment entry *)
  found ← match it with
          | None => mret None
          | Some (a, i) => load a i
          end;
  match it, found with
  | Some (a, i), Some old =>
      free (Some old);;
      store a i (Some env);;
      mret a
  | _, _ =>
      size ← string_array_length envs;
      result ← realloc envs (size + 2);
      store result size (Some env);;
      store result (size + 1) None;;
      mret result
  end.

(** [ENV_OUTPUT], [ENV_PRELOAD] and [ENV_FLAT]; [apple] tells whether the
    unit is compiled with [APPLE] defined. *)
Definition ENV_OUTPUT : string := "INTERCEPT_BUILD_TARGET_DIR".

Definition env_names (apple : bool) : list string :=
  if apple
  then [ENV_OUTPUT; "DYLD_INSERT_LIBRARIES"; "DYLD_FORCE_FLAT_NAMESPACE"]
  else [ENV_OUTPUT; "LD_PRELOAD"].

Definition ENV_SIZE (apple : bool) : nat := length (env_names apple).

(** The loop of [string_array_partial_update], which runs while
    [it < ENV_SIZE] and slot [it] of [env] is not null: [names] and [env]
    are what is left of [env_names] and of [env] from index [it] on. *)
Fixpoint string_array_partial_update_loop (names : list string)
    (env : list (option loc)) (result : loc) : H loc :=
  match names, env with
  | name :: names', Some v :: env' =>
      value ← read_str v;
      result' ← string_array_single_update (Some result) name value;
      string_array_partial_update_loop names' env' result'
  | _, _ => mret result
  end.

Definition string_array_partial_update (apple : bool) (envp : option loc)
    (env : list (option loc)) : H loc :=
  result ← string_array_copy envp;
  string_array_partial_update_loop (env_names apple) env result.

(** The strings a null-terminated array holds, as a reader that walks it
    up to the sentinel sees them. *)
Fixpoint vector_strings_loop (fuel : nat) (a : loc) (it : nat)
  : H (list string) :=
  match fuel with
  | O => fault
  | S fuel' =>
      p ← load a it;
      match p with
      | None => mret []
      | Some s =>
          text ← read_str s;
          rest ← vector_strings_loop fuel' a (S it);
          mret (text :: rest)
      end
  end.

Definition vector_strings (v : option loc) : H (option (list string)) :=
  match v with
  | None => mret None
  | Some a =>
      n ← cells_count a;
      l ← vector_strings_loop n a 0;
      mret (Some l)
  end.

(** ** The state of the process and of the shim *)

(** A locale, as far as the shim uses one: its [mbstowcs]. *)
Definition locale_t : Type := string → option (list wchar_t).

(** What the calls of the C library that [report_call] and [write_report]
    test give in this process. *)
Record sys_results := SysResults {
  (* [mkstemp]: the six characters that take the place of [XXXXXX] in the
     template, given the files that exist; [None] when no file can be made *)
  mkstemp_pick : string → list (string * string) → option string;
  (* whether [getcwd(NULL, 0)] returns a string *)
  getcwd_ok : bool;
  (* whether [uselocale] accepts the locale: it returns null otherwise *)
  locale_valid : locale_t → bool;
  (* whether [close] returns 0 *)
  close_ok : bool
}.

Record world := World {
  heap : gmap loc block;
  initialized : bool;                 (* [static int initialized] *)
  utf_locale : option locale_t;       (* [static locale_t utf_locale] *)
  initial_env : list (option loc);    (* [static bear_env_t initial_env] *)
  environ : option loc;               (* [char **environ] *)
  thread_locale : locale_t;           (* the locale of the calling thread *)
  files : list (string * string);     (* files made by [mkstemp]: the
                                         name and the text *)
  cwd : string;                       (* the working directory *)
  pid : Z;                            (* what [getpid] returns *)
  sys : sys_results                   (* the results of the library calls *)
}.

Definition set_heap (h : gmap loc block) (w : world) : world :=
  World h (initialized w) (utf_locale w) (initial_env w) (environ w)
        (thread_locale w) (files w) (cwd w) (pid w) (sys w).
Definition set_initialized (b : bool) (w : world) : world :=
  World (heap w) b (utf_locale w) (initial_env w) (environ w)
        (thread_locale w) (files w) (cwd w) (pid w) (sys w).
Definition set_utf_locale (l : option locale_t) (w : world) : world :=
  World (heap w) (initialized w) l (initial_env w) (environ w)
        (thread_locale w) (files w) (cwd w) (pid w) (sys w).
Definition set_initial_env (e : list (option loc)) (w : world) : world :=
  World (heap w) (initialized w) (utf_locale w) e (environ w)
        (thread_locale w) (files w) (cwd w) (pid w) (sys w).
Definition set_environ (p : option loc) (w : world) : world :=
  World (heap w) (initialized w) (utf_locale w) (initial_env w) p
        (thread_locale w) (files w) (cwd w) (pid w) (sys w).
Definition set_thread_locale (l : locale_t) (w : world) : world :=
  World (heap w) (initialized w) (utf_locale w) (initial_env w) (environ w)
        l (files w) (cwd w) (pid w) (sys w).
Definition set_files (fs : list (string * string)) (w : world) : world :=
  World (heap w) (initialized w) (utf_locale w) (initial_env w) (environ w)
        (thread_locale w) fs (cwd w) (pid w) (sys w).

(** How a call ends: it returns, the process exits ([ERROR_AND_EXIT]), or
    memory is misused. *)
Inductive outcome (A : Type) :=
  | Ret (a : A) (w : world)
  | Exit (w : world)
  | Fault.
Arguments Ret {A} a w.
Arguments Exit {A} w.
Arguments Fault {A}.

Definition M (A : Type) : Type := world → outcome A.

#[global] Instance M_ret : MRet M := λ A a w, Ret a w.
#[global] Instance M_bind : MBind M := λ A B f m w,
  match m w with
  | Ret a w' => f a w'
  | Exit w' => Exit w'
  | Fault => Fault
  end.

Definition on_heap {A} (m : H A) : M A := λ w,
  match m (heap w) with
  | Some (a, h') => Ret a (set_heap h' w)
  | None => Fault
  end.

Definition get {A} (f : world → A) : M A := λ w, Ret (f w) w.
Definition modify (f : world → world) : M unit := λ w, Ret () (f w).
Definition exit_failure {A} : M A := λ w, Exit w.

(** ** Load and unload *)

(** [getenv] over the entries of [environ]: the value of the first entry
    that starts with [name] and an equals sign. *)
Fixpoint getenv_in (entries : list string) (name : string) : option string :=
  match entries with
  | [] => None
  | e :: entries' =>
      if key_matches e name
      then Some (substring (S (String.length name))
                           (String.length e - S (String.length name)) e)
      else getenv_in entries' name
  end.

Definition getenv (name : string) : M (option string) :=
  env ← get environ;
  entries ← on_heap (vector_strings env);
  mret (getenv_in (default [] entries) name).

(** The loop of [capture_env_t].  [strdup_ok it] tells whether the [strdup]
    of slot [it] finds memory. *)
Fixpoint capture_env_t_loop (strdup_ok : nat → bool) (names : list string)
    (it : nat) (status : bool) : M bool :=
  match names with
  | [] => mret status
  | name :: names' =>
      env_value ← getenv name;
      env_copy ← match env_value with
                 | Some v =>
                     if strdup_ok it
                     then on_heap (c ← malloc (BStr v); mret (Some c))
                     else mret None
                 | None => mret None
                 end;
      modify (λ w, set_initial_env (<[it := env_copy]> (initial_env w)) w);;
      capture_env_t_loop strdup_ok names' (S it)
        (status && bool_decide (is_Some env_copy))
  end.

Definition capture_env_t (apple : bool) (strdup_ok : nat → bool) : M bool :=
  capture_env_t_loop strdup_ok (env_names apple) 0 true.

Fixpoint release_env_t_loop (n it : nat) : M unit :=
  match n with
  | O => mret ()
  | S n' =>
      env ← get initial_env;
      match env !! it with
      | None => λ _, Fault
      | Some p =>
          on_heap (free p);;
          modify (λ w, set_initial_env (<[it := None]> (initial_env w)) w);;
          release_env_t_loop n' (S it)
      end
  end.

Definition release_env_t (apple : bool) : M unit :=
  release_env_t_loop (ENV_SIZE apple) 0.

(** [newlocale_result] is what [newlocale(LC_CTYPE_MASK, "", 0)] returns:
    the locale the environment selects, or [None] for a null result. *)
Definition mt_safe_on_load (apple : bool) (newlocale_result : option locale_t)
    (strdup_ok : nat → bool) : M bool :=
  modify (set_utf_locale newlocale_result);;
  match newlocale_result return M bool with
  | None => mret false
  | Some _ =>
      captured ← capture_env_t apple strdup_ok;
      if (captured : bool) then mret true else mret false
  end.

Definition mt_safe_on_unload (apple : bool) : M unit :=
  (* freelocale(utf_locale) leaves the variable as it is *)
  release_env_t apple.

Definition on_load (apple : bool) (newlocale_result : option locale_t)
    (strdup_ok : nat → bool) : M unit :=
  init ← get initialized;
  if (init : bool) then mret ()
  else
    ok ← mt_safe_on_load apple newlocale_result strdup_ok;
    if (ok : bool) then modify (set_initialized true) else mret ().

Definition on_unload (apple : bool) : M unit :=
  init ← get initialized;
  (if (init : bool) then mt_safe_on_unload apple else mret ());;
  modify (set_initialized false).

(** ** Reporting *)

(** [uselocale]: with a null argument, returns the locale in use; with a
    locale, installs it and returns the locale that was in use, or returns
    null ([None]) when the locale is not valid. *)
Definition uselocale (l : option locale_t) : M (option locale_t) :=
  saved ← get thread_locale;
  match l with
  | None => mret (Some saved)
  | Some l' =>
      valid ← get (λ w, locale_valid (sys w) l');
      if (valid : bool)
      then modify (set_thread_locale l');; mret (Some saved)
      else mret None
  end.

(** Whether [mkstemp] can make the file [name] with the characters
    [suffix]: there are six of them and no file has that name. *)
Definition fresh_name (suffix name : string) (fs : list (string * string))
  : bool :=
  (String.length suffix =? 6) && negb (existsb (String.eqb name) fs.*1).

(** [mkstemp]: the name is the template with its six last characters
    replaced by those the library picks; the new file is empty and its
    descriptor is its index in [files].  [None] stands for the result -1,
    which is also what a pick that is not six characters, or that gives
    the name of a file that exists, comes to. *)
Definition mkstemp (template : string) : M (option nat) :=
  fs ← get files;
  pick ← get (λ w, mkstemp_pick (sys w) template fs);
  match pick with
  | None => mret None
  | Some suffix =>
      let name :=
        substring 0 (String.length template - 6) template +:+ suffix in
      if fresh_name suffix name fs
      then modify (set_files (fs ++ [(name, "")]));; mret (Some (length fs))
      else mret None
  end.

(** [getcwd(NULL, 0)]: a newly allocated string, or null. *)
Definition getcwd : M (option loc) :=
  ok ← get (λ w, getcwd_ok (sys w));
  if (ok : bool)
  then dir ← get cwd; l ← on_heap (malloc (BStr dir)); mret (Some l)
  else mret None.

(** [close]: whether it returns 0. *)
Definition close (fd : nat) : M bool := get (λ w, close_ok (sys w)).

Definition write_report (fd : nat) (argv : option loc) : M unit :=
  lc ← get utf_locale;
  saved_locale ← uselocale lc;
  match saved_locale with
  | None => exit_failure
  | Some saved =>
      cwd_p ← getcwd;
      match cwd_p with
      | None => exit_failure
      | Some cwd_l =>
          dir ← on_heap (read_str cwd_l);
          p ← get pid;
          cmd ← on_heap (vector_strings argv);
          fs ← get files;
          mb ← get thread_locale;
          match fs !! fd with
          | None => λ _, Fault
          | Some (name, text) =>
              match write_json_report mb text cmd dir p with
              | None => λ _, Fault
              | Some (r, text') =>
                  modify (set_files (<[fd := (name, text')]> fs));;
                  if (r =? 0)%Z
                  then
                    on_heap (free (Some cwd_l));;
                    restored_locale ← uselocale (Some saved);
                    match restored_locale with
                    | None => exit_failure
                    | Some _ => mret ()
                    end
                  else exit_failure
              end
          end
      end
  end.

Definition report_call (argv : option loc) : M unit :=
  init ← get initialized;
  if negb init then mret ()
  else
    env ← get initial_env;
    match env !! 0 with
    | Some (Some out_dir_p) =>
        out_dir ← on_heap (read_str out_dir_p);
        fd ← mkstemp (out_dir +:+ "/execution.XXXXXX");
        match fd with
        | None => exit_failure
        | Some fd' =>
            write_report fd' argv;;
            closed ← close fd';
            if (closed : bool) then mret () else exit_failure
        end
    | _ => λ _, Fault
    end.

(** ** The hijacked entry points *)

(** The arguments of [posix_spawn] the shim only passes on. *)
Record spawn_args := SpawnArgs {
  spawn_pid : option loc;
  spawn_file_actions : option loc;
  spawn_attrp : option loc
}.

(** The genuine implementations [dlsym(RTLD_NEXT, ...)] resolves.  Each is
    given the strings of the vectors it is called with; [real_execvp] and
    [real_execvP] are given those of [environ]. *)
Class Libc := {
  real_execve : string → option (list string) → option (list string) → Z;
  real_execvpe : string → option (list string) → option (list string) → Z;
  real_execvp : string → option (list string) → option (list string) → Z;
  real_execvP :
    string → string → option (list string) → option (list string) → Z;
  real_exect : string → option (list string) → option (list string) → Z;
  real_posix_spawn :
    spawn_args → string → option (list string) → option (list string) → Z;
  real_posix_spawnp :
    spawn_args → string → option (list string) → option (list string) → Z
}.

Section EntryPoints.
Context `{Libc} (apple : bool).

(** The shape shared by [call_execve], [call_execvpe], [call_exect],
    [call_posix_spawn] and [call_posix_spawnp]: the genuine function [fp]
    is called with the updated copy of [envp]. *)
Definition call_with_envp
    (fp : option (list string) → option (list string) → Z)
    (argv envp : option loc) : M Z :=
  env ← get initial_env;
  menvp ← on_heap (string_array_partial_update apple envp env);
  args ← on_heap (vector_strings argv);
  envs ← on_heap (vector_strings (Some menvp));
  let result := fp args envs in
  on_heap (string_array_release (Some menvp));;
  mret result.

(** The shape shared by [call_execvp] and [call_execvP]: [environ] is
    replaced by its updated copy for the time of the call. *)
Definition call_with_environ
    (fp : option (list string) → option (list string) → Z)
    (argv : option loc) : M Z :=
  original ← get environ;
  env ← get initial_env;
  modified ← on_heap (string_array_partial_update apple original env);
  modify (set_environ (Some modified));;
  args ← on_heap (vector_strings argv);
  cur ← get environ;
  envs ← on_heap (vector_strings cur);
  let result := fp args envs in
  modify (set_environ original);;
  on_heap (string_array_release (Some modified));;
  mret result.

Definition call_execve (path : string) (argv envp : option loc) : M Z :=
  call_with_envp (real_execve path) argv envp.
Definition call_execvpe (file : string) (argv envp : option loc) : M Z :=
  call_with_envp (real_execvpe file) argv envp.
Definition call_execvp (file : string) (argv : option loc) : M Z :=
  call_with_environ (real_execvp file) argv.
Definition call_execvP (file search_path : string) (argv : option loc)
  : M Z :=
  call_with_environ (real_execvP file search_path) argv.
Definition call_exect (path : string) (argv envp : option loc) : M Z :=
  call_with_envp (real_exect path) argv envp.
Definition call_posix_spawn (sa : spawn_args) (path : string)
    (argv envp : option loc) : M Z :=
  call_with_envp (real_posix_spawn sa path) argv envp.
Definition call_posix_spawnp (sa : spawn_args) (file : string)
    (argv envp : option loc) : M Z :=
  call_with_envp (real_posix_spawnp sa file) argv envp.

Definition execve (path : string) (argv envp : option loc) : M Z :=
  report_call argv;; call_execve path argv envp.

Definition execv (path : string) (argv : option loc) : M Z :=
  report_call argv;;
  e ← get environ;
  call_execve path argv e.

Definition execvpe (file : string) (argv envp : option loc) : M Z :=
  report_call argv;; call_execvpe file argv envp.

Definition execvp (file : string) (argv : option loc) : M Z :=
  report_call argv;; call_execvp file argv.

Definition execvP (file search_path : string) (argv : option loc) : M Z :=
  report_call argv;; call_execvP file search_path argv.

Definition exect (path : string) (argv envp : option loc) : M Z :=
  report_call argv;; call_exect path argv envp.

(** [arg] and [args] are the variadic arguments, [args] ending with the
    terminating null. *)
Definition execl (path : string) (arg : option loc)
    (args : list (option loc)) : M Z :=
  '(argv, rest) ← on_heap (string_array_from_varargs arg args);
  report_call (Some argv);;
  e ← get environ;
  result ← call_execve path (Some argv) e;
  on_heap (string_array_release (Some argv));;
  mret result.

Definition execlp (file : string) (arg : option loc)
    (args : list (option loc)) : M Z :=
  '(argv, rest) ← on_heap (string_array_from_varargs arg args);
  report_call (Some argv);;
  result ← call_execvp file (Some argv);
  on_heap (string_array_release (Some argv));;
  mret result.

(** Here [args] also holds, after the terminating null, the environment
    pointer. *)
Definition execle (path : string) (arg : option loc)
    (args : list (option loc)) : M Z :=
  '(argv, args') ← on_heap (string_array_from_varargs arg args);
  '(envp, rest) ← on_heap (va_arg args');
  report_call (Some argv);;
  result ← call_execve path (Some argv) envp;
  on_heap (string_array_release (Some argv));;
  mret result.

Definition posix_spawn (sa : spawn_args) (path : string)
    (argv envp : option loc) : M Z :=
  report_call argv;; call_posix_spawn sa path argv envp.

Definition posix_spawnp (sa : spawn_args) (file : string)
    (argv envp : option loc) : M Z :=
  report_call argv;; call_posix_spawnp sa file argv envp.
End EntryPoints.

(** ** Strings for concrete runs *)

(** The string of the given byte values. *)
Definition str (bs : list Z) : string :=
  string_of_list_ascii (char_of_wchar <$> bs).

(** ** The report format and the escapes, as the specification words them *)

(** The text of the [cmd] array for the encoded arguments [bufs]: each
    entry is a space and the quoted text, entries after the first are
    preceded by a comma; [first] tells whether the head of [bufs] is the
    first argument. *)
Fixpoint cmd_text (first : bool) (bufs : list string) : string :=
  match bufs with
  | [] => ""
  | b :: bufs' =>
      (if first then "" else ",") +:+ " " +:+ q +:+ b +:+ q
        +:+ cmd_text false bufs'
  end.

(** The body of a report: one object with the keys [pid], [cmd] and [cwd]
    in this order and nothing after the closing brace. *)
Definition report_body (pid : Z) (bufs : list string) (cwd_buf : string)
  : string :=
  "{ " +:+ q +:+ "pid" +:+ q +:+ ": " +:+ fmt_d pid +:+ ", "
       +:+ q +:+ "cmd" +:+ q +:+ ": [" +:+ cmd_text true bufs
       +:+ "], " +:+ q +:+ "cwd" +:+ q +:+ ": " +:+ q +:+ cwd_buf +:+ q
       +:+ " }".

(** The four hexadecimal digits of a code point below 65536. *)
Definition hex4 (c : Z) : list ascii :=
  [hex_digit (c / 4096 mod 16); hex_digit (c / 256 mod 16);
   hex_digit (c / 16 mod 16); hex_digit (c mod 16)].

(** The escape of one character where the range that passes through
    unescaped is [lo .. hi]: the seven two-character escapes, a numeric
    escape outside the range, the character itself inside. *)
Definition escape_with (lo hi : Z) (c : wchar_t) : list ascii :=
  if (c =? 8)%Z then [backslash; "b"%char]
  else if (c =? 12)%Z then [backslash; "f"%char]
  else if (c =? 10)%Z then [backslash; "n"%char]
  else if (c =? 13)%Z then [backslash; "r"%char]
  else if (c =? 9)%Z then [backslash; "t"%char]
  else if (c =? 34)%Z then [backslash; dquote]
  else if (c =? 92)%Z then [backslash; backslash]
  else if ((c <? lo) || (hi <? c))%Z then backslash :: "u"%char :: hex4 c
  else [char_of_wchar c].

(** The mapping in the specification's words: everything outside
    0x20 .. 0x7E gets a numeric escape. *)
Definition spec_escape : wchar_t → list ascii := escape_with 32 126.

(** The mapping with the range 0x20 .. 0x7F of the encoder's test. *)
Definition json_escape : wchar_t → list ascii := escape_with 32 127.

Fixpoint escaped_text (esc : wchar_t → list ascii) (wsrc : list wchar_t)
  : list ascii :=
  match wsrc with
  | [] => []
  | c :: wsrc' => esc c ++ escaped_text esc wsrc'
  end.

Definition hex_value (a : ascii) : option Z :=
  let n := wchar_of_char a in
  if ((48 <=? n) && (n <=? 57))%Z then Some (n - 48)%Z
  else if ((97 <=? n) && (n <=? 102))%Z then Some (n - 87)%Z
  else if ((65 <=? n) && (n <=? 70))%Z then Some (n - 55)%Z
  else None.

(** Modelled from the spec: the decoding of the escapes of a JSON string
    (the reader of a [cmd] entry is not part of the unit): a backslash and
    [u] with four hexadecimal digits is the code point they denote, a
    two-character escape is its character, any other character is itself. *)
Fixpoint json_unescape (s : list ascii) : option (list wchar_t) :=
  match s with
  | [] => Some []
  | a :: s1 =>
      if decide (a = backslash) then
        match s1 with
        | [] => None
        | e :: s2 =>
            if decide (e = "u"%char) then
              match s2 with
              | h1 :: h2 :: h3 :: h4 :: s6 =>
                  match hex_value h1, hex_value h2, hex_value h3,
                        hex_value h4 with
                  | Some d1, Some d2, Some d3, Some d4 =>
                      ((d1 * 4096 + d2 * 256 + d3 * 16 + d4)%Z ::.)
                        <$> json_unescape s6
                  | _, _, _, _ => None
                  end
              | _ => None
              end
            else
              let one (c : Z) := (c ::.) <$> json_unescape s2 in
              if decide (e = "b"%char) then one 8%Z
              else if decide (e = "f"%char) then one 12%Z
              else if decide (e = "n"%char) then one 10%Z
              else if decide (e = "r"%char) then one 13%Z
              else if decide (e = "t"%char) then one 9%Z
              else if decide (e = dquote) then one 34%Z
              else if decide (e = backslash) then one 92%Z
              else if decide (e = "/"%char) then one 47%Z
              else None
        end
      else (wchar_of_char a ::.) <$> json_unescape s1
  end.

(** ** Environment vectors as lists of strings *)

(** What [string_array_single_update] does to the strings of a vector: the
    first entry that passes the test of the scanning loop is replaced, or
    the new entry is appended. *)
Fixpoint env_update (v : list string) (key value : string) : list string :=
  match v with
  | [] => [key +:+ "=" +:+ value]
  | e :: v' =>
      if key_matches e key then (key +:+ "=" +:+ value) :: v'
      else e :: env_update v' key value
  end.

(** What the loop of [string_array_partial_update] does to the strings of
    the copy: [vals] are the captured values, slot by slot. *)
Fixpoint env_partial_update (names : list string) (vals : list (option string))
    (v : list string) : list string :=
  match names, vals with
  | name :: names', Some value :: vals' =>
      env_partial_update names' vals' (env_update v name value)
  | _, _ => v
  end.

(** The same in the specification's words: one update for each captured
    pair, in order, the absent slots passed over. *)
Fixpoint spec_partial_update (names : list string) (vals : list (option string))
    (v : list string) : list string :=
  match names, vals with
  | name :: names', o :: vals' =>
      spec_partial_update names' vals'
        (match o with Some value => env_update v name value | None => v end)
  | _, _ => v
  end.

(** ** Vectors in memory *)

(** The cells of a null-terminated array of the pointers [ls], followed by
    whatever else the block holds. *)
Definition vec_cells (ls : list loc) (rest : list cell) : list cell :=
  ((λ l, Ptr (Some l)) <$> ls) ++ Ptr None :: rest.

Definition strings_at (h : gmap loc block) (ls : list loc) (v : list string)
  : Prop :=
  Forall2 (λ l s, h !! l = Some (BStr s)) ls v.

(** [a] points to a null-terminated array of the strings [v], stored at
    [ls]. *)
Definition is_vector (h : gmap loc block) (a : loc) (ls : list loc)
    (v : list string) : Prop :=
  (∃ rest, h !! a = Some (BArr (vec_cells ls rest))) ∧ strings_at h ls v.

(** The same with strings that are pairwise distinct blocks: a vector one
    may update and release. *)
Definition owned (h : gmap loc block) (a : loc) (ls : list loc)
    (v : list string) : Prop :=
  is_vector h a ls v ∧ NoDup ls.

(** A vector argument: null, read as the empty vector, or a vector. *)
Definition vector_in (h : gmap loc block) (p : option loc) (v : list string)
  : Prop :=
  match p with
  | None => v = []
  | Some a => ∃ ls, is_vector h a ls v
  end.

(** None of the locations [ls] is live in [h]. *)
Definition outside (h : gmap loc block) (ls : list loc) : Prop :=
  Forall (λ l, h !! l = None) ls.

(** The captured slots [env] hold the values [vals]. *)
Definition captured_in (h : gmap loc block) (env : list (option loc))
    (vals : list (option string)) : Prop :=
  Forall2 (λ p o, match p, o with
                  | Some l, Some s => h !! l = Some (BStr s)
                  | None, None => True
                  | _, _ => False
                  end) env vals.

(** The state of the loop of [string_array_copy]: the heap [hc] extends the
    heap [h] the call started in, the block [r] holds the copies [done] made
    so far, of the strings [vd], and [S k] cells yet to be written. *)
Definition copying (h hc : gmap loc block) (r : loc) (done : list loc)
    (vd : list string) (k : nat) : Prop :=
  h ⊆ hc ∧ h !! r = None ∧ outside h done ∧ NoDup done
  ∧ hc !! r = Some (BArr (((λ l, Ptr (Some l)) <$> done)
                          ++ replicate (S k) Undef))
  ∧ strings_at hc done vd
  ∧ (∀ l, l ≠ r → l ∉ done → hc !! l = h !! l).

(** The index the scanning loop of [string_array_single_update] stops at:
    that of the first entry that passes its test, or the length. *)
Fixpoint find_key (v : list string) (key : string) : nat :=
  match v with
  | [] => 0
  | e :: v' => if key_matches e key then 0 else S (find_key v' key)
  end.

(** A key without an equals sign, as the names of environment variables
    are. *)
Fixpoint no_equals (key : string) : bool :=
  match key with
  | "" => true
  | String c key' => bool_decide (c ≠ "="%char) && no_equals key'
  end.

(** The pairs the loop of [string_array_partial_update] applies: those of
    the slots before the first absent one. *)
Fixpoint applied_pairs (names : list string) (vals : list (option string))
  : list (string * string) :=
  match names, vals with
  | name :: names', Some value :: vals' =>
      (name, value) :: applied_pairs names' vals'
  | _, _ => []
  end.

(** The updates of the pairs [ps], one after the other. *)
Definition apply_pairs (ps : list (string * string)) (v : list string)
  : list string :=
  foldl (λ v p, env_update v p.1 p.2) v ps.

(** ** Predicates on the destination buffer *)

(** What a store of the text [e] at [it] does to the buffer: the bytes
    before [it] stay, those of [e] are in place, and nothing is touched
    after the byte that follows [e]. *)
Definition stored (dst dst' : gmap nat ascii) (it : nat) (e : list ascii)
  : Prop :=
  (∀ i, i < it → dst' !! i = dst !! i)
  ∧ (∀ k a, e !! k = Some a → dst' !! (it + k) = Some a)
  ∧ (∀ i, it + length e < i → dst' !! i = dst !! i).

(** The buffer holds the text [t] from offset 0 on. *)
Definition holds (dst : gmap nat ascii) (t : list ascii) : Prop :=
  ∀ k a, t !! k = Some a → dst !! k = Some a.

(** Checking a decidable property on every code point below 65536. *)
Fixpoint count_from (n : nat) (z : Z) : list Z :=
  match n with
  | O => []
  | S n' => z :: count_from n' (z + 1)%Z
  end.

(** [P] holds of every code point below 65536. *)
Definition bmp_all (P : Z → bool) : bool :=
  forallb P (count_from (Z.to_nat 65536) 0%Z).

(** ** Heaps for concrete runs *)

(** The vector [A=1; KB=2; K=old] at location 4. *)
Definition heap_AKB : gmap loc block :=
  {[ 1%positive := BStr "A=1"; 2%positive := BStr "KB=2";
     3%positive := BStr "K=old";
     4%positive := BArr [Ptr (Some 1%positive); Ptr (Some 2%positive);
                         Ptr (Some 3%positive); Ptr None] ]}.

(** The vector [K=1; K=2] at location 3. *)
Definition heap_KK : gmap loc block :=
  {[ 1%positive := BStr "K=1"; 2%positive := BStr "K=2";
     3%positive := BArr [Ptr (Some 1%positive); Ptr (Some 2%positive);
                         Ptr None] ]}.

(** The vector [A=1; LD_PRELOAD=x] at location 3 and the captured values
    [/out] and [lib.so] at locations 5 and 6. *)
Definition heap_env : gmap loc block :=
  {[ 1%positive := BStr "A=1"; 2%positive := BStr "LD_PRELOAD=x";
     3%positive := BArr [Ptr (Some 1%positive); Ptr (Some 2%positive);
                         Ptr None];
     5%positive := BStr "/out"; 6%positive := BStr "lib.so" ]}.

(** ** Arguments of the entry points *)

(** A vector argument as the genuine function sees it: the null pointer, or
    the strings of the vector. *)
Definition vector_arg (h : gmap loc block) (p : option loc)
    (o : option (list string)) : Prop :=
  match p, o with
  | None, None => True
  | Some a, Some v => ∃ ls, is_vector h a ls v
  | _, _ => False
  end.

(** Variadic arguments: the strings [strs], stored at [ps], then the
    terminating null, then [tail]. *)
Definition varargs_in (h : gmap loc block) (arg : option loc)
    (args : list (option loc)) (ps : list loc) (strs : list string)
    (tail : list (option loc)) : Prop :=
  arg :: args = (Some <$> ps) ++ None :: tail ∧ strings_at h ps strs.

(** What [capture_env_t] stores in slot [it], for the variable [name],
    when the environment holds the entries [entries]. *)
Definition captured_value (entries : list string) (strdup_ok : nat → bool)
    (it : nat) (name : string) : option string :=
  if strdup_ok it then getenv_in entries name else None.

(** The value a call returns, if it returns. *)
Definition returned {A} (o : outcome A) : option A :=
  match o with
  | Ret a _ => Some a
  | _ => None
  end.

(** Genuine functions that tell how many environment strings they are
    given, for concrete runs. *)
Definition count_env (envs : option (list string)) : Z :=
  Z.of_nat (length (default [] envs)).

#[local] Instance probe_libc : Libc := {|
  real_execve := λ _ _ envs, count_env envs;
  real_execvpe := λ _ _ envs, count_env envs;
  real_execvp := λ _ _ envs, count_env envs;
  real_execvP := λ _ _ _ envs, count_env envs;
  real_exect := λ _ _ envs, count_env envs;
  real_posix_spawn := λ _ _ _ envs, count_env envs;
  real_posix_spawnp := λ _ _ _ envs, count_env envs
|}.

(** Library calls that all succeed; the characters [mkstemp] picks go by
    the number of files that exist. *)
Definition sys_plain : sys_results :=
  SysResults
    (λ _ fs, Some (nth (length fs) ["aaaaaa"; "aaaaab"; "aaaaac"] "zzzzzz"))
    true (λ _, true) true.

(** A process before the shim is loaded: [environ] is the vector at
    location 3 of the heap [h]. *)
Definition world_at_start (h : gmap loc block) (env : list (option loc))
  : world :=
  World h false None env (Some 3%positive) mbstowcs_utf8 [] "/tmp" 4242
        sys_plain.

(** An environment without the preload variable,
    [INTERCEPT_BUILD_TARGET_DIR=/out; B=2], at location 3, and the vector
    [A=1] at location 5. *)
Definition heap_no_preload : gmap loc block :=
  {[ 1%positive := BStr "INTERCEPT_BUILD_TARGET_DIR=/out";
     2%positive := BStr "B=2";
     3%positive := BArr [Ptr (Some 1%positive); Ptr (Some 2%positive);
                         Ptr None];
     4%positive := BStr "A=1";
     5%positive := BArr [Ptr (Some 4%positive); Ptr None] ]}.

(** The state of the loop of [string_array_from_varargs]: the heap [hc]
    extends the heap [h] the call started in, and [result], unless null,
    is a block of the copies [done] made so far, of the strings [vd]. *)
Definition collecting (h hc : gmap loc block) (result : option loc)
    (done : list loc) (vd : list string) : Prop :=
  h ⊆ hc ∧ outside h done ∧ NoDup done ∧ strings_at hc done vd
  ∧ (∀ l, Some l ≠ result → l ∉ done → hc !! l = h !! l)
  ∧ match result with
    | None => done = []
    | Some r =>
        h !! r = None
        ∧ hc !! r = Some (BArr ((λ l, Ptr (Some l)) <$> done))
    end.

(** A process whose shim is not armed and has nothing in its first slot:
    [environ] is the vector [A=1; LD_PRELOAD=x] of [heap_env], the second
    slot holds [lib.so]. *)
Definition world_disarmed : world :=
  World heap_env false None [None; Some 6%positive] (Some 3%positive)
        mbstowcs_utf8 [] "/tmp" 4242 sys_plain.

(** An environment with both variables,
    [INTERCEPT_BUILD_TARGET_DIR=/out; LD_PRELOAD=lib.so], at location 3, and
    the vector [cc; -c; a.c] at location 7. *)
Definition heap_both : gmap loc block :=
  {[ 1%positive := BStr "INTERCEPT_BUILD_TARGET_DIR=/out";
     2%positive := BStr "LD_PRELOAD=lib.so";
     3%positive := BArr [Ptr (Some 1%positive); Ptr (Some 2%positive);
                         Ptr None];
     4%positive := BStr "cc"; 5%positive := BStr "-c";
     6%positive := BStr "a.c";
     7%positive := BArr [Ptr (Some 4%positive); Ptr (Some 5%positive);
                         Ptr (Some 6%positive); Ptr None] ]}.

(** ** Strings the report writer encodes in full *)

(** The string [s] decodes, by [mb], to the wide characters [w]: code
    points below 65536, and no more of them than [s] has bytes. *)
Definition decodes (mb : string → option (list wchar_t)) (s : string)
    (w : list wchar_t) : Prop :=
  mb s = Some w ∧ Forall (λ c, (0 ≤ c < 65536)%Z) w
  ∧ length w ≤ String.length s.

(** The text of the escapes of the wide characters [w]. *)
Definition json_text (w : list wchar_t) : string :=
  string_of_list_ascii (escaped_text json_escape w).

(** The head of a report, up to the opening bracket of [cmd]. *)
Definition report_head (pid : Z) : string :=
  "{ " +:+ q +:+ "pid" +:+ q +:+ ": " +:+ fmt_d pid +:+ ", "
       +:+ q +:+ "cmd" +:+ q +:+ ": [".

(** ** The file of a report *)

(** The name [mkstemp] gives the file of a report in the directory
    [out_dir] when it picks the characters [suffix]. *)
Definition report_name (out_dir suffix : string) : string :=
  out_dir +:+ "/execution." +:+ suffix.

(** The file [report_call] leaves: its name and the object, for the
    decoded arguments [ws] and the decoded working directory [wcwd]. *)
Definition report_file (out_dir suffix : string) (pid : Z)
    (ws : list (list wchar_t)) (wcwd : list wchar_t) : string * string :=
  (report_name out_dir suffix,
   report_body pid (json_text <$> ws) (json_text wcwd)).

(** The process with one more file. *)
Definition with_file (f : string * string) (w : world) : world :=
  set_files (files w ++ [f]) w.

(** The state [write_report] is in when [write_json_report] has returned:
    the locale of the report is in use, the string of [getcwd] is
    allocated and the file holds what was written. *)
Definition written (name text : string) (lc : locale_t) (w : world)
  : world :=
  set_files (files w ++ [(name, text)])
    (set_heap (<[fresh (dom (heap w)) := BStr (cwd w)]> (heap w))
       (set_thread_locale lc w)).

(** The library calls up to the writing of the report succeed in [w]:
    [mkstemp] picks the six characters [suffix], which give a new name in
    the directory [out_dir]; [utf_locale] is the locale [lc] and
    [uselocale] accepts it; [getcwd] returns a string. *)
Definition report_opens (w : world) (lc : locale_t)
    (out_dir suffix : string) : Prop :=
  mkstemp_pick (sys w) (out_dir +:+ "/execution.XXXXXX") (files w)
  = Some suffix
  ∧ fresh_name suffix (report_name out_dir suffix) (files w) = true
  ∧ utf_locale w = Some lc
  ∧ locale_valid (sys w) lc = true
  ∧ getcwd_ok (sys w) = true.

(** All the library calls of a report succeed in [w]: moreover
    [uselocale] accepts the locale of the thread when it is put back, and
    [close] returns 0. *)
Definition report_ready (w : world) (lc : locale_t)
    (out_dir suffix : string) : Prop :=
  report_opens w lc out_dir suffix
  ∧ locale_valid (sys w) (thread_locale w) = true
  ∧ close_ok (sys w) = true.

(** The arguments [args] and the working directory [dir] decode in the
    locale [lc] to the wide characters [ws] and [wcwd], and the escapes of
    the working directory are shorter than its buffer of six bytes for
    each of its bytes (as they are for a path that begins with a slash). *)
Definition report_encodes (lc : locale_t) (args : list string) (dir : string)
    (ws : list (list wchar_t)) (wcwd : list wchar_t) : Prop :=
  Forall2 (decodes lc) args ws
  ∧ decodes lc dir wcwd
  ∧ length (escaped_text json_escape wcwd) < 6 * String.length dir.

(** ** An armed process, for concrete runs *)

(** The heap [heap_both] after a load that captured both variables: the
    copies [/out] and [lib.so] are at locations 8 and 9. *)
Definition heap_armed : gmap loc block :=
  <[9%positive := BStr "lib.so"]> (<[8%positive := BStr "/out"]> heap_both).

(** An armed process on that heap; [environ] is the vector at location 3
    and the vector [cc; -c; a.c] is at location 7. *)
Definition world_armed : world :=
  World heap_armed true (Some mbstowcs_utf8)
        [Some 8%positive; Some 9%positive] (Some 3%positive)
        mbstowcs_utf8 [] "/tmp" 4242 sys_plain.

(** The same heap with the vector [cc; 0xFF] at location 11, whose second
    string is no UTF-8 text. *)
Definition heap_bad_arg : gmap loc block :=
  <[11%positive := BArr [Ptr (Some 4%positive); Ptr (Some 10%positive);
                         Ptr None]]>
    (<[10%positive := BStr (str [255%Z])]> heap_armed).

(** The environment of a child: the vector [A=1] after the update with the
    captured values [/out] and [lib.so], at location 3. *)
Definition heap_child : gmap loc block :=
  {[ 1%positive := BStr "A=1";
     2%positive := BStr "INTERCEPT_BUILD_TARGET_DIR=/out";
     4%positive := BStr "LD_PRELOAD=lib.so";
     3%positive := BArr [Ptr (Some 1%positive); Ptr (Some 2%positive);
                         Ptr (Some 4%positive); Ptr None] ]}.

(** Library calls among which [mkstemp] makes no file, as in a directory
    that does not exist. *)
Definition sys_no_file : sys_results :=
  SysResults (λ _ _, None) true (λ _, true) true.

(** The armed process in such a state. *)
Definition world_no_file : world :=
  World heap_armed true (Some mbstowcs_utf8)
        [Some 8%positive; Some 9%positive] (Some 3%positive)
        mbstowcs_utf8 [] "/tmp" 4242 sys_no_file.

(** ** The bytes of a multibyte string *)

(** A lower bound on the bytes a character takes in a multibyte string
    whose one-byte characters are code points below 65536: one for such a
    code point, two for any other character. *)
Definition min_bytes (c : wchar_t) : nat :=
  if ((0 <=? c) && (c <? 65536))%Z then 1 else 2.

Fixpoint room (w : list wchar_t) : nat :=
  match w with
  | [] => 0
  | c :: w' => min_bytes c + room w'
  end.

(* ===================================================================== *)
(** * Part II: properties                                                 *)
(* ===================================================================== *)

(** ** Strings *)

Lemma append_assoc (s1 s2 s3 : string) :
  (s1 +:+ s2) +:+ s3 = s1 +:+ (s2 +:+ s3).
Proof.
  induction s1 as [|a s1 IH]; [reflexivity|].
  change ((String a s1 +:+ s2) +:+ s3) with (String a ((s1 +:+ s2) +:+ s3)).
  change (String a s1 +:+ s2 +:+ s3) with (String a (s1 +:+ s2 +:+ s3)).
  by rewrite IH.
Qed.

Lemma append_nil_r (s : string) : s +:+ "" = s.
Proof.
  induction s as [|a s IH]; [reflexivity|].
  change (String a s +:+ "") with (String a (s +:+ "")). by rewrite IH.
Qed.

(** ** The report writer *)

Section ReportWriter.
Context (mbstowcs : string → option (list wchar_t)).

Lemma write_cmd_format first cmd out out' :
  write_cmd mbstowcs first cmd out = Some (0%Z, out') →
  ∃ bufs,
    Forall2 (λ arg buf,
        encode_in_buffer mbstowcs arg (6 * String.length arg + 1)
        = Some (Some buf)) cmd bufs
    ∧ out' = out +:+ cmd_text first bufs.
Proof.
  revert first out. induction cmd as [|arg cmd IH]; intros first out Hw.
  - simpl in Hw. injection Hw as <-. exists []. split; [constructor|].
    by rewrite append_nil_r.
  - simpl in Hw.
    destruct (encode_in_buffer mbstowcs arg _) as [[buf|]|] eqn:He;
      [|discriminate..].
    apply IH in Hw as (bufs & Hall & ->).
    exists (buf :: bufs). split; [by constructor|].
    simpl. by rewrite !append_assoc.
Qed.

Lemma write_cmd_ret first cmd out r out' :
  write_cmd mbstowcs first cmd out = Some (r, out') → r = 0%Z ∨ r = (-1)%Z.
Proof.
  revert first out. induction cmd as [|arg cmd IH]; intros first out Hw.
  - simpl in Hw. left. congruence.
  - simpl in Hw.
    destruct (encode_in_buffer mbstowcs arg _) as [[buf|]|];
      [eauto|right; congruence|discriminate].
Qed.

(** C1 (as amended).  Whenever [write_json_report] returns 0, what it
    appended to the file is exactly one object: the key [pid] with the
    process id in decimal, the key [cmd] with the encoded arguments in the
    order of [argv] (nothing between the brackets for an empty or null
    [argv]), the key [cwd] with the encoded working directory, and nothing
    after the closing brace.  Each encoded text is what the encoder left in
    its buffer: of [6 * strlen + 1] bytes for an argument, of [6 * strlen]
    bytes for the working directory. *)
Theorem write_json_report_format out cmd cwd pid out' :
  write_json_report mbstowcs out cmd cwd pid = Some (0%Z, out') →
  ∃ bufs cwd_buf,
    Forall2 (λ arg buf,
        encode_in_buffer mbstowcs arg (6 * String.length arg + 1)
        = Some (Some buf)) (default [] cmd) bufs
    ∧ encode_in_buffer mbstowcs cwd (6 * String.length cwd)
      = Some (Some cwd_buf)
    ∧ out' = out +:+ report_body pid bufs cwd_buf.
Proof.
  unfold write_json_report. intros Hw.
  destruct (write_cmd _ _ _ _) as [[r out2]|] eqn:Hc; [|discriminate].
  destruct (write_cmd_ret _ _ _ _ _ Hc) as [-> | ->]; [|discriminate].
  apply write_cmd_format in Hc as (bufs & Hall & ->).
  destruct (encode_in_buffer mbstowcs cwd _) as [[buf|]|] eqn:He;
    [|discriminate..].
  injection Hw as <-. exists bufs, buf. split_and!; [done..|].
  unfold report_body. by rewrite !append_assoc.
Qed.
End ReportWriter.

(** The example of the specification, run: the text the code writes has no
    space before the closing bracket of [cmd]. *)
Example write_json_report_example :
  write_json_report mbstowcs_utf8 ""
    (Some ["/bin/echo"; "a" +:+ q +:+ "b"]) "/tmp" 4242
  = Some (0%Z,
      "{ " +:+ q +:+ "pid" +:+ q +:+ ": 4242, " +:+ q +:+ "cmd" +:+ q
      +:+ ": [ " +:+ q +:+ "/bin/echo" +:+ q +:+ ", " +:+ q +:+ "a\" +:+ q
      +:+ "b" +:+ q +:+ "], " +:+ q +:+ "cwd" +:+ q +:+ ": " +:+ q +:+ "/tmp"
      +:+ q +:+ " }").
Proof. vm_compute. reflexivity. Qed.

Lemma write_json_report_format_witness :
  ∃ bufs cwd_buf,
    Forall2 (λ arg buf,
        encode_in_buffer mbstowcs_utf8 arg (6 * String.length arg + 1)
        = Some (Some buf)) ["/bin/echo"; "a" +:+ q +:+ "b"] bufs
    ∧ encode_in_buffer mbstowcs_utf8 "/tmp" (6 * String.length "/tmp")
      = Some (Some cwd_buf)
    ∧ "{ " +:+ q +:+ "pid" +:+ q +:+ ": 4242, " +:+ q +:+ "cmd" +:+ q
      +:+ ": [ " +:+ q +:+ "/bin/echo" +:+ q +:+ ", " +:+ q +:+ "a\" +:+ q
      +:+ "b" +:+ q +:+ "], " +:+ q +:+ "cwd" +:+ q +:+ ": " +:+ q +:+ "/tmp"
      +:+ q +:+ " }"
      = "" +:+ report_body 4242 bufs cwd_buf.
Proof.
  apply (write_json_report_format mbstowcs_utf8 ""
           (Some ["/bin/echo"; "a" +:+ q +:+ "b"]) "/tmp" 4242).
  vm_compute. reflexivity.
Defined.

(** C1, the claim as worded, fails.  On the example of the specification
    the code does not write the body the specification gives (that one has
    a space before the closing bracket of [cmd]); and for an argument that
    does not decode the call returns -1 with only the head of the object in
    the file, so that not every call emits an object. *)
Lemma write_json_report_counterexample :
  write_json_report mbstowcs_utf8 ""
    (Some ["/bin/echo"; "a" +:+ q +:+ "b"]) "/tmp" 4242
  ≠ Some (0%Z,
      "{ " +:+ q +:+ "pid" +:+ q +:+ ": 4242, " +:+ q +:+ "cmd" +:+ q
      +:+ ": [ " +:+ q +:+ "/bin/echo" +:+ q +:+ ", " +:+ q +:+ "a\" +:+ q
      +:+ "b" +:+ q +:+ " ], " +:+ q +:+ "cwd" +:+ q +:+ ": " +:+ q +:+ "/tmp"
      +:+ q +:+ " }")
  ∧ write_json_report mbstowcs_utf8 "" (Some [str [255%Z]]) "/tmp" 4242
    = Some ((-1)%Z,
        "{ " +:+ q +:+ "pid" +:+ q +:+ ": 4242, " +:+ q +:+ "cmd" +:+ q
        +:+ ": [").
Proof. split; [vm_compute; discriminate | vm_compute; reflexivity]. Qed.

(** ** The encoder *)

Lemma in_count_from n z c :
  (z ≤ c < z + Z.of_nat n)%Z → In c (count_from n z).
Proof.
  revert z. induction n as [|n IH]; intros z Hc; [lia|]. simpl.
  destruct (decide (c = z)) as [->|Hne]; [by left|].
  right. apply IH. lia.
Qed.

Lemma bmp_all_spec (P : Z → bool) (c : Z) :
  bmp_all P = true → (0 ≤ c < 65536)%Z → P c = true.
Proof.
  unfold bmp_all. rewrite forallb_forall. intros Hall Hc.
  apply Hall, in_count_from. lia.
Qed.

Lemma fmt_04x_hex4 (c : Z) :
  (0 ≤ c < 65536)%Z → fmt_04x (to_unsigned_int c) = hex4 c.
Proof.
  intros Hc.
  apply (bmp_all_spec
           (λ c, bool_decide (fmt_04x (to_unsigned_int c) = hex4 c))) in Hc.
  - by apply bool_decide_eq_true in Hc.
  - vm_compute. reflexivity.
Qed.

Lemma json_escape_no_NUL (c : Z) :
  (0 ≤ c < 65536)%Z → Forall (λ a, a ≠ NUL) (json_escape c).
Proof.
  intros Hc.
  apply (bmp_all_spec
           (λ c, bool_decide (Forall (λ a, a ≠ NUL) (json_escape c)))) in Hc.
  - by apply bool_decide_eq_true in Hc.
  - vm_compute. reflexivity.
Qed.

Lemma store_chars_lookup_lt dst at_ s i :
  i < at_ → store_chars dst at_ s !! i = dst !! i.
Proof.
  revert dst at_. induction s as [|c s IH]; intros dst at_ Hi; [done|].
  simpl. rewrite IH by lia. apply lookup_insert_ne. lia.
Qed.

Lemma store_chars_lookup_ge dst at_ s i :
  at_ + length s ≤ i → store_chars dst at_ s !! i = dst !! i.
Proof.
  revert dst at_. induction s as [|c s IH]; intros dst at_ Hi; [done|].
  simpl in *. rewrite IH by lia. apply lookup_insert_ne. lia.
Qed.

Lemma store_chars_lookup_in dst at_ s k a :
  s !! k = Some a → store_chars dst at_ s !! (at_ + k) = Some a.
Proof.
  revert dst at_ k. induction s as [|c s IH]; intros dst at_ k Hk; [done|].
  destruct k as [|k]; simpl in *.
  - injection Hk as ->. rewrite store_chars_lookup_lt by lia.
    rewrite Nat.add_0_r. apply lookup_insert_eq.
  - rewrite <- Nat.add_succ_comm. by apply IH.
Qed.

Lemma snprintf_fits dst it size e :
  length e < size →
  ∃ dst', snprintf dst it size e = (length e, dst') ∧ stored dst dst' it e
          ∧ dst' !! (it + length e) = Some NUL.
Proof.
  intros Hfit. destruct size as [|room]; [lia|]. simpl.
  rewrite take_ge by lia. eexists. split; [done|]. split; [split_and!|].
  - intros i Hi. rewrite lookup_insert_ne by lia.
    by apply store_chars_lookup_lt.
  - intros k a Hk. pose proof (lookup_lt_Some _ _ _ Hk).
    rewrite lookup_insert_ne by lia. by apply store_chars_lookup_in.
  - intros i Hi. rewrite lookup_insert_ne by lia.
    apply store_chars_lookup_ge. lia.
  - apply lookup_insert_eq.
Qed.

Lemma encode_wchar_bmp c dst it :
  (0 ≤ c < 65536)%Z →
  ∃ dst', encode_wchar c dst it = (length (json_escape c), dst')
          ∧ stored dst dst' it (json_escape c).
Proof.
  intros Hc. unfold encode_wchar, json_escape, escape_with.
  repeat match goal with
    | |- context [(c =? ?n)%Z] => destruct (Z.eqb_spec c n) as [?|?]
    end;
    try (edestruct snprintf_fits as (dst' & -> & Hst & _);
         [|by eexists]; simpl; lia).
  destruct ((c <? 32) || (127 <? c))%Z.
  - rewrite fmt_04x_hex4 by done.
    edestruct snprintf_fits as (dst' & -> & Hst & _); [|by eexists].
    simpl. lia.
  - eexists. split; [done|]. split_and!.
    + intros i Hi. apply lookup_insert_ne. lia.
    + intros [|k] a Hk; simpl in Hk; [|done]. injection Hk as ->.
      rewrite Nat.add_0_r. apply lookup_insert_eq.
    + intros i Hi. apply lookup_insert_ne. simpl in Hi. lia.
Qed.

Lemma holds_stored dst dst' t e :
  holds dst t → stored dst dst' (length t) e → holds dst' (t ++ e).
Proof.
  intros Ht (Hlt & Hin & _) k a Hk.
  apply lookup_app_Some in Hk as [Hk | [Hlen Hk]].
  - rewrite Hlt by eauto using lookup_lt_Some. by apply Ht.
  - replace k with (length t + (k - length t)) by lia. by apply Hin.
Qed.

Lemma encode_loop_bmp wsrc dst t dst_size :
  Forall (λ c, (0 ≤ c < 65536)%Z) wsrc →
  holds dst t →
  length t + length (escaped_text json_escape wsrc) < dst_size →
  ∃ dst', encode_loop wsrc dst (length t) dst_size = Encoding 0 dst'
          ∧ holds dst' (t ++ escaped_text json_escape wsrc ++ [NUL])
          ∧ ∀ i, length t + length (escaped_text json_escape wsrc) < i →
                 dst' !! i = dst !! i.
Proof.
  intros Hall. revert dst t.
  induction Hall as [|c wsrc Hc Hall IH]; intros dst t Ht Hlen; simpl in *.
  - rewrite decide_True by lia. eexists. split_and!; [done| |].
    + intros k a Hk. apply lookup_app_Some in Hk as [Hk | [Hge Hk]].
      * rewrite lookup_insert_ne by (apply lookup_lt_Some in Hk; lia).
        by apply Ht.
      * destruct (k - length t) as [|?] eqn:Hd; simpl in Hk; [|done].
        injection Hk as <-. replace k with (length t) by lia.
        apply lookup_insert_eq.
    + intros i Hi. apply lookup_insert_ne. lia.
  - rewrite length_app in Hlen. rewrite decide_False by lia.
    destruct (encode_wchar_bmp c dst (length t) Hc) as (dst1 & -> & Hst).
    rewrite <- length_app.
    destruct (IH dst1 (t ++ json_escape c)) as (dst' & -> & Hh & Hout).
    + by eapply holds_stored.
    + rewrite length_app. lia.
    + eexists. split_and!; [done| |].
      * by rewrite <- !app_assoc in Hh |- *.
      * intros i Hi. rewrite !length_app in *.
        rewrite Hout by lia. apply Hst. lia.
Qed.

Lemma read_string_holds fuel dst i t :
  (∀ k a, (t ++ [NUL]) !! k = Some a → dst !! (i + k) = Some a) →
  Forall (λ a, a ≠ NUL) t →
  length t < fuel →
  read_string fuel dst i = Some (string_of_list_ascii t).
Proof.
  revert fuel i. induction t as [|a t IH]; intros fuel i Hh Hnz Hlen;
    (destruct fuel as [|fuel]; [simpl in Hlen; lia|]); simpl.
  - rewrite <- (Nat.add_0_r i), (Hh 0 NUL) by done. by rewrite decide_True.
  - rewrite <- (Nat.add_0_r i), (Hh 0 a) by done.
    apply Forall_cons in Hnz as [Ha Hnz].
    rewrite decide_False by done. rewrite Nat.add_0_r.
    rewrite (IH fuel (S i)); [done| |done|simpl in Hlen; lia].
    intros k b Hk. rewrite Nat.add_succ_comm. by apply Hh.
Qed.

Lemma escaped_text_no_NUL wsrc :
  Forall (λ c, (0 ≤ c < 65536)%Z) wsrc →
  Forall (λ a, a ≠ NUL) (escaped_text json_escape wsrc).
Proof.
  induction 1 as [|c wsrc Hc _ IH]; simpl; [constructor|].
  apply Forall_app. split; [by apply json_escape_no_NUL | done].
Qed.

Section EncoderProperties.
Context (mbstowcs : string → option (list wchar_t)).

(** C2 (as amended).  For a string whose decoded characters are code
    points below 65536 and a buffer with room for the result, the encoder
    succeeds and the buffer reads as the concatenation of the escapes of
    the characters, in order: backspace, form feed, newline, carriage
    return, tab, double quote and backslash as their two-character
    escapes; a character below 0x20 or above 0x7F as a backslash, [u] and
    its four hexadecimal digits; any other character, 0x7F included, as
    itself. *)
Theorem encode_json_string_escapes src wsrc dst_size :
  mbstowcs src = Some wsrc →
  Forall (λ c, (0 ≤ c < 65536)%Z) wsrc →
  length (escaped_text json_escape wsrc) < dst_size →
  enc_ret (encode_json_string mbstowcs src dst_size) = 0%Z
  ∧ encode_in_buffer mbstowcs src dst_size
    = Some (Some (string_of_list_ascii (escaped_text json_escape wsrc))).
Proof.
  intros Hmb Hall Hlen. unfold encode_in_buffer, encode_json_string.
  rewrite Hmb.
  destruct (encode_loop_bmp wsrc ∅ [] dst_size Hall)
    as (dst' & He & Hh & _); [done|done|].
  simpl in He, Hh. rewrite He. simpl. split; [done|].
  rewrite (read_string_holds dst_size dst' 0
             (escaped_text json_escape wsrc)); [done|..].
  - intros k a Hk. by apply Hh.
  - by apply escaped_text_no_NUL.
  - done.
Qed.
End EncoderProperties.

Lemma encode_json_string_escapes_witness :
  enc_ret (encode_json_string mbstowcs_utf8 (str [127; 1; 10; 195; 169]%Z) 31)
  = 0%Z
  ∧ encode_in_buffer mbstowcs_utf8 (str [127; 1; 10; 195; 169]%Z) 31
    = Some (Some (string_of_list_ascii
                    (escaped_text json_escape [127; 1; 10; 233]%Z))).
Proof.
  apply (encode_json_string_escapes mbstowcs_utf8
           (str [127; 1; 10; 195; 169]%Z) [127; 1; 10; 233]%Z 31).
  - vm_compute. reflexivity.
  - repeat constructor; lia.
  - vm_compute. lia.
Defined.

(** C2, the claim as worded, fails at the character 0x7F: it lies outside
    0x20 .. 0x7E, so that the specification's mapping gives the numeric
    escape, and the encoder stores the character itself. *)
Lemma encode_json_string_escapes_counterexample :
  mbstowcs_utf8 (str [127%Z]) = Some [127%Z]
  ∧ encode_in_buffer mbstowcs_utf8 (str [127%Z]) 7 = Some (Some (str [127%Z]))
  ∧ string_of_list_ascii (escaped_text spec_escape [127%Z]) = "\u007f"
  ∧ str [127%Z] ≠ "\u007f".
Proof. vm_compute. split_and!; [reflexivity..|discriminate]. Qed.

(** *** Staying inside the buffer *)

Lemma json_escape_length (c : Z) : length (json_escape c) ≤ 6.
Proof.
  unfold json_escape, escape_with.
  repeat match goal with
    | |- context [if ?b then _ else _] => destruct b
    end; simpl; lia.
Qed.

Lemma escaped_text_length wsrc :
  length (escaped_text json_escape wsrc) ≤ 6 * length wsrc.
Proof.
  induction wsrc as [|c wsrc IH]; simpl; [lia|].
  rewrite length_app. pose proof (json_escape_length c). lia.
Qed.

(** With the size [write_json_report] gives the buffer of an argument, six
    bytes for each byte of the string and one more, the encoder stores
    nothing at or beyond [dst_size], as long as the string decodes to no
    more characters than it has bytes, all below 65536. *)
Lemma encode_json_string_in_bounds mbstowcs src wsrc dst_size :
  mbstowcs src = Some wsrc →
  Forall (λ c, (0 ≤ c < 65536)%Z) wsrc →
  6 * length wsrc + 1 ≤ dst_size →
  ∀ i, dst_size ≤ i →
       enc_dst (encode_json_string mbstowcs src dst_size) !! i = None.
Proof.
  intros Hmb Hall Hsize i Hi. unfold encode_json_string. rewrite Hmb.
  pose proof (escaped_text_length wsrc) as Hlen.
  destruct (encode_loop_bmp wsrc ∅ [] dst_size Hall)
    as (dst' & He & _ & Hout);
    [done|change (length (@nil ascii)) with 0; unfold wchar_t in *; lia|].
  change (length (@nil ascii)) with 0 in He, Hout.
  rewrite He. simpl. rewrite Hout by (unfold wchar_t in *; lia). done.
Qed.

Lemma encode_loop_bmp_short wsrc dst it dst_size :
  Forall (λ c, (0 ≤ c < 65536)%Z) wsrc →
  dst_size ≤ it + length (escaped_text json_escape wsrc) →
  enc_ret (encode_loop wsrc dst it dst_size) = (-1)%Z.
Proof.
  intros Hall. revert dst it.
  induction Hall as [|c wsrc Hc Hall IH]; intros dst it Hlen; simpl in *.
  - by rewrite decide_False by lia.
  - destruct (decide (dst_size ≤ it)) as [|Hroom]; [done|].
    destruct (encode_wchar_bmp c dst it Hc) as (dst1 & -> & _).
    apply IH. rewrite length_app in Hlen. lia.
Qed.

Lemma encode_in_buffer_bmp mbstowcs src wsrc dst_size :
  mbstowcs src = Some wsrc →
  Forall (λ c, (0 ≤ c < 65536)%Z) wsrc →
  length (escaped_text json_escape wsrc) < dst_size →
  encode_json_string mbstowcs src dst_size
  = Encoding 0 (enc_dst (encode_json_string mbstowcs src dst_size))
  ∧ encode_in_buffer mbstowcs src dst_size = Some (Some (json_text wsrc)).
Proof.
  intros Hmb Hall Hlen. unfold encode_in_buffer, encode_json_string.
  rewrite Hmb.
  destruct (encode_loop_bmp wsrc ∅ [] dst_size Hall)
    as (dst' & He & Hh & _); [done|done|].
  simpl in He, Hh. rewrite He. simpl. split; [done|].
  unfold json_text.
  rewrite (read_string_holds dst_size dst' 0
             (escaped_text json_escape wsrc)); [done|..].
  - intros k a Hk. by apply Hh.
  - by apply escaped_text_no_NUL.
  - done.
Qed.

(** Settles [decodes] on concrete strings. *)
Ltac solve_decodes :=
  split_and!;
  [vm_compute; reflexivity | repeat (constructor; [lia|]); constructor
  | vm_compute; lia].

Lemma decodes_fits mb s w :
  decodes mb s w →
  length (escaped_text json_escape w) < 6 * String.length s + 1.
Proof.
  intros (_ & _ & Hlen). pose proof (escaped_text_length w).
  unfold wchar_t in *. lia.
Qed.

(** A path that begins with a slash has room in a buffer of six bytes for
    each of its bytes. *)
Lemma absolute_path_fits mb s w :
  decodes mb s (47%Z :: w) →
  length (escaped_text json_escape (47%Z :: w)) < 6 * String.length s.
Proof.
  intros (_ & _ & Hlen). pose proof (escaped_text_length w).
  change (escaped_text json_escape (47%Z :: w))
    with ("/"%char :: escaped_text json_escape w).
  simpl in *. unfold wchar_t in *. lia.
Qed.

Lemma write_cmd_succeeds mb first cmd ws out :
  Forall2 (decodes mb) cmd ws →
  write_cmd mb first cmd out
  = Some (0%Z, out +:+ cmd_text first (json_text <$> ws)).
Proof.
  intros Hall. revert first out.
  induction Hall as [|arg w cmd ws Hd Hall IH]; intros first out.
  - simpl. by rewrite append_nil_r.
  - cbn [write_cmd].
    rewrite (proj2 (encode_in_buffer_bmp mb arg w _ (proj1 Hd)
                      (proj1 (proj2 Hd)) (decodes_fits mb arg w Hd))).
    rewrite IH. rewrite fmap_cons. cbn [cmd_text].
    by rewrite !append_assoc.
Qed.

Lemma write_cmd_fails mb first pre ws bad post out :
  Forall2 (decodes mb) pre ws → mb bad = None →
  write_cmd mb first (pre ++ bad :: post) out
  = Some ((-1)%Z, out +:+ cmd_text first (json_text <$> ws)).
Proof.
  intros Hall Hbad. revert first out.
  induction Hall as [|arg w cmd ws Hd Hall IH]; intros first out.
  - cbn [app write_cmd]. unfold encode_in_buffer, encode_json_string.
    rewrite Hbad. simpl. by rewrite append_nil_r.
  - rewrite <- app_comm_cons. cbn [write_cmd].
    rewrite (proj2 (encode_in_buffer_bmp mb arg w _ (proj1 Hd)
                      (proj1 (proj2 Hd)) (decodes_fits mb arg w Hd))).
    rewrite IH. rewrite fmap_cons. cbn [cmd_text].
    by rewrite !append_assoc.
Qed.

Lemma write_json_report_ok mb out cmd cwd pid ws wcwd :
  Forall2 (decodes mb) (default [] cmd) ws →
  decodes mb cwd wcwd →
  length (escaped_text json_escape wcwd) < 6 * String.length cwd →
  write_json_report mb out cmd cwd pid
  = Some (0%Z, out +:+ report_body pid (json_text <$> ws) (json_text wcwd)).
Proof.
  intros Hcmd Hcwd Hfit. unfold write_json_report.
  rewrite (write_cmd_succeeds mb true _ ws _ Hcmd).
  rewrite (proj2 (encode_in_buffer_bmp mb cwd wcwd _ (proj1 Hcwd)
                    (proj1 (proj2 Hcwd)) Hfit)).
  unfold report_body. by rewrite !append_assoc.
Qed.

Lemma write_json_report_bad_argument mb out pre ws bad post cwd pid :
  Forall2 (decodes mb) pre ws → mb bad = None →
  write_json_report mb out (Some (pre ++ bad :: post)) cwd pid
  = Some ((-1)%Z,
          out +:+ report_head pid +:+ cmd_text true (json_text <$> ws)).
Proof.
  intros Hpre Hbad. unfold write_json_report. cbn [default].
  rewrite (write_cmd_fails mb true pre ws bad post _ Hpre Hbad).
  unfold report_head. by rewrite !append_assoc.
Qed.

(** C9 (as amended).  For a string whose decoded characters are code
    points below 65536: when [dst_size] exceeds the length of the escapes
    the encoder returns 0, the buffer reads as the whole escaped text and no
    byte is stored at or beyond [dst_size]; otherwise it returns -1.  When
    the decoding fails it returns -1 and stores nothing.  The sizes
    [write_json_report] passes, [6 * strlen + 1] for an argument and
    [6 * strlen] for the working directory, exceed the length of the
    escapes whenever the string has no more characters than bytes and, for
    the working directory, begins with a slash, as a path [getcwd] returns
    does.  On an error the caller returns -1 without printing the buffer;
    the head of the object and the entries written before the failing
    string are in the file by then. *)
Theorem encode_json_string_bounds mbstowcs src dst_size :
  (mbstowcs src = None →
   encode_json_string mbstowcs src dst_size = Encoding (-1) ∅
   ∧ ∀ out pre ws post cwd pid,
       Forall2 (decodes mbstowcs) pre ws →
       write_json_report mbstowcs out (Some (pre ++ src :: post)) cwd pid
       = Some ((-1)%Z,
               out +:+ report_head pid
                   +:+ cmd_text true (json_text <$> ws)))
  ∧ (∀ wsrc,
       mbstowcs src = Some wsrc →
       Forall (λ c, (0 ≤ c < 65536)%Z) wsrc →
       (length (escaped_text json_escape wsrc) < dst_size →
        enc_ret (encode_json_string mbstowcs src dst_size) = 0%Z
        ∧ encode_in_buffer mbstowcs src dst_size
          = Some (Some (json_text wsrc))
        ∧ ∀ i, dst_size ≤ i →
               enc_dst (encode_json_string mbstowcs src dst_size) !! i
               = None)
       ∧ (dst_size ≤ length (escaped_text json_escape wsrc) →
          enc_ret (encode_json_string mbstowcs src dst_size) = (-1)%Z
          ∧ encode_in_buffer mbstowcs src dst_size = Some None)
       ∧ (length wsrc ≤ String.length src →
          length (escaped_text json_escape wsrc) < 6 * String.length src + 1
          ∧ ∀ w', wsrc = 47%Z :: w' →
                  length (escaped_text json_escape wsrc)
                  < 6 * String.length src)).
Proof.
  split.
  - intros Hmb. split.
    + unfold encode_json_string. by rewrite Hmb.
    + intros out pre ws post cwd pid Hpre.
      by apply write_json_report_bad_argument.
  - intros wsrc Hmb Hall. split_and!.
    + intros Hfit.
      destruct (encode_in_buffer_bmp mbstowcs src wsrc dst_size Hmb Hall Hfit)
        as [Henc Hbuf].
      split_and!; [by rewrite Henc|done|].
      intros i Hi. unfold encode_json_string. rewrite Hmb.
      destruct (encode_loop_bmp wsrc ∅ [] dst_size Hall)
        as (dst' & He & _ & Hout); [done|done|].
      change (length (@nil ascii)) with 0 in He, Hout.
      rewrite He. simpl. rewrite Hout; [done|lia].
    + intros Hshort. unfold encode_in_buffer, encode_json_string.
      rewrite Hmb.
      rewrite encode_loop_bmp_short by (done || (simpl; lia)). done.
    + intros Hlen.
      assert (decodes mbstowcs src wsrc) as Hd by done.
      split; [by apply (decodes_fits mbstowcs)|].
      intros w' ->. by apply (absolute_path_fits mbstowcs).
Qed.

Lemma encode_json_string_bounds_witness :
  (encode_json_string mbstowcs_utf8 (str [255%Z]) 7 = Encoding (-1) ∅
   ∧ write_json_report mbstowcs_utf8 "" (Some (["cc"] ++ [str [255%Z]; "-c"]))
       "/tmp" 4242
     = Some ((-1)%Z,
             "" +:+ report_head 4242
                +:+ cmd_text true (json_text <$> [[99; 99]%Z])))
  ∧ (enc_ret (encode_json_string mbstowcs_utf8 (str [47; 1; 195; 169]%Z) 24)
     = 0%Z
     ∧ encode_in_buffer mbstowcs_utf8 (str [47; 1; 195; 169]%Z) 24
       = Some (Some (json_text [47; 1; 233]%Z))
     ∧ ∀ i, 24 ≤ i →
            enc_dst (encode_json_string mbstowcs_utf8
                       (str [47; 1; 195; 169]%Z) 24) !! i = None)
  ∧ (enc_ret (encode_json_string mbstowcs_utf8 (str [47; 1; 195; 169]%Z) 13)
     = (-1)%Z
     ∧ encode_in_buffer mbstowcs_utf8 (str [47; 1; 195; 169]%Z) 13
       = Some None)
  ∧ length (escaped_text json_escape [47; 1; 233]%Z)
    < 6 * String.length (str [47; 1; 195; 169]%Z).
Proof.
  assert (mbstowcs_utf8 (str [47; 1; 195; 169]%Z) = Some [47; 1; 233]%Z)
    as Hmb by (vm_compute; reflexivity).
  assert (Forall (λ c, (0 ≤ c < 65536)%Z) [47; 1; 233]%Z) as Hall
    by (repeat constructor; lia).
  assert (mbstowcs_utf8 (str [255%Z]) = None) as Hbad
    by (vm_compute; reflexivity).
  split; [|split; [|split]].
  - destruct (proj1 (encode_json_string_bounds mbstowcs_utf8 (str [255%Z]) 7)
                Hbad) as [Henc Hrep].
    split; [exact Henc|].
    apply (Hrep "" ["cc"] [[99; 99]%Z] ["-c"] "/tmp" 4242%Z).
    repeat (constructor; [solve_decodes|]). constructor.
  - apply (proj2 (encode_json_string_bounds mbstowcs_utf8
                    (str [47; 1; 195; 169]%Z) 24) _ Hmb Hall).
    vm_compute. lia.
  - apply (proj2 (encode_json_string_bounds mbstowcs_utf8
                    (str [47; 1; 195; 169]%Z) 13) _ Hmb Hall).
    vm_compute. lia.
  - destruct (proj2 (encode_json_string_bounds mbstowcs_utf8
                       (str [47; 1; 195; 169]%Z) 0) _ Hmb Hall)
      as (_ & _ & Hsize).
    destruct Hsize as [_ Hcwd]; [vm_compute; lia|].
    exact (Hcwd _ eq_refl).
Defined.

(** C9, the claim as worded, fails in its last part: for an argument that
    is no text of the locale (here the byte 0xFF after the argument [cc]) the
    call returns -1 when the head of the object and the entry of [cc] are
    already in the report file. *)
Lemma encode_json_string_counterexample :
  mbstowcs_utf8 (str [255%Z]) = None
  ∧ enc_ret (encode_json_string mbstowcs_utf8 (str [255%Z]) 7) = (-1)%Z
  ∧ write_json_report mbstowcs_utf8 "" (Some ["cc"; str [255%Z]]) "/tmp" 4242
    = Some ((-1)%Z,
        "{ " +:+ q +:+ "pid" +:+ q +:+ ": 4242, " +:+ q +:+ "cmd" +:+ q
        +:+ ": [ " +:+ q +:+ "cc" +:+ q).
Proof. split_and!; vm_compute; reflexivity. Qed.

(** The bound on the stores rests on the size the caller passes, not on a
    test of every store: the loop tests [dst_it >= dst_end] before a
    character and then stores its whole escape.  Called on the one-byte
    string 0x01 with a buffer of one byte, shorter than any buffer
    [write_json_report] passes for it, the encoder stores the seven bytes of
    the escape and returns -1. *)
Example encode_json_string_short_buffer :
  enc_ret (encode_json_string mbstowcs_utf8 (str [1%Z]) 1) = (-1)%Z
  ∧ map_to_list (enc_dst (encode_json_string mbstowcs_utf8 (str [1%Z]) 1))
    ≡ₚ [(0, backslash); (1, "u"%char); (2, "0"%char); (3, "0"%char);
        (4, "0"%char); (5, "1"%char); (6, NUL)].
Proof.
  split; [vm_compute; reflexivity|].
  vm_compute. apply (bool_decide_unpack _). vm_compute. exact I.
Qed.

(** *** Decoding the escapes *)

Lemma hex_value_hex_digit (d : Z) :
  (0 ≤ d < 16)%Z → hex_value (hex_digit d) = Some d.
Proof.
  intros Hd.
  assert (d ∈ [0; 1; 2; 3; 4; 5; 6; 7; 8; 9; 10; 11; 12; 13; 14; 15]%Z)
    as Hin.
  { rewrite !elem_of_cons. lia. }
  rewrite !elem_of_cons in Hin.
  destruct_or!; [subst; reflexivity..|by apply elem_of_nil in Hin].
Qed.

Lemma hex4_value (c : Z) :
  (0 ≤ c < 65536)%Z →
  (c / 4096 mod 16 * 4096 + c / 256 mod 16 * 256 + c / 16 mod 16 * 16
   + c mod 16 = c)%Z.
Proof. intros Hc. Z.to_euclidean_division_equations. lia. Qed.

Lemma wchar_of_char_of_wchar (c : Z) :
  (0 ≤ c < 256)%Z → wchar_of_char (char_of_wchar c) = c.
Proof.
  intros Hc. unfold wchar_of_char, char_of_wchar.
  rewrite N_ascii_embedding by lia. lia.
Qed.

Lemma json_unescape_escape (c : Z) (rest : list ascii) :
  (0 ≤ c < 65536)%Z →
  json_unescape (json_escape c ++ rest) = (c ::.) <$> json_unescape rest.
Proof.
  intros Hc. unfold json_escape, escape_with.
  repeat match goal with
    | |- context [(c =? ?n)%Z] =>
        destruct (Z.eqb_spec c n) as [->|?]; [reflexivity|]
    end.
  destruct ((c <? 32) || (127 <? c))%Z eqn:Hr.
  - change (json_unescape ((backslash :: "u"%char :: hex4 c) ++ rest))
      with (match hex_value (hex_digit (c / 4096 mod 16)),
                  hex_value (hex_digit (c / 256 mod 16)),
                  hex_value (hex_digit (c / 16 mod 16)),
                  hex_value (hex_digit (c mod 16)) with
            | Some d1, Some d2, Some d3, Some d4 =>
                ((d1 * 4096 + d2 * 256 + d3 * 16 + d4)%Z ::.)
                  <$> json_unescape rest
            | _, _, _, _ => None
            end).
    rewrite !hex_value_hex_digit by (apply Z.mod_pos_bound; lia).
    by rewrite hex4_value.
  - apply orb_false_elim in Hr as [H1 H2].
    apply Z.ltb_ge in H1, H2. simpl.
    rewrite decide_False.
    + by rewrite wchar_of_char_of_wchar by lia.
    + intros Heq. apply (f_equal wchar_of_char) in Heq.
      rewrite wchar_of_char_of_wchar in Heq by lia.
      vm_compute in Heq. lia.
Qed.

(** The part of the round trip the code keeps: for characters below 65536
    the escapes of [json_escape] decode to the characters they came from. *)
Lemma json_unescape_escaped_text (wsrc : list wchar_t) :
  Forall (λ c, (0 ≤ c < 65536)%Z) wsrc →
  json_unescape (escaped_text json_escape wsrc) = Some wsrc.
Proof.
  induction 1 as [|c wsrc Hc _ IH]; [done|]. simpl.
  rewrite json_unescape_escape by done. by rewrite IH.
Qed.


(** ** The key test *)

Lemma append_cons a s1 s2 : String a s1 +:+ s2 = String a (s1 +:+ s2).
Proof. reflexivity. Qed.

Lemma append_nil_l s : "" +:+ s = s.
Proof. reflexivity. Qed.

Lemma byte_of_inj a b : byte_of a = byte_of b → a = b.
Proof.
  unfold byte_of. intros Heq%(inj Z.of_N).
  by rewrite <- (ascii_N_embedding a), <- (ascii_N_embedding b), Heq.
Qed.

Lemma key_matches_inv entry key :
  key_matches entry key = true → ∃ value, entry = key +:+ "=" +:+ value.
Proof.
  unfold key_matches. rewrite !andb_true_iff, !bool_decide_eq_true.
  revert entry. induction key as [|k key IH]; intros entry [[Hcmp Hlen] Hget].
  - destruct entry as [|c entry]; simpl in *; [done|].
    injection Hget as ->. by exists entry.
  - destruct entry as [|c entry]; simpl in *; [lia|].
    destruct (decide (c = k)) as [->|Hne].
    + destruct (IH entry) as [value ->]; [split_and!; [done|lia|done]|].
      by exists value.
    + exfalso. apply Hne, byte_of_inj. lia.
Qed.

Lemma key_matches_entry key value :
  key_matches (key +:+ "=" +:+ value) key = true.
Proof.
  unfold key_matches. rewrite !andb_true_iff, !bool_decide_eq_true.
  induction key as [|k key [[IH1 IH2] IH3]].
  - rewrite append_nil_l. simpl. split_and!; [done|lia|done].
  - rewrite append_cons. cbn [strncmp String.length String.get].
    rewrite decide_True by done. split_and!; [done|lia|done].
Qed.

Lemma entry_key_unique key value key' value' :
  no_equals key = true → no_equals key' = true →
  key +:+ "=" +:+ value = key' +:+ "=" +:+ value' → key = key'.
Proof.
  revert key'. induction key as [|k key IH]; intros [|k' key'] Hk Hk' Heq;
    simpl in *; try done.
  - rewrite append_cons, append_nil_l in Heq. injection Heq as <- _.
    apply andb_true_iff in Hk' as [Hk' _]. by apply bool_decide_eq_true in Hk'.
  - rewrite append_cons, append_nil_l in Heq. injection Heq as -> _.
    apply andb_true_iff in Hk as [Hk _]. by apply bool_decide_eq_true in Hk.
  - rewrite !append_cons in Heq. injection Heq as -> Heq.
    apply andb_true_iff in Hk as [_ Hk]. apply andb_true_iff in Hk' as [_ Hk'].
    f_equal. by apply IH.
Qed.

Lemma key_matches_other key key' value :
  no_equals key = true → no_equals key' = true → key ≠ key' →
  key_matches (key +:+ "=" +:+ value) key' = false.
Proof.
  intros Hk Hk' Hne. apply not_true_is_false. intros Hm.
  apply key_matches_inv in Hm as [value' Heq].
  by apply Hne, (entry_key_unique key value key' value').
Qed.

(** ** Updates of a list of entries *)

Lemma env_update_fixed v key value :
  env_update (env_update v key value) key value = env_update v key value.
Proof.
  induction v as [|e v IH]; simpl.
  - by rewrite key_matches_entry.
  - destruct (key_matches e key) eqn:He; simpl.
    + by rewrite key_matches_entry.
    + by rewrite He, IH.
Qed.

Lemma env_update_keeps_fixed v key value key' value' :
  no_equals key = true → no_equals key' = true → key ≠ key' →
  env_update v key value = v →
  env_update (env_update v key' value') key value = env_update v key' value'.
Proof.
  intros Hk Hk' Hne. induction v as [|e v IH]; simpl; [done|].
  destruct (key_matches e key) eqn:He.
  - intros [= <- ]. rewrite key_matches_other by done. simpl.
    by rewrite key_matches_entry.
  - intros [= Hfix]. destruct (key_matches e key') eqn:He'; simpl.
    + rewrite key_matches_other by done. by rewrite Hfix.
    + by rewrite He, IH.
Qed.

Lemma env_partial_update_pairs names vals v :
  env_partial_update names vals v = apply_pairs (applied_pairs names vals) v.
Proof.
  revert vals v. induction names as [|name names IH]; intros vals v; [done|].
  destruct vals as [|[value|] vals]; simpl; [done| |done]. apply IH.
Qed.

Lemma apply_pairs_fixed ps v :
  Forall (λ p, env_update v p.1 p.2 = v) ps → apply_pairs ps v = v.
Proof.
  induction 1 as [|p ps Hp _ IH]; [done|]. unfold apply_pairs in *. simpl.
  by rewrite Hp.
Qed.

Lemma apply_pairs_keeps_fixed ps v key value :
  no_equals key = true →
  Forall (λ p, no_equals p.1 = true ∧ p.1 ≠ key) ps →
  env_update v key value = v →
  env_update (apply_pairs ps v) key value = apply_pairs ps v.
Proof.
  intros Hk Hps. revert v.
  induction Hps as [|p ps [Hp Hne] _ IH]; intros v Hfix; [done|].
  unfold apply_pairs in *. simpl. apply IH.
  by apply env_update_keeps_fixed.
Qed.

Lemma apply_pairs_all_fixed ps v :
  Forall (λ p, no_equals p.1 = true) ps → NoDup (ps.*1) →
  Forall (λ p, env_update (apply_pairs ps v) p.1 p.2 = apply_pairs ps v) ps.
Proof.
  intros Hps. revert v.
  induction Hps as [|p ps Hp Hps IH]; intros v Hnd; [constructor|].
  rewrite fmap_cons in Hnd. apply NoDup_cons in Hnd as [Hnotin Hnd].
  constructor.
  - change (apply_pairs (p :: ps) v)
      with (apply_pairs ps (env_update v p.1 p.2)).
    apply apply_pairs_keeps_fixed; [done| |apply env_update_fixed].
    apply Forall_forall. intros p' Hin. split.
    + by apply (proj1 (Forall_forall _ _) Hps).
    + intros Heq. apply Hnotin. rewrite <- Heq.
      by apply list_elem_of_fmap_2.
  - apply (IH (env_update v p.1 p.2) Hnd).
Qed.

Lemma apply_pairs_idempotent ps v :
  Forall (λ p, no_equals p.1 = true) ps → NoDup (ps.*1) →
  apply_pairs ps (apply_pairs ps v) = apply_pairs ps v.
Proof.
  intros Hps Hnd. by apply apply_pairs_fixed, apply_pairs_all_fixed.
Qed.

Lemma applied_pairs_names apple vals :
  Forall (λ p, no_equals p.1 = true) (applied_pairs (env_names apple) vals)
  ∧ NoDup ((applied_pairs (env_names apple) vals).*1).
Proof.
  destruct apple; simpl;
    repeat (match goal with
            | |- context [match ?x with _ => _ end] => destruct x
            end; simpl);
    (split; [by repeat constructor|]);
    by apply (bool_decide_unpack _).
Qed.

(** The content-level form of the idempotence: for the names of the unit
    and any captured values, updating an updated vector changes nothing. *)
Lemma env_partial_update_idempotent apple vals v :
  env_partial_update (env_names apple) vals
    (env_partial_update (env_names apple) vals v)
  = env_partial_update (env_names apple) vals v.
Proof.
  rewrite !env_partial_update_pairs.
  destruct (applied_pairs_names apple vals).
  by apply apply_pairs_idempotent.
Qed.

(** ** Memory operations *)

Lemma H_bind_Some {A B} (m : H A) (f : A → H B) h a h' :
  m h = Some (a, h') → (m ≫= f) h = f a h'.
Proof. intros Hm. unfold mbind, H_bind. by rewrite Hm. Qed.

Lemma H_bind_None {A B} (m : H A) (f : A → H B) h :
  m h = None → (m ≫= f) h = None.
Proof. intros Hm. unfold mbind, H_bind. by rewrite Hm. Qed.

Lemma H_bind_assoc {A B C} (m : H A) (f : A → H B) (g : B → H C) h :
  ((m ≫= f) ≫= g) h = (m ≫= (λ x, f x ≫= g)) h.
Proof. unfold mbind, H_bind. by destruct (m h) as [[a h']|]. Qed.

Lemma H_ret_Some {A} (a : A) h : (mret a : H A) h = Some (a, h).
Proof. reflexivity. Qed.

(** Runs the first computation of a bind with the given equation. *)
Ltac hstep Hm := rewrite (H_bind_Some _ _ _ _ _ Hm); cbn beta iota.

Lemma read_str_Some h l s : h !! l = Some (BStr s) → read_str l h = Some (s, h).
Proof.
  intros Hl. unfold read_str, block_at.
  unfold mbind, H_bind. by rewrite Hl.
Qed.

Lemma read_cells_Some h a cells :
  h !! a = Some (BArr cells) → read_cells a h = Some (cells, h).
Proof.
  intros Hl. unfold read_cells, block_at.
  unfold mbind, H_bind. by rewrite Hl.
Qed.

Lemma cells_count_Some h a cells :
  h !! a = Some (BArr cells) → cells_count a h = Some (length cells, h).
Proof.
  intros Hl. unfold cells_count. by hstep (read_cells_Some _ _ _ Hl).
Qed.

Lemma load_Some h a cells i p :
  h !! a = Some (BArr cells) → cells !! i = Some (Ptr p) →
  load a i h = Some (p, h).
Proof.
  intros Hl Hi. unfold load. hstep (read_cells_Some _ _ _ Hl). by rewrite Hi.
Qed.

Lemma store_Some h a cells i p :
  h !! a = Some (BArr cells) → i < length cells →
  store a i p h = Some ((), <[a := BArr (<[i := Ptr p]> cells)]> h).
Proof.
  intros Hl Hi. unfold store. hstep (read_cells_Some _ _ _ Hl).
  by rewrite decide_True.
Qed.

Lemma malloc_Some h b :
  malloc b h = Some (fresh (dom h), <[fresh (dom h) := b]> h).
Proof. reflexivity. Qed.

Lemma fresh_None (h : gmap loc block) : h !! fresh (dom h) = None.
Proof. apply not_elem_of_dom, is_fresh. Qed.

Lemma free_Some h l b :
  h !! l = Some b → free (Some l) h = Some ((), delete l h).
Proof. intros Hl. unfold free. rewrite decide_True; [done|by eexists]. Qed.

Lemma strdup_Some h l s :
  h !! l = Some (BStr s) →
  strdup l h = Some (fresh (dom h), <[fresh (dom h) := BStr s]> h).
Proof. intros Hl. unfold strdup. by hstep (read_str_Some _ _ _ Hl). Qed.

(** ** Walking a vector *)

Lemma drop_cons_inv {A} (l : list A) i x t :
  drop i l = x :: t → l !! i = Some x ∧ drop (S i) l = t.
Proof.
  intros Hd. split.
  - rewrite <- (Nat.add_0_r i), <- lookup_drop, Hd. done.
  - change (S i) with (1 + i). rewrite Nat.add_comm, <- drop_drop, Hd. done.
Qed.

Lemma vec_cells_cons l ls rest :
  vec_cells (l :: ls) rest = Ptr (Some l) :: vec_cells ls rest.
Proof. reflexivity. Qed.

Lemma vec_cells_length ls rest :
  length (vec_cells ls rest) = S (length ls + length rest).
Proof. unfold vec_cells. rewrite length_app, length_fmap. simpl. lia. Qed.

Lemma vec_cells_lookup ls rest i l :
  ls !! i = Some l → vec_cells ls rest !! i = Some (Ptr (Some l)).
Proof.
  intros Hi. unfold vec_cells. rewrite lookup_app_l.
  - by rewrite list_lookup_fmap, Hi.
  - rewrite length_fmap. by eapply lookup_lt_Some.
Qed.

Lemma vec_cells_lookup_end ls rest :
  vec_cells ls rest !! length ls = Some (Ptr None).
Proof.
  unfold vec_cells. rewrite lookup_app_r; rewrite length_fmap; [|done].
  by rewrite Nat.sub_diag.
Qed.

Lemma string_array_length_loop_spec h a cells ls rest fuel it result :
  h !! a = Some (BArr cells) →
  drop it cells = vec_cells ls rest →
  length ls < fuel →
  string_array_length_loop fuel a it result h = Some (result + length ls, h).
Proof.
  intros Ha. revert fuel it result.
  induction ls as [|l ls IH]; intros fuel it result Hd Hf;
    (destruct fuel as [|fuel]; [simpl in Hf; lia|]);
    apply drop_cons_inv in Hd as [Hi Hd]; simpl.
  - hstep (load_Some _ _ _ _ _ Ha Hi). by rewrite Nat.add_0_r.
  - hstep (load_Some _ _ _ _ _ Ha Hi).
    rewrite (IH fuel (S it) (S result)); [|done|simpl in Hf; lia].
    do 2 f_equal. lia.
Qed.

Lemma string_array_length_spec h p v :
  vector_in h p v → string_array_length p h = Some (length v, h).
Proof.
  destruct p as [a|]; simpl.
  - intros (ls & (rest & Ha) & Hs). unfold string_array_length.
    hstep (cells_count_Some _ _ _ Ha).
    rewrite (string_array_length_loop_spec h a (vec_cells ls rest) ls rest);
      [|done..|].
    + by rewrite (Forall2_length _ _ _ Hs).
    + rewrite vec_cells_length. lia.
  - by intros ->.
Qed.

Lemma vector_strings_loop_spec h a cells ls v rest fuel it :
  h !! a = Some (BArr cells) →
  drop it cells = vec_cells ls rest →
  strings_at h ls v →
  length ls < fuel →
  vector_strings_loop fuel a it h = Some (v, h).
Proof.
  intros Ha Hd Hs. revert fuel it Hd.
  induction Hs as [|l s ls v Hl Hs IH]; intros fuel it Hd Hf;
    (destruct fuel as [|fuel]; [simpl in Hf; lia|]);
    apply drop_cons_inv in Hd as [Hi Hd]; simpl.
  - by hstep (load_Some _ _ _ _ _ Ha Hi).
  - hstep (load_Some _ _ _ _ _ Ha Hi). hstep (read_str_Some _ _ _ Hl).
    by hstep (IH fuel (S it) Hd ltac:(simpl in Hf; lia)).
Qed.

Lemma vector_strings_spec h a ls v :
  is_vector h a ls v → vector_strings (Some a) h = Some (Some v, h).
Proof.
  intros [(rest & Ha) Hs]. unfold vector_strings.
  hstep (cells_count_Some _ _ _ Ha).
  hstep (vector_strings_loop_spec h a _ ls v rest (length (vec_cells ls rest))
           0 Ha eq_refl Hs ltac:(rewrite vec_cells_length; lia)).
  done.
Qed.

(** ** string_array_copy *)

Lemma strings_at_weaken h h' ls v :
  h ⊆ h' → strings_at h ls v → strings_at h' ls v.
Proof.
  intros Hsub Hs. eapply Forall2_impl; [exact Hs|].
  intros l s Hl. eapply lookup_weaken; [exact Hl|done].
Qed.

Lemma strings_at_insert h ls v l b :
  l ∉ ls → strings_at h ls v → strings_at (<[l := b]> h) ls v.
Proof.
  intros Hl Hs. induction Hs as [|l' s ls v Hl' Hs IH]; [constructor|].
  apply not_elem_of_cons in Hl as [Hne Hl].
  constructor; [by rewrite lookup_insert_ne|by apply IH].
Qed.

Lemma strings_at_delete h ls v l :
  l ∉ ls → strings_at h ls v → strings_at (delete l h) ls v.
Proof.
  intros Hl Hs. induction Hs as [|l' s ls v Hl' Hs IH]; [constructor|].
  apply not_elem_of_cons in Hl as [Hne Hl].
  constructor; [by rewrite lookup_delete_ne|by apply IH].
Qed.

Lemma strings_at_lookup h ls v l :
  strings_at h ls v → l ∈ ls → ∃ s, h !! l = Some (BStr s).
Proof.
  intros Hs Hl. induction Hs as [|l' s ls v Hl' Hs IH].
  - by apply elem_of_nil in Hl.
  - apply elem_of_cons in Hl as [->|Hl]; eauto.
Qed.

Lemma strings_at_app h ls1 v1 ls2 v2 :
  strings_at h ls1 v1 → strings_at h ls2 v2 →
  strings_at h (ls1 ++ ls2) (v1 ++ v2).
Proof. apply Forall2_app. Qed.

Lemma insert_ptrs_undef (done : list loc) (k : nat) (c : loc) :
  <[length done := Ptr (Some c)]>
    (((λ l, Ptr (Some l)) <$> done) ++ replicate (S k) Undef)
  = ((λ l, Ptr (Some l)) <$> (done ++ [c])) ++ replicate k Undef.
Proof.
  rewrite insert_app_r_alt by (rewrite length_fmap; lia).
  rewrite length_fmap, Nat.sub_diag. simpl.
  by rewrite fmap_app, <- app_assoc.
Qed.

Lemma copying_step h hc r done vd k l text :
  copying h hc r done vd (S k) →
  h !! l = Some (BStr text) →
  let c := fresh (dom hc) in
  strdup l hc = Some (c, <[c := BStr text]> hc)
  ∧ store r (length done) (Some c) (<[c := BStr text]> hc)
    = Some ((), <[r := BArr (((λ l, Ptr (Some l)) <$> (done ++ [c]))
                            ++ replicate (S k) Undef)]>
                  (<[c := BStr text]> hc))
  ∧ copying h (<[r := BArr (((λ l, Ptr (Some l)) <$> (done ++ [c]))
                            ++ replicate (S k) Undef)]>
                 (<[c := BStr text]> hc)) r (done ++ [c]) (vd ++ [text]) k.
Proof.
  intros (Hsub & Hr & Hout & Hnd & Hblock & Hs & Hsame) Hl c.
  pose proof (fresh_None hc) as Hc. fold c in Hc.
  assert (c ≠ r) as Hcr by (intros ->; congruence).
  assert (h !! c = None) as Hhc
    by (eapply lookup_weaken_None; [exact Hc|done]).
  assert (c ∉ done) as Hcd.
  { intros Hin. destruct (strings_at_lookup _ _ _ _ Hs Hin). congruence. }
  assert (r ∉ done) as Hrd.
  { intros Hin. destruct (strings_at_lookup _ _ _ _ Hs Hin). congruence. }
  split_and!.
  - apply strdup_Some. eapply lookup_weaken; [exact Hl|done].
  - erewrite store_Some.
    + by rewrite insert_ptrs_undef.
    + by rewrite lookup_insert_ne.
    + rewrite length_app, length_fmap. simpl. lia.
  - split_and!.
    + apply insert_subseteq_r; [done|]. by apply insert_subseteq_r.
    + done.
    + apply Forall_app. split; [done|]. by constructor.
    + apply NoDup_app. split_and!; [done| |apply NoDup_singleton].
      intros x Hx Hx'. apply list_elem_of_singleton in Hx' as ->. done.
    + apply lookup_insert_eq.
    + apply strings_at_app.
      * by do 2 (apply strings_at_insert; [done|]).
      * constructor; [|constructor].
        rewrite lookup_insert_ne by done. apply lookup_insert_eq.
    + intros x Hxr [Hxd [Hxc _]%not_elem_of_cons]%not_elem_of_app.
      rewrite !lookup_insert_ne by done. by apply Hsame.
Qed.

Lemma string_array_copy_loop_spec h a cells rest r ls v :
  h !! a = Some (BArr cells) →
  strings_at h ls v →
  ∀ fuel hc done vd,
    drop (length done) cells = vec_cells ls rest →
    length ls < fuel →
    copying h hc r done vd (length ls) →
    ∃ new h',
      string_array_copy_loop fuel a r (length done) hc
      = Some (length (done ++ new), h')
      ∧ copying h h' r (done ++ new) (vd ++ v) 0.
Proof.
  intros Ha Hs.
  induction Hs as [|l text ls v Hl Hs IH]; intros fuel hc done vd Hd Hf Hc;
    (destruct fuel as [|fuel]; [simpl in Hf; lia|]);
    apply drop_cons_inv in Hd as [Hi Hd]; simpl.
  - assert (hc !! a = Some (BArr cells)) as Ha'
      by (eapply lookup_weaken; [done|apply Hc]).
    hstep (load_Some _ _ _ _ _ Ha' Hi).
    exists [], hc. by rewrite !app_nil_r.
  - assert (hc !! a = Some (BArr cells)) as Ha'
      by (eapply lookup_weaken; [done|apply Hc]).
    hstep (load_Some _ _ _ _ _ Ha' Hi).
    destruct (copying_step _ _ _ _ _ _ _ _ Hc Hl) as (Hdup & Hst & Hc').
    hstep Hdup. hstep Hst.
    replace (S (length done)) with (length (done ++ [fresh (dom hc)]))
      by (rewrite length_app; simpl; lia).
    edestruct (IH fuel) as (new & h' & Hloop & Hfin);
      [|by (simpl in Hf; lia)|exact Hc'|].
    { rewrite length_app. simpl. by rewrite Nat.add_1_r. }
    exists (fresh (dom hc) :: new), h'.
    rewrite Hloop. by rewrite <- !app_assoc in *.
Qed.

Lemma string_array_copy_spec h p v :
  vector_in h p v →
  ∃ r ls' h',
    string_array_copy p h = Some (r, h')
    ∧ h' !! r = Some (BArr (vec_cells ls' []))
    ∧ strings_at h' ls' v ∧ NoDup ls'
    ∧ h ⊆ h' ∧ outside h (r :: ls')
    ∧ (∀ l, l ∉ r :: ls' → h' !! l = h !! l).
Proof.
  intros Hv. unfold string_array_copy.
  hstep (string_array_length_spec _ _ _ Hv).
  hstep (malloc_Some h (BArr (replicate (length v + 1) Undef))).
  set (r := fresh (dom h)). pose proof (fresh_None h) as Hr. fold r in Hr.
  destruct p as [a|]; simpl in Hv.
  - destruct Hv as (ls & (rest & Ha) & Hs).
    assert (a ≠ r) as Har by (intros ->; congruence).
    assert (<[r:=BArr (replicate (length v + 1) Undef)]> h !! a
            = Some (BArr (vec_cells ls rest))) as Ha'
      by by rewrite lookup_insert_ne.
    rewrite H_bind_assoc. hstep (cells_count_Some _ _ _ Ha').
    destruct (string_array_copy_loop_spec h a _ rest r ls v Ha Hs
                (length (vec_cells ls rest))
                (<[r:=BArr (replicate (length v + 1) Undef)]> h) [] [])
      as (new & h' & Hloop & Hsub & _ & Hout & Hnd & Hblock & Hstr & Hsame).
    { done. }
    { rewrite vec_cells_length. lia. }
    { split_and!; [by apply insert_subseteq|done|constructor|constructor
                  | |constructor|].
      - rewrite lookup_insert_eq. rewrite <- (Forall2_length _ _ _ Hs).
        by rewrite Nat.add_1_r.
      - intros l Hl _. by rewrite lookup_insert_ne. }
    simpl in Hloop, Hblock, Hstr, Hout, Hnd. hstep Hloop.
    erewrite H_bind_Some; [|apply (store_Some _ _ _ _ _ Hblock)].
    + exists r, new, (<[r := BArr (vec_cells new [])]> h').
      rewrite H_ret_Some. split_and!.
      * f_equal. f_equal.
        rewrite <- (length_fmap (λ l, Ptr (Some l)) new) at 1.
        rewrite insert_app_r_alt, Nat.sub_diag by done. done.
      * apply lookup_insert_eq.
      * apply strings_at_insert; [|done].
        intros Hin. destruct (strings_at_lookup _ _ _ _ Hstr Hin). congruence.
      * done.
      * by apply insert_subseteq_r.
      * by constructor.
      * intros l [Hl1 Hl2]%not_elem_of_cons.
        rewrite lookup_insert_ne by done. by apply Hsame.
    + rewrite length_app, length_fmap. simpl. lia.
  - subst v. simpl.
    erewrite H_bind_Some; [|apply H_ret_Some].
    erewrite H_bind_Some;
      [|apply (store_Some _ r [Undef] 0); [apply lookup_insert_eq|simpl; lia]].
    exists r, [], (<[r := BArr [Ptr None]]> h). rewrite H_ret_Some.
    split_and!; [by rewrite insert_insert_eq|apply lookup_insert_eq
                |constructor|constructor|by apply insert_subseteq
                |by repeat constructor|].
    intros l [Hl _]%not_elem_of_cons. by rewrite lookup_insert_ne.
Qed.

(** ** string_array_release *)

Lemma string_array_release_loop_spec a cells rest ls :
  ∀ v hc fuel it,
    strings_at hc ls v → NoDup ls →
    hc !! a = Some (BArr cells) →
    drop it cells = vec_cells ls rest →
    length ls < fuel →
    ∃ h', string_array_release_loop fuel a it hc = Some ((), h')
          ∧ (∀ l, l ∉ ls → h' !! l = hc !! l) ∧ outside h' ls.
Proof.
  induction ls as [|l ls IH]; intros v hc fuel it Hs Hnd Ha Hd Hf;
    (destruct fuel as [|fuel]; [simpl in Hf; lia|]);
    apply drop_cons_inv in Hd as [Hi Hd]; simpl.
  - hstep (load_Some _ _ _ _ _ Ha Hi). exists hc.
    split_and!; [done|done|constructor].
  - hstep (load_Some _ _ _ _ _ Ha Hi).
    inversion Hs as [|? s ? v' Hl Hs']; subst.
    apply NoDup_cons in Hnd as [Hl' Hnd].
    hstep (free_Some _ _ _ Hl).
    destruct (IH v' (delete l hc) fuel (S it)) as (h' & -> & Hsame & Hout).
    + by apply strings_at_delete.
    + done.
    + rewrite lookup_delete_ne; [done|]. intros ->. congruence.
    + done.
    + simpl in Hf. lia.
    + exists h'. split_and!; [done| |].
      * intros x [Hx1 Hx2]%not_elem_of_cons.
        rewrite Hsame by done. by apply lookup_delete_ne.
      * constructor; [|done]. rewrite Hsame by done. apply lookup_delete_eq.
Qed.

Lemma string_array_release_spec h a ls v :
  owned h a ls v →
  ∃ h', string_array_release (Some a) h = Some ((), h')
        ∧ (∀ l, l ∉ a :: ls → h' !! l = h !! l) ∧ outside h' (a :: ls).
Proof.
  intros [[(rest & Ha) Hs] Hnd]. unfold string_array_release.
  rewrite H_bind_assoc. hstep (cells_count_Some _ _ _ Ha).
  destruct (string_array_release_loop_spec a _ rest ls v h
              (length (vec_cells ls rest)) 0 Hs Hnd Ha eq_refl)
    as (h' & Hloop & Hsame & Hout).
  { rewrite vec_cells_length. lia. }
  hstep Hloop.
  assert (a ∉ ls) as Hals.
  { intros Hin. destruct (strings_at_lookup _ _ _ _ Hs Hin). congruence. }
  rewrite (free_Some h' a (BArr (vec_cells ls rest)))
    by (by rewrite Hsame).
  exists (delete a h'). split_and!; [done| |].
  - intros l [Hl1 Hl2]%not_elem_of_cons.
    rewrite lookup_delete_ne by done. by apply Hsame.
  - constructor; [apply lookup_delete_eq|].
    eapply Forall_impl; [exact Hout|]. intros l Hl. simpl in Hl.
    destruct (decide (a = l)) as [->|Hne]; [apply lookup_delete_eq|].
    by rewrite lookup_delete_ne.
Qed.

Lemma string_array_release_null h :
  string_array_release None h = Some ((), h).
Proof. reflexivity. Qed.

(** ** string_array_single_update *)

Lemma find_key_le v key : find_key v key ≤ length v.
Proof.
  induction v as [|e v IH]; simpl; [lia|].
  destruct (key_matches e key); lia.
Qed.

Lemma env_update_found v key value :
  find_key v key < length v →
  env_update v key value = <[find_key v key := key +:+ "=" +:+ value]> v.
Proof.
  induction v as [|e v IH]; simpl; [lia|].
  destruct (key_matches e key); [done|]. intros Hlt.
  rewrite IH by lia. done.
Qed.

Lemma env_update_absent v key value :
  find_key v key = length v →
  env_update v key value = v ++ [key +:+ "=" +:+ value].
Proof.
  induction v as [|e v IH]; simpl; [done|].
  destruct (key_matches e key); [done|]. intros [= Heq]. by rewrite IH.
Qed.

Lemma string_array_find_loop_spec h a cells rest key ls v :
  h !! a = Some (BArr cells) →
  strings_at h ls v →
  ∀ fuel it,
    drop it cells = vec_cells ls rest →
    length ls < fuel →
    string_array_find_loop fuel a it key h = Some (it + find_key v key, h).
Proof.
  intros Ha Hs.
  induction Hs as [|l e ls v Hl Hs IH]; intros fuel it Hd Hf;
    (destruct fuel as [|fuel]; [simpl in Hf; lia|]);
    apply drop_cons_inv in Hd as [Hi Hd]; simpl.
  - hstep (load_Some _ _ _ _ _ Ha Hi). by rewrite Nat.add_0_r.
  - hstep (load_Some _ _ _ _ _ Ha Hi). hstep (read_str_Some _ _ _ Hl).
    destruct (key_matches e key).
    + by rewrite Nat.add_0_r.
    + rewrite (IH fuel (S it)); [|done|simpl in Hf; lia].
      do 2 f_equal. lia.
Qed.

Lemma vec_cells_insert ls rest i e :
  i < length ls →
  <[i := Ptr (Some e)]> (vec_cells ls rest) = vec_cells (<[i := e]> ls) rest.
Proof.
  intros Hi. unfold vec_cells.
  rewrite insert_app_l by (by rewrite length_fmap).
  by rewrite list_fmap_insert.
Qed.

Lemma vec_cells_grow ls rest e :
  <[S (length ls) := Ptr None]>
    (<[length ls := Ptr (Some e)]>
       (take (length ls + 2) (vec_cells ls rest)
        ++ replicate (length ls + 2 - length (vec_cells ls rest)) Undef))
  = vec_cells (ls ++ [e]) [].
Proof.
  rewrite vec_cells_length. unfold vec_cells.
  set (P := (λ l, Ptr (Some l)) <$> ls).
  assert (length P = length ls) as HP by apply length_fmap.
  rewrite take_app_ge by lia.
  replace (length ls + 2 - length P) with 2 by lia.
  rewrite <- app_assoc.
  rewrite insert_app_r_alt by lia.
  rewrite insert_app_r_alt by lia.
  replace (length ls - length P) with 0 by lia.
  replace (S (length ls) - length P) with 1 by lia.
  rewrite fmap_app. fold P. rewrite <- app_assoc. f_equal.
  destruct rest as [|c rest]; simpl.
  - by replace (length ls + 2 - S (length ls + 0)) with 1 by lia.
  - by replace (length ls + 2 - S (length ls + S (length rest))) with 0 by lia.
Qed.

Lemma NoDup_insert_fresh (ls : list loc) i e :
  NoDup ls → e ∉ ls → NoDup (<[i := e]> ls).
Proof.
  revert i. induction ls as [|l ls IH]; intros i Hnd He; [done|].
  apply NoDup_cons in Hnd as [Hl Hnd].
  apply not_elem_of_cons in He as [Hne He].
  destruct i as [|i]; simpl.
  - apply NoDup_cons. done.
  - apply NoDup_cons. split; [|by apply IH].
    intros Hin. apply list_elem_of_lookup in Hin as [j Hj].
    destruct (decide (i = j)) as [->|Hij].
    + rewrite list_lookup_insert_eq in Hj.
      * congruence.
      * apply lookup_lt_Some in Hj. by rewrite length_insert in Hj.
    + rewrite list_lookup_insert_ne in Hj by done.
      apply Hl. apply list_elem_of_lookup. eauto.
Qed.

Lemma string_array_single_update_exact h hf a ls v key value :
  owned h a ls v → hf ⊆ h → outside hf (a :: ls) →
  ∃ a' ls' h',
    string_array_single_update (Some a) key value h = Some (a', h')
    ∧ owned h' a' ls' (env_update v key value)
    ∧ hf ⊆ h' ∧ outside hf (a' :: ls')
    ∧ (find_key v key < length v → a' = a)
    ∧ (∀ l, l ∉ a' :: ls' → l ∉ a :: ls → h' !! l = h !! l)
    ∧ (∀ l, l ∈ a :: ls → l ∉ a' :: ls' → h' !! l = None).
Proof.
  intros [[(rest & Ha) Hs] Hnd] Hsub Hout.
  apply Forall_cons in Hout as [Hfa Hfls].
  pose proof (Forall2_length _ _ _ Hs) as Hlen.
  unfold string_array_single_update.
  rewrite !H_bind_assoc. hstep (cells_count_Some _ _ _ Ha).
  rewrite !H_bind_assoc.
  hstep (string_array_find_loop_spec h a _ rest key ls v Ha Hs
           (length (vec_cells ls rest)) 0 eq_refl
           ltac:(rewrite vec_cells_length; lia)).
  hstep (H_ret_Some (Some (a, 0 + find_key v key)) h).
  hstep (malloc_Some h (BStr (key +:+ "=" +:+ value))).
  simpl (0 + _).
  set (i := find_key v key). set (e := fresh (dom h)).
  set (kv := key +:+ "=" +:+ value).
  pose proof (fresh_None h) as He. fold e in He.
  assert (a ≠ e) as Hae by (intros ->; congruence).
  assert (e ∉ ls) as Hels.
  { intros Hin. destruct (strings_at_lookup _ _ _ _ Hs Hin). congruence. }
  assert (a ∉ ls) as Hals.
  { intros Hin. destruct (strings_at_lookup _ _ _ _ Hs Hin). congruence. }
  assert (hf !! e = None) as Hfe
    by (eapply lookup_weaken_None; [exact He|done]).
  assert (<[e:=BStr kv]> h !! a = Some (BArr (vec_cells ls rest))) as Ha1
    by by rewrite lookup_insert_ne.
  destruct (decide (i < length v)) as [Hi|Hi].
  - (* the key is there: the entry is replaced in place *)
    destruct (lookup_lt_is_Some_2 ls i) as [old Hold]; [lia|].
    destruct (lookup_lt_is_Some_2 v i) as [eold Heold]; [lia|].
    pose proof (Forall2_lookup_lr _ _ _ _ _ _ Hs Hold Heold) as Hho.
    simpl in Hho.
    assert (old ≠ e) as Hoe by (intros ->; congruence).
    assert (old ≠ a) as Hoa by (intros ->; congruence).
    hstep (load_Some _ _ _ _ _ Ha1 (vec_cells_lookup _ rest _ _ Hold)).
    hstep (free_Some (<[e:=BStr kv]> h) old (BStr eold)
             ltac:(by rewrite lookup_insert_ne)).
    erewrite H_bind_Some;
      [|apply (store_Some _ a (vec_cells ls rest));
        [by rewrite lookup_delete_ne|rewrite vec_cells_length; lia]].
    rewrite H_ret_Some, vec_cells_insert by lia.
    eexists a, (<[i := e]> ls), _. split; [reflexivity|].
    rewrite env_update_found by done. fold i kv.
    split_and!.
    + split; [split|].
      * eexists. apply lookup_insert_eq.
      * apply Forall2_same_length_lookup. split.
        { by rewrite !length_insert. }
        intros j l s Hl Hsj.
        destruct (decide (i = j)) as [<-|Hij].
        -- rewrite list_lookup_insert_eq in Hl by lia.
           rewrite list_lookup_insert_eq in Hsj by lia.
           injection Hl as <-. injection Hsj as <-.
           rewrite lookup_insert_ne, lookup_delete_ne by done.
           apply lookup_insert_eq.
        -- rewrite list_lookup_insert_ne in Hl by done.
           rewrite list_lookup_insert_ne in Hsj by done.
           pose proof (Forall2_lookup_lr _ _ _ _ _ _ Hs Hl Hsj) as Hhl.
           simpl in Hhl.
           assert (l ≠ old).
           { intros ->. by apply Hij, (NoDup_lookup ls i j old). }
           assert (l ≠ a) by (intros ->; congruence).
           assert (l ≠ e) by (intros ->; congruence).
           by rewrite lookup_insert_ne, lookup_delete_ne, lookup_insert_ne.
      * by apply NoDup_insert_fresh.
    + apply map_subseteq_spec. intros k x Hk.
      assert (k ≠ a) by (intros ->; congruence).
      assert (k ≠ e) by (intros ->; congruence).
      assert (k ≠ old).
      { intros ->. rewrite Forall_lookup in Hfls.
        specialize (Hfls _ _ Hold). simpl in Hfls. congruence. }
      rewrite lookup_insert_ne, lookup_delete_ne, lookup_insert_ne by done.
      eapply lookup_weaken; [exact Hk|done].
    + constructor; [done|]. by apply Forall_insert.
    + done.
    + intros l [Hla Hll]%not_elem_of_cons [_ Hl]%not_elem_of_cons.
      assert (l ≠ old).
      { intros ->. apply Hl, list_elem_of_lookup. eauto. }
      assert (l ≠ e).
      { intros ->. apply Hll, list_elem_of_lookup. exists i.
        apply list_lookup_insert_eq. lia. }
      by rewrite lookup_insert_ne, lookup_delete_ne, lookup_insert_ne.
    + intros l Hl [Hla Hll]%not_elem_of_cons.
      apply elem_of_cons in Hl as [->|Hl]; [done|].
      apply list_elem_of_lookup in Hl as [j Hj].
      destruct (decide (i = j)) as [<-|Hij].
      * assert (l = old) as -> by congruence.
        rewrite lookup_insert_ne by done. apply lookup_delete_eq.
      * exfalso. apply Hll, list_elem_of_lookup. exists j.
        by rewrite list_lookup_insert_ne.
  - (* the key is not there: the entry is appended *)
    assert (i = length ls) as Hi' by (pose proof (find_key_le v key); lia).
    assert (vec_cells ls rest !! i = Some (Ptr None)) as Hend
      by (rewrite Hi'; apply vec_cells_lookup_end).
    hstep (load_Some _ _ _ _ _ Ha1 Hend).
    assert (vector_in (<[e:=BStr kv]> h) (Some a) v) as Hv1.
    { exists ls. split; [by eexists|]. by apply strings_at_insert. }
    hstep (string_array_length_spec _ _ _ Hv1).
    unfold realloc. rewrite !H_bind_assoc.
    hstep (read_cells_Some _ _ _ Ha1). rewrite !H_bind_assoc.
    hstep (free_Some _ _ _ Ha1).
    set (h2 := delete a (<[e:=BStr kv]> h)).
    set (B := take (length v + 2) (vec_cells ls rest)
              ++ replicate (length v + 2 - length (vec_cells ls rest)) Undef).
    hstep (malloc_Some h2 (BArr B)).
    set (r := fresh (dom h2)). pose proof (fresh_None h2) as Hr. fold r in Hr.
    assert (length B = length v + 2) as HB.
    { unfold B. rewrite length_app, length_take, length_replicate. lia. }
    erewrite H_bind_Some;
      [|apply (store_Some _ r B); [apply lookup_insert_eq|lia]].
    erewrite H_bind_Some;
      [|apply (store_Some _ r (<[length v := Ptr (Some e)]> B));
        [apply lookup_insert_eq|rewrite length_insert; lia]].
    rewrite H_ret_Some, !insert_insert_eq.
    replace (<[length v + 1 := Ptr None]> (<[length v := Ptr (Some e)]> B))
      with (vec_cells (ls ++ [e]) []).
    2:{ unfold B. rewrite <- Hlen, Nat.add_1_r. symmetry.
        apply vec_cells_grow. }
    assert (h2 !! e = Some (BStr kv)) as H2e.
    { unfold h2. rewrite lookup_delete_ne by done. apply lookup_insert_eq. }
    assert (r ≠ e) as Hre by (intros ->; congruence).
    assert (∀ l s, l ∈ ls → h !! l = Some (BStr s) →
                   <[r := BArr (vec_cells (ls ++ [e]) [])]> h2 !! l
                   = Some (BStr s)) as Hkeep.
    { intros l s Hl Hhl.
      assert (l ≠ a) by (intros ->; congruence).
      assert (l ≠ e) by (intros ->; congruence).
      assert (h2 !! l = Some (BStr s)) as H2l.
      { unfold h2. by rewrite lookup_delete_ne, lookup_insert_ne. }
      rewrite lookup_insert_ne; [done|]. intros ->. congruence. }
    eexists r, (ls ++ [e]), _. split; [reflexivity|].
    rewrite env_update_absent by lia. fold kv.
    split_and!.
    + split; [split|].
      * eexists. apply lookup_insert_eq.
      * apply strings_at_app.
        -- apply Forall2_same_length_lookup. split; [done|].
           intros j l s Hl Hsj. apply Hkeep.
           ++ apply list_elem_of_lookup. eauto.
           ++ exact (Forall2_lookup_lr _ _ _ _ _ _ Hs Hl Hsj).
        -- constructor; [|constructor]. by rewrite lookup_insert_ne.
      * apply NoDup_app. split_and!; [done| |apply NoDup_singleton].
        intros x Hx Hx'. apply list_elem_of_singleton in Hx' as ->. done.
    + apply map_subseteq_spec. intros k x Hk.
      assert (k ≠ a) by (intros ->; congruence).
      assert (k ≠ e) by (intros ->; congruence).
      assert (h2 !! k = Some x) as H2k.
      { unfold h2. rewrite lookup_delete_ne, lookup_insert_ne by done.
        eapply lookup_weaken; [exact Hk|done]. }
      rewrite lookup_insert_ne; [done|]. intros ->. congruence.
    + constructor.
      * destruct (hf !! r) as [x|] eqn:Hfr; [|done].
        assert (r ≠ a) by (intros ->; congruence).
        assert (h2 !! r = Some x); [|congruence].
        unfold h2. rewrite lookup_delete_ne, lookup_insert_ne by done.
        eapply lookup_weaken; [exact Hfr|done].
      * apply Forall_app. split; [done|]. by constructor.
    + lia.
    + intros l [Hlr [Hll [Hle _]%not_elem_of_cons]%not_elem_of_app]
        %not_elem_of_cons [Hla _]%not_elem_of_cons.
      rewrite lookup_insert_ne by done. unfold h2.
      by rewrite lookup_delete_ne, lookup_insert_ne.
    + intros l Hl [Hlr [Hll _]%not_elem_of_app]%not_elem_of_cons.
      apply elem_of_cons in Hl as [->|Hl]; [|done].
      rewrite lookup_insert_ne by done. apply lookup_delete_eq.
Qed.

Lemma string_array_single_update_spec h hf a ls v key value :
  owned h a ls v → hf ⊆ h → outside hf (a :: ls) →
  ∃ a' ls' h',
    string_array_single_update (Some a) key value h = Some (a', h')
    ∧ owned h' a' ls' (env_update v key value)
    ∧ hf ⊆ h' ∧ outside hf (a' :: ls')
    ∧ (find_key v key < length v → a' = a).
Proof.
  intros Ho Hsub Hout.
  destruct (string_array_single_update_exact h hf a ls v key value
              Ho Hsub Hout)
    as (a' & ls' & h' & Hup & Ho' & Hsub' & Hout' & Hsame & _).
  by exists a', ls', h'.
Qed.

(** ** string_array_partial_update *)

Lemma string_array_partial_update_loop_spec hf names :
  ∀ env vals h a ls v,
    owned h a ls v → hf ⊆ h → outside hf (a :: ls) →
    captured_in hf env vals →
    ∃ a' ls' h',
      string_array_partial_update_loop names env a h = Some (a', h')
      ∧ owned h' a' ls' (env_partial_update names vals v)
      ∧ hf ⊆ h' ∧ outside hf (a' :: ls').
Proof.
  induction names as [|name names IH]; intros env vals h a ls v Ho Hsub Hout Hc.
  { exists a, ls, h. by destruct env, vals. }
  destruct Hc as [|p o env vals Hp Hc]; [by exists a, ls, h|].
  destruct p as [p|], o as [s|]; try done; [|by exists a, ls, h].
  simpl.
  assert (h !! p = Some (BStr s)) as Hhp
    by (eapply lookup_weaken; [exact Hp|done]).
  hstep (read_str_Some _ _ _ Hhp).
  destruct (string_array_single_update_spec h hf a ls v name s Ho Hsub Hout)
    as (a1 & ls1 & h1 & Hup & Ho1 & Hsub1 & Hout1 & _).
  hstep Hup. by apply (IH env vals h1 a1 ls1).
Qed.

Lemma string_array_partial_update_spec apple h envp env vals v :
  vector_in h envp v → captured_in h env vals →
  ∃ r ls' h',
    string_array_partial_update apple envp env h = Some (r, h')
    ∧ owned h' r ls' (env_partial_update (env_names apple) vals v)
    ∧ h ⊆ h' ∧ outside h (r :: ls').
Proof.
  intros Hv Hc. unfold string_array_partial_update.
  destruct (string_array_copy_spec h envp v Hv)
    as (r & ls & h1 & Hcopy & Hr & Hs & Hnd & Hsub & Hout & _).
  hstep Hcopy.
  apply (string_array_partial_update_loop_spec h _ env vals h1 r ls v);
    try done.
  split; [split|]; [by eexists|done|done].
Qed.

(** ** string_array_from_varargs *)

Lemma release_restores h h1 r ls v :
  owned h1 r ls v → outside h (r :: ls) →
  (∀ l, l ∉ r :: ls → h1 !! l = h !! l) →
  string_array_release (Some r) h1 = Some ((), h).
Proof.
  intros Ho Hout Hsame.
  destruct (string_array_release_spec h1 r ls v Ho)
    as (h2 & Hrel & Hsame2 & Hout2).
  rewrite Hrel. do 2 f_equal. apply map_eq. intros l.
  destruct (decide (l ∈ r :: ls)) as [Hin|Hin].
  - rewrite (proj1 (Forall_forall _ _) Hout2 l Hin).
    by rewrite (proj1 (Forall_forall _ _) Hout l Hin).
  - rewrite Hsame2 by done. by apply Hsame.
Qed.

Lemma realloc_grow h hc result done vd :
  collecting h hc result done vd →
  ∃ r hc1,
    realloc result (length done + 1) hc = Some (r, hc1)
    ∧ hc1 !! r = Some (BArr (((λ l, Ptr (Some l)) <$> done) ++ [Undef]))
    ∧ h ⊆ hc1 ∧ h !! r = None ∧ strings_at hc1 done vd
    ∧ (∀ l, l ≠ r → l ∉ done → hc1 !! l = h !! l).
Proof.
  intros (Hsub & Hout & Hnd & Hs & Hsame & Hres).
  destruct result as [r0|].
  - destruct Hres as [Hr0 Hblock]. unfold realloc.
    hstep (read_cells_Some _ _ _ Hblock). hstep (free_Some _ _ _ Hblock).
    rewrite malloc_Some.
    set (h2 := delete r0 hc). set (r := fresh (dom h2)).
    pose proof (fresh_None h2) as Hr. fold r in Hr.
    assert (r0 ∉ done) as Hr0d.
    { intros Hin. destruct (strings_at_lookup _ _ _ _ Hs Hin). congruence. }
    assert (r ∉ done) as Hrd.
    { intros Hin. destruct (strings_at_lookup _ _ _ _ Hs Hin) as [s Hl].
      assert (h2 !! r = Some (BStr s)); [|congruence].
      unfold h2. rewrite lookup_delete_ne; [done|].
      intros Heq. apply Hr0d. by rewrite Heq. }
    assert (h !! r = None) as Hhr.
    { destruct (h !! r) as [x|] eqn:Hx; [|done].
      assert (h2 !! r = Some x); [|congruence].
      unfold h2.
      rewrite lookup_delete_ne by (intros Heq; rewrite Heq in Hr0; congruence).
      eapply lookup_weaken; [exact Hx|done]. }
    assert (h ⊆ h2) as Hsub2.
    { apply map_subseteq_spec. intros l x Hl. unfold h2.
      rewrite lookup_delete_ne by (intros ->; congruence).
      eapply lookup_weaken; [exact Hl|done]. }
    eexists r, _. split; [reflexivity|]. split_and!.
    + rewrite lookup_insert_eq. do 2 f_equal.
      rewrite length_fmap.
      rewrite take_ge by (rewrite length_fmap; lia).
      by replace (length done + 1 - length done) with 1 by lia.
    + by apply insert_subseteq_r.
    + done.
    + apply strings_at_insert; [done|]. by apply strings_at_delete.
    + intros l Hlr Hld. rewrite lookup_insert_ne by done. unfold h2.
      destruct (decide (l = r0)) as [->|Hne].
      * by rewrite lookup_delete_eq.
      * rewrite lookup_delete_ne by done. apply Hsame; [congruence|done].
  - subst done. simpl. rewrite malloc_Some.
    pose proof (fresh_None hc) as Hr.
    assert (h !! fresh (dom hc) = None) as Hhr
      by (eapply lookup_weaken_None; [exact Hr|done]).
    eexists _, _. split; [reflexivity|]. split_and!.
    + apply lookup_insert_eq.
    + by apply insert_subseteq_r.
    + done.
    + apply strings_at_insert; [apply not_elem_of_nil|done].
    + intros l Hlr _. rewrite lookup_insert_ne by done.
      apply Hsame; [done|apply not_elem_of_nil].
Qed.

Lemma collecting_step h hc result done vd p s :
  collecting h hc result done vd →
  h !! p = Some (BStr s) →
  ∃ r c hc3,
    (r ← realloc result (length done + 1);
     copy ← strdup p;
     store r (length done) (Some copy);;
     mret (r, copy)) hc = Some ((r, c), hc3)
    ∧ collecting h hc3 (Some r) (done ++ [c]) (vd ++ [s]).
Proof.
  intros Hc Hp.
  pose proof Hc as (Hsub & Hout & Hnd & Hs & Hsame & Hres).
  destruct (realloc_grow _ _ _ _ _ Hc)
    as (r & hc1 & Hre & Hblock & Hsub1 & Hhr & Hs1 & Hsame1).
  hstep Hre.
  assert (hc1 !! p = Some (BStr s)) as Hp1
    by (eapply lookup_weaken; [exact Hp|done]).
  hstep (strdup_Some _ _ _ Hp1).
  set (c := fresh (dom hc1)). pose proof (fresh_None hc1) as Hc1. fold c in Hc1.
  assert (c ≠ r) as Hcr by (intros ->; congruence).
  assert (h !! c = None) as Hhc
    by (eapply lookup_weaken_None; [exact Hc1|done]).
  assert (c ∉ done) as Hcd.
  { intros Hin. destruct (strings_at_lookup _ _ _ _ Hs1 Hin). congruence. }
  assert (r ∉ done) as Hrd.
  { intros Hin. destruct (strings_at_lookup _ _ _ _ Hs1 Hin). congruence. }
  erewrite H_bind_Some;
    [|apply (store_Some _ r (((λ l, Ptr (Some l)) <$> done) ++ [Undef]));
      [by rewrite lookup_insert_ne
      |rewrite length_app, length_fmap; simpl; lia]].
  rewrite H_ret_Some. eexists r, c, _. split; [reflexivity|].
  split_and!.
  - apply insert_subseteq_r; [done|]. by apply insert_subseteq_r.
  - apply Forall_app. split; [done|]. by constructor.
  - apply NoDup_app. split_and!; [done| |apply NoDup_singleton].
    intros x Hx Hx'. apply list_elem_of_singleton in Hx' as ->. done.
  - apply strings_at_app.
    + by do 2 (apply strings_at_insert; [done|]).
    + constructor; [|constructor].
      rewrite lookup_insert_ne by done. apply lookup_insert_eq.
  - intros l Hlr [Hld [Hlc _]%not_elem_of_cons]%not_elem_of_app.
    rewrite !lookup_insert_ne by congruence. apply Hsame1; [congruence|done].
  - done.
  - rewrite lookup_insert_eq. do 2 f_equal.
    rewrite <- (length_fmap (λ l, Ptr (Some l)) done) at 1.
    rewrite insert_app_r_alt, Nat.sub_diag by done.
    by rewrite fmap_app.
Qed.

Lemma string_array_from_varargs_loop_None args result size :
  string_array_from_varargs_loop None args result size
  = mret (result, size, args).
Proof. by destruct args. Qed.

Lemma string_array_from_varargs_loop_spec h tail ps :
  ∀ strs it args hc result done vd,
    it :: args = (Some <$> ps) ++ None :: tail →
    strings_at h ps strs →
    collecting h hc result done vd →
    ∃ result' new h',
      string_array_from_varargs_loop it args result (length done) hc
      = Some ((result', length (done ++ new), tail), h')
      ∧ collecting h h' result' (done ++ new) (vd ++ strs).
Proof.
  induction ps as [|p ps IH];
    intros strs it args hc result done vd Hargs Hs Hc;
    inversion Hs as [|? s ? strs' Hp Hs']; subst;
    simpl in Hargs; injection Hargs as -> ->.
  - exists result, [], hc. rewrite !app_nil_r.
    by rewrite string_array_from_varargs_loop_None.
  - destruct (collecting_step _ _ _ _ _ _ _ Hc Hp)
      as (r & c & hc3 & Hstep & Hc3).
    match goal with
    | |- context [string_array_from_varargs_loop (Some p) ?T] =>
        assert (∃ next args', T = next :: args')
          as (next & args' & Hargs) by (destruct ps; simpl; eauto);
        rewrite Hargs
    end.
    cbn [string_array_from_varargs_loop].
    unfold mbind, H_bind in Hstep |- *.
    destruct (realloc result (length done + 1) hc) as [[r1 hc1]|];
      [|done].
    destruct (strdup p hc1) as [[c1 hc2]|]; [|done].
    destruct (store r1 (length done) (Some c1) hc2) as [[[] hc3']|];
      [|done].
    injection Hstep as -> -> ->.
    replace (S (length done)) with (length (done ++ [c]))
      by (rewrite length_app; simpl; lia).
    destruct (IH strs' next args' hc3 (Some r) (done ++ [c]) (vd ++ [s]))
      as (result' & new & h' & Hloop & Hfin);
      [symmetry; exact Hargs|done|done|].
    exists result', (c :: new), h'.
    rewrite <- app_assoc in Hloop. do 2 rewrite <- app_assoc in Hfin.
    split; [exact Hloop|exact Hfin].
Qed.

Lemma string_array_from_varargs_spec h arg args ps strs tail :
  varargs_in h arg args ps strs tail →
  ∃ r ls' h',
    string_array_from_varargs arg args h = Some ((r, tail), h')
    ∧ owned h' r ls' strs ∧ h ⊆ h' ∧ outside h (r :: ls')
    ∧ (∀ l, l ∉ r :: ls' → h' !! l = h !! l).
Proof.
  intros [Hargs Hs]. unfold string_array_from_varargs.
  destruct (string_array_from_varargs_loop_spec h tail ps strs arg args h
              None [] [] Hargs Hs)
    as (result' & new & h1 & Hloop & Hc).
  { split_and!; [done|constructor|constructor|constructor|done|done]. }
  simpl in Hloop, Hc. hstep Hloop.
  destruct (realloc_grow _ _ _ _ _ Hc)
    as (r & h2 & Hre & Hblock & Hsub2 & Hhr & Hs2 & Hsame2).
  hstep Hre.
  erewrite H_bind_Some;
    [|apply (store_Some _ r (((λ l, Ptr (Some l)) <$> new) ++ [Undef]));
      [done|rewrite length_app, length_fmap; simpl; lia]].
  rewrite H_ret_Some.
  destruct Hc as (_ & Hout & Hnd & _).
  assert (r ∉ new) as Hrn.
  { intros Hin. destruct (strings_at_lookup _ _ _ _ Hs2 Hin). congruence. }
  eexists r, new, _. split; [reflexivity|]. split_and!.
  - split; [split|]; [| |done].
    + exists []. rewrite lookup_insert_eq. do 2 f_equal.
      rewrite <- (length_fmap (λ l, Ptr (Some l)) new) at 1.
      by rewrite insert_app_r_alt, Nat.sub_diag by done.
    + by apply strings_at_insert.
  - by apply insert_subseteq_r.
  - by constructor.
  - intros l [Hl1 Hl2]%not_elem_of_cons.
    rewrite lookup_insert_ne by done. by apply Hsame2.
Qed.

(** ** The claims on single_update *)

Lemma find_key_first v key i e :
  v !! i = Some e → key_matches e key = true →
  (∀ j e', j < i → v !! j = Some e' → key_matches e' key = false) →
  find_key v key = i.
Proof.
  revert i. induction v as [|e0 v IH]; intros i Hi He Hbefore; [done|].
  destruct i as [|i]; simpl in *.
  - injection Hi as ->. by rewrite He.
  - rewrite (Hbefore 0 e0) by (done || lia). f_equal.
    apply IH; [done..|]. intros j e' Hj. apply (Hbefore (S j)). lia.
Qed.

Lemma find_key_none v key :
  Forall (λ e, key_matches e key = false) v → find_key v key = length v.
Proof. induction 1 as [|e v He _ IH]; simpl; [done|]. by rewrite He, IH. Qed.

(** C4 (as amended).  [string_array_single_update] on a vector it may
    update returns a vector.  If [i] is the first index that holds an entry
    [key=oldvalue] for some old value, the vector returned is the same array,
    with as many entries, [key=value] at index [i] and every other entry
    unchanged.  If no entry is [key=x] for any [x] (an entry whose key is
    longer than [key] is none), the vector returned holds the entries in
    their order, then [key=value], then the null sentinel. *)
Theorem string_array_single_update_position h a ls v key value :
  owned h a ls v →
  ∃ a' ls' h',
    string_array_single_update (Some a) key value h = Some (a', h')
    ∧ owned h' a' ls' (env_update v key value)
    ∧ vector_strings (Some a') h' = Some (Some (env_update v key value), h')
    ∧ (∀ i oldvalue,
         v !! i = Some (key +:+ "=" +:+ oldvalue) →
         (∀ j e x, j < i → v !! j = Some e → e ≠ key +:+ "=" +:+ x) →
         a' = a
         ∧ env_update v key value = <[i := key +:+ "=" +:+ value]> v
         ∧ length (env_update v key value) = length v)
    ∧ ((∀ e x, e ∈ v → e ≠ key +:+ "=" +:+ x) →
       env_update v key value = v ++ [key +:+ "=" +:+ value]
       ∧ length (env_update v key value) = length v + 1).
Proof.
  intros Ho.
  destruct (string_array_single_update_spec h ∅ a ls v key value Ho)
    as (a' & ls' & h' & Hup & Ho' & _ & _ & Hsame).
  { apply map_empty_subseteq. }
  { apply Forall_forall. intros l _. apply lookup_empty. }
  exists a', ls', h'. split_and!; [done|done| | |].
  - apply (vector_strings_spec h' a' ls'), Ho'.
  - intros i oldvalue Hi Hbefore.
    assert (find_key v key = i) as Hfind.
    { apply (find_key_first v key i _ Hi); [apply key_matches_entry|].
      intros j e' Hj Hje. apply not_true_is_false. intros Hm.
      apply key_matches_inv in Hm as [x ->]. by eapply Hbefore. }
    pose proof (lookup_lt_Some _ _ _ Hi) as Hlt.
    split_and!.
    + apply Hsame. lia.
    + rewrite env_update_found by lia. by rewrite Hfind.
    + rewrite env_update_found by lia. by rewrite length_insert.
  - intros Hnone.
    assert (find_key v key = length v) as Hfind.
    { apply find_key_none, Forall_forall. intros e He.
      apply not_true_is_false. intros Hm.
      apply key_matches_inv in Hm as [x ->]. by eapply Hnone. }
    rewrite env_update_absent by done. split; [done|].
    rewrite length_app. simpl. lia.
Qed.

(** ** The claims on partial_update *)

Lemma captured_in_weaken h h' env vals :
  h ⊆ h' → captured_in h env vals → captured_in h' env vals.
Proof.
  intros Hsub Hc. eapply Forall2_impl; [exact Hc|].
  intros [l|] [s|] Hl; try done. simpl in *.
  eapply lookup_weaken; [exact Hl|done].
Qed.

(** C5 (as amended).  [string_array_partial_update] returns a vector that
    is a fresh copy of the input vector to which the update of
    [string_array_single_update] has been applied once for each captured
    pair taken in order up to the first absent slot.  Every block live
    before the call is still there unchanged, the input vector and its
    strings among them, and neither the array returned nor any of its
    strings is one of those blocks. *)
Theorem string_array_partial_update_fresh apple h envp env vals v :
  vector_in h envp v → captured_in h env vals →
  ∃ r ls' h',
    string_array_partial_update apple envp env h = Some (r, h')
    ∧ owned h' r ls'
        (apply_pairs (applied_pairs (env_names apple) vals) v)
    ∧ vector_strings (Some r) h'
      = Some (Some (apply_pairs (applied_pairs (env_names apple) vals) v), h')
    ∧ h ⊆ h' ∧ outside h (r :: ls')
    ∧ vector_in h' envp v.
Proof.
  intros Hv Hc.
  destruct (string_array_partial_update_spec apple h envp env vals v Hv Hc)
    as (r & ls' & h' & Hup & Ho & Hsub & Hout).
  rewrite env_partial_update_pairs in Ho.
  exists r, ls', h'. split_and!; [done|done| |done|done|].
  - apply (vector_strings_spec h' r ls'), Ho.
  - destruct envp as [a|]; [|done]. destruct Hv as (ls & (rest & Ha) & Hs).
    exists ls. split.
    + exists rest. eapply lookup_weaken; [exact Ha|done].
    + by eapply strings_at_weaken.
Qed.

(** C6.  Applying [string_array_partial_update] to the vector it returned,
    with the same captured pairs, returns a vector with the same entries in
    the same order. *)
Theorem string_array_partial_update_idempotent apple h envp env vals v :
  vector_in h envp v → captured_in h env vals →
  ∃ r1 h1 r2 h2 w,
    string_array_partial_update apple envp env h = Some (r1, h1)
    ∧ vector_strings (Some r1) h1 = Some (Some w, h1)
    ∧ string_array_partial_update apple (Some r1) env h1 = Some (r2, h2)
    ∧ vector_strings (Some r2) h2 = Some (Some w, h2).
Proof.
  intros Hv Hc.
  destruct (string_array_partial_update_spec apple h envp env vals v Hv Hc)
    as (r1 & ls1 & h1 & Hup1 & Ho1 & Hsub1 & _).
  destruct (string_array_partial_update_spec apple h1 (Some r1) env vals
              (env_partial_update (env_names apple) vals v))
    as (r2 & ls2 & h2 & Hup2 & Ho2 & _).
  { exists ls1. apply Ho1. }
  { by eapply captured_in_weaken. }
  rewrite env_partial_update_idempotent in Ho2.
  exists r1, h1, r2, h2, (env_partial_update (env_names apple) vals v).
  split_and!; [done| |done|].
  - apply (vector_strings_spec h1 r1 ls1), Ho1.
  - apply (vector_strings_spec h2 r2 ls2), Ho2.
Qed.

(** ** Null string arrays *)

Section NullArrays.
Context (mbstowcs : string → option (list wchar_t)).

(** C10.  With a null pointer for the array, [string_array_length]
    returns 0; [string_array_copy] returns a block that was not live
    before and holds the null sentinel alone, the rest of memory as it
    was; [string_array_release] changes nothing; and [write_json_report]
    does what it does for the empty vector, which is to write nothing
    between the brackets of [cmd]. *)
Theorem string_array_null h out dir p :
  string_array_length None h = Some (0, h)
  ∧ (∃ r, string_array_copy None h = Some (r, <[r := BArr [Ptr None]]> h)
          ∧ h !! r = None)
  ∧ string_array_release None h = Some ((), h)
  ∧ write_json_report mbstowcs out None dir p
    = write_json_report mbstowcs out (Some []) dir p
  ∧ write_json_report mbstowcs out None dir p
    = match encode_in_buffer mbstowcs dir (6 * String.length dir) with
      | None => None
      | Some None =>
          Some ((-1)%Z,
                out +:+ "{ " +:+ q +:+ "pid" +:+ q +:+ ": " +:+ fmt_d p
                    +:+ ", " +:+ q +:+ "cmd" +:+ q +:+ ": [")
      | Some (Some buf) => Some (0%Z, out +:+ report_body p [] buf)
      end.
Proof.
  split_and!; [done| |done|done|].
  - exists (fresh (dom h)). split; [|apply fresh_None].
    unfold string_array_copy. simpl.
    hstep (H_ret_Some 0 h). hstep (malloc_Some h (BArr (replicate 1 Undef))).
    hstep (H_ret_Some 0 (<[fresh (dom h):=BArr (replicate 1 Undef)]> h)).
    erewrite H_bind_Some;
      [|apply (store_Some _ (fresh (dom h)) [Undef] 0);
        [apply lookup_insert_eq|simpl; lia]].
    by rewrite H_ret_Some, insert_insert_eq.
  - unfold write_json_report. simpl.
    destruct (encode_in_buffer mbstowcs dir _) as [[buf|]|]; [|done..].
    unfold report_body. simpl. by rewrite !append_assoc.
Qed.
End NullArrays.

(** ** Concrete runs *)

Lemma owned_heap_AKB :
  owned heap_AKB 4%positive [1; 2; 3]%positive ["A=1"; "KB=2"; "K=old"].
Proof.
  split; [split|].
  - by exists [].
  - by repeat constructor.
  - by apply (bool_decide_unpack _).
Qed.

Lemma string_array_single_update_position_witness :
  owned heap_AKB 4%positive [1; 2; 3]%positive ["A=1"; "KB=2"; "K=old"]
  ∧ (∃ h', string_array_single_update (Some 4%positive) "K" "new" heap_AKB
           = Some (4%positive, h')
           ∧ vector_strings (Some 4%positive) h'
             = Some (Some ["A=1"; "KB=2"; "K=new"], h'))
  ∧ (∃ a' h', string_array_single_update (Some 4%positive) "B" "3" heap_AKB
              = Some (a', h')
              ∧ vector_strings (Some a') h'
                = Some (Some ["A=1"; "KB=2"; "K=old"; "B=3"], h')).
Proof.
  split; [exact owned_heap_AKB|]. split.
  - destruct (string_array_single_update_position heap_AKB 4%positive
                [1; 2; 3]%positive ["A=1"; "KB=2"; "K=old"] "K" "new"
                owned_heap_AKB)
      as (a' & ls' & h' & Hup & _ & Hvs & Hfound & _).
    destruct (Hfound 2 "old") as (-> & Heq & _).
    + reflexivity.
    + intros [|[|j]] e x Hj He; [| |lia]; injection He as <-;
        intros Heq; compute in Heq; discriminate.
    + exists h'. split; [exact Hup|]. rewrite Heq in Hvs. exact Hvs.
  - destruct (string_array_single_update_position heap_AKB 4%positive
                [1; 2; 3]%positive ["A=1"; "KB=2"; "K=old"] "B" "3"
                owned_heap_AKB)
      as (a' & ls' & h' & Hup & _ & Hvs & _ & Habsent).
    destruct Habsent as (Heq & _).
    + intros e x He. rewrite !elem_of_cons in He.
      destruct He as [->|[->|[->|He]]];
        [intros Heq; compute in Heq; discriminate..|].
      by apply elem_of_nil in He.
    + exists a', h'. split; [exact Hup|]. rewrite Heq in Hvs. exact Hvs.
Defined.

(** C4, the claim as worded, fails for an entry that is not the first of
    its key: in the vector [K=1; K=2] index 1 holds an entry of key [K],
    and after the update with [K] and [n] it still holds [K=2]; the entry
    replaced is the one at index 0. *)
Lemma string_array_single_update_counterexample :
  owned heap_KK 3%positive [1; 2]%positive ["K=1"; "K=2"]
  ∧ ["K=1"; "K=2"] !! 1 = Some ("K" +:+ "=" +:+ "2")
  ∧ fst <$> (r ← string_array_single_update (Some 3%positive) "K" "n";
             vector_strings (Some r)) heap_KK
    = Some (Some ["K=n"; "K=2"]).
Proof.
  split_and!.
  - split; [split|].
    + by exists [].
    + by repeat constructor.
    + by apply (bool_decide_unpack _).
  - reflexivity.
  - vm_compute. reflexivity.
Qed.

Lemma vector_in_heap_env :
  vector_in heap_env (Some 3%positive) ["A=1"; "LD_PRELOAD=x"].
Proof.
  exists [1; 2]%positive. split; [by exists []|by repeat constructor].
Qed.

Lemma captured_in_heap_env :
  captured_in heap_env [Some 5; Some 6]%positive [Some "/out"; Some "lib.so"].
Proof. by repeat constructor. Qed.

Lemma string_array_partial_update_fresh_witness :
  vector_in heap_env (Some 3%positive) ["A=1"; "LD_PRELOAD=x"]
  ∧ captured_in heap_env [Some 5; Some 6]%positive
      [Some "/out"; Some "lib.so"]
  ∧ ∃ r h',
      string_array_partial_update false (Some 3%positive)
        [Some 5; Some 6]%positive heap_env = Some (r, h')
      ∧ vector_strings (Some r) h'
        = Some (Some ["A=1"; "LD_PRELOAD=lib.so";
                      "INTERCEPT_BUILD_TARGET_DIR=/out"], h')
      ∧ heap_env ⊆ h' ∧ heap_env !! r = None
      ∧ vector_in h' (Some 3%positive) ["A=1"; "LD_PRELOAD=x"].
Proof.
  split; [exact vector_in_heap_env|]. split; [exact captured_in_heap_env|].
  destruct (string_array_partial_update_fresh false heap_env
              (Some 3%positive) [Some 5; Some 6]%positive
              [Some "/out"; Some "lib.so"] ["A=1"; "LD_PRELOAD=x"]
              vector_in_heap_env captured_in_heap_env)
    as (r & ls' & h' & Hup & _ & Hvs & Hsub & Hout & Hin).
  exists r, h'. split_and!; [exact Hup|exact Hvs|exact Hsub| |exact Hin].
  by apply Forall_cons in Hout as [Hr _].
Defined.

(** C5, the claim as worded, fails for a captured environment whose first
    slot is absent: the loop stops there, and the pair of the second slot is
    not applied. *)
Lemma string_array_partial_update_counterexample :
  captured_in heap_env [None; Some 6%positive] [None; Some "lib.so"]
  ∧ fst <$> (r ← string_array_partial_update false None
                   [None; Some 6%positive];
             vector_strings (Some r)) heap_env
    = Some (Some [])
  ∧ spec_partial_update (env_names false) [None; Some "lib.so"] []
    = ["LD_PRELOAD=lib.so"].
Proof.
  split_and!; [by repeat constructor|vm_compute; reflexivity|reflexivity].
Qed.

Lemma string_array_partial_update_idempotent_witness :
  vector_in heap_env (Some 3%positive) ["A=1"; "LD_PRELOAD=x"]
  ∧ captured_in heap_env [Some 5; Some 6]%positive
      [Some "/out"; Some "lib.so"]
  ∧ ∃ r1 h1 r2 h2 w,
      string_array_partial_update false (Some 3%positive)
        [Some 5; Some 6]%positive heap_env = Some (r1, h1)
      ∧ vector_strings (Some r1) h1 = Some (Some w, h1)
      ∧ string_array_partial_update false (Some r1)
          [Some 5; Some 6]%positive h1 = Some (r2, h2)
      ∧ vector_strings (Some r2) h2 = Some (Some w, h2).
Proof.
  split; [exact vector_in_heap_env|]. split; [exact captured_in_heap_env|].
  exact (string_array_partial_update_idempotent false heap_env
           (Some 3%positive) [Some 5; Some 6]%positive
           [Some "/out"; Some "lib.so"] ["A=1"; "LD_PRELOAD=x"]
           vector_in_heap_env captured_in_heap_env).
Defined.

(** ** The process-level monad *)

Lemma M_bind_Ret {A B} (m : M A) (f : A → M B) w a w' :
  m w = Ret a w' → (m ≫= f) w = f a w'.
Proof. intros Hm. unfold mbind, M_bind. by rewrite Hm. Qed.

Lemma M_bind_assoc {A B C} (m : M A) (f : A → M B) (g : B → M C) w :
  ((m ≫= f) ≫= g) w = (m ≫= (λ x, f x ≫= g)) w.
Proof. unfold mbind, M_bind. by destruct (m w). Qed.

Lemma on_heap_Ret {A} (m : H A) w a h' :
  m (heap w) = Some (a, h') → on_heap m w = Ret a (set_heap h' w).
Proof. intros Hm. unfold on_heap. by rewrite Hm. Qed.

Lemma set_heap_same w : set_heap (heap w) w = w.
Proof. by destruct w. Qed.

(** Runs the first computation of a bind with the given equation. *)
Ltac mstep Hm := rewrite (M_bind_Ret _ _ _ _ _ Hm); cbn beta iota.

(** ** A copy and its release *)

Lemma vector_arg_strings h p o :
  vector_arg h p o → vector_strings p h = Some (o, h).
Proof.
  destruct p as [a|], o as [v|]; try done.
  intros [ls Hv]. by apply (vector_strings_spec h a ls).
Qed.

Lemma vector_arg_weaken h h' p o :
  h ⊆ h' → vector_arg h p o → vector_arg h' p o.
Proof.
  intros Hsub. destruct p as [a|], o as [v|]; try done.
  intros (ls & (rest & Ha) & Hs). exists ls. split.
  - exists rest. eapply lookup_weaken; [exact Ha|done].
  - by eapply strings_at_weaken.
Qed.

Lemma H_bind_ret_r {A} (m : H A) h : (m ≫= mret) h = m h.
Proof. unfold mbind, H_bind. by destruct (m h) as [[a h']|]. Qed.

(** With the first slot absent the update is the copy alone. *)
Lemma string_array_partial_update_first_absent apple envp env h :
  string_array_partial_update apple envp (None :: env) h
  = string_array_copy envp h.
Proof.
  unfold string_array_partial_update.
  rewrite <- (H_bind_ret_r (string_array_copy envp) h).
  unfold mbind, H_bind. destruct (string_array_copy envp h) as [[r h']|]; [|done].
  by destruct apple.
Qed.

Lemma copy_then_release h p v :
  vector_in h p v →
  ∃ r ls' h1,
    string_array_copy p h = Some (r, h1)
    ∧ owned h1 r ls' v ∧ h ⊆ h1 ∧ outside h (r :: ls')
    ∧ string_array_release (Some r) h1 = Some ((), h).
Proof.
  intros Hv.
  destruct (string_array_copy_spec h p v Hv)
    as (r & ls' & h1 & Hcopy & Hr & Hs & Hnd & Hsub & Hout & Hsame).
  assert (owned h1 r ls' v) as Ho by (split; [split|]; [by eexists|done..]).
  exists r, ls', h1. split_and!; [done..|].
  by apply (release_restores h h1 r ls' v).
Qed.

(** ** The entry points of a shim that is not armed *)

Lemma report_call_disarmed argv w :
  initialized w = false → report_call argv w = Ret () w.
Proof.
  intros Hinit. unfold report_call.
  mstep (eq_refl : get initialized w = Ret (initialized w) w).
  by rewrite Hinit.
Qed.

Lemma set_heap_set_heap h h' w : set_heap h (set_heap h' w) = set_heap h w.
Proof. reflexivity. Qed.

Section Disarmed.
Context `{Libc} (apple : bool).

Lemma call_with_envp_first_absent fp argv args envp envs env' w :
  initial_env w = None :: env' →
  vector_arg (heap w) argv args →
  vector_in (heap w) envp envs →
  call_with_envp apple fp argv envp w = Ret (fp args (Some envs)) w.
Proof.
  intros Henv Hargv Henvp. unfold call_with_envp.
  mstep (eq_refl : get initial_env w = Ret (initial_env w) w).
  rewrite Henv.
  destruct (copy_then_release (heap w) envp envs Henvp)
    as (r & ls' & h1 & Hcopy & Ho & Hsub & Hout & Hrel).
  rewrite <- (string_array_partial_update_first_absent apple envp env')
    in Hcopy.
  mstep (on_heap_Ret _ w _ _ Hcopy).
  mstep (on_heap_Ret (vector_strings argv) (set_heap h1 w) _ _
           (vector_arg_strings h1 argv args
              (vector_arg_weaken _ _ _ _ Hsub Hargv))).
  rewrite set_heap_set_heap.
  mstep (on_heap_Ret (vector_strings (Some r)) (set_heap h1 w) _ _
           (vector_strings_spec h1 r ls' envs (proj1 Ho))).
  rewrite set_heap_set_heap.
  mstep (on_heap_Ret (string_array_release (Some r)) (set_heap h1 w) _ _
           Hrel).
  by rewrite set_heap_set_heap, set_heap_same.
Qed.

Lemma call_with_environ_first_absent fp argv args envs env' w :
  initial_env w = None :: env' →
  vector_arg (heap w) argv args →
  vector_in (heap w) (environ w) envs →
  call_with_environ apple fp argv w = Ret (fp args (Some envs)) w.
Proof.
  intros Henv Hargv Henvp. unfold call_with_environ.
  mstep (eq_refl : get environ w = Ret (environ w) w).
  mstep (eq_refl : get initial_env w = Ret (initial_env w) w).
  rewrite Henv.
  destruct (copy_then_release (heap w) (environ w) envs Henvp)
    as (r & ls' & h1 & Hcopy & Ho & Hsub & Hout & Hrel).
  rewrite <- (string_array_partial_update_first_absent apple (environ w) env')
    in Hcopy.
  mstep (on_heap_Ret _ w _ _ Hcopy).
  set (w1 := set_environ (Some r) (set_heap h1 w)).
  mstep (eq_refl : modify (set_environ (Some r)) (set_heap h1 w)
                   = Ret () w1).
  mstep (on_heap_Ret (vector_strings argv) w1 _ _
           (vector_arg_strings h1 argv args
              (vector_arg_weaken _ _ _ _ Hsub Hargv))).
  change (set_heap h1 w1) with w1.
  mstep (eq_refl : get environ w1 = Ret (Some r) w1).
  mstep (on_heap_Ret (vector_strings (Some r)) w1 _ _
           (vector_strings_spec h1 r ls' envs (proj1 Ho))).
  change (set_heap h1 w1) with w1.
  mstep (eq_refl : modify (set_environ (environ w)) w1
                   = Ret () (set_environ (environ w) w1)).
  mstep (on_heap_Ret (string_array_release (Some r))
           (set_environ (environ w) w1) _ _ Hrel).
  unfold mret, M_ret. f_equal. by destruct w.
Qed.

Lemma is_vector_weaken h h' a ls v :
  h ⊆ h' → is_vector h a ls v → is_vector h' a ls v.
Proof.
  intros Hsub [(rest & Ha) Hs]. split.
  - exists rest. eapply lookup_weaken; [exact Ha|done].
  - by eapply strings_at_weaken.
Qed.

Lemma vector_in_weaken h h' p v :
  h ⊆ h' → vector_in h p v → vector_in h' p v.
Proof.
  intros Hsub. destruct p as [a|]; [|done].
  intros [ls Hv]. exists ls. by apply (is_vector_weaken h).
Qed.

(** C7 (as amended).  When the shim is not armed [report_call] changes
    nothing and makes no file.  When moreover the first captured slot, that
    of the output directory, is absent, as it is when the variable is unset
    at load, every entry point returns what the genuine function returns
    for the same path, the same arguments and the strings of the same
    environment, and leaves the state of the process, its files and its
    memory as they were.  The genuine function is always given a copy of
    the environment, which is never null: for a null [envp] or [environ] it
    gets the empty vector where a direct call would pass the null pointer.
    ([execl], [execlp] and [execle] call the genuine [execve] and [execvp]
    with the arguments they collect up to the terminating null; [execle]
    takes [envp] after it.) *)
Theorem entry_points_disarmed w env' argv args envp envs environ_strs
    arg vargs vargs_e ps strs tail tail_e sa path file search_path :
  initialized w = false →
  initial_env w = None :: env' →
  vector_arg (heap w) argv args →
  vector_in (heap w) envp envs →
  vector_in (heap w) (environ w) environ_strs →
  varargs_in (heap w) arg vargs ps strs tail →
  varargs_in (heap w) arg vargs_e ps strs (envp :: tail_e) →
  report_call argv w = Ret () w
  ∧ execve apple path argv envp w
    = Ret (real_execve path args (Some envs)) w
  ∧ execv apple path argv w
    = Ret (real_execve path args (Some environ_strs)) w
  ∧ execvpe apple file argv envp w
    = Ret (real_execvpe file args (Some envs)) w
  ∧ execvp apple file argv w
    = Ret (real_execvp file args (Some environ_strs)) w
  ∧ execvP apple file search_path argv w
    = Ret (real_execvP file search_path args (Some environ_strs)) w
  ∧ exect apple path argv envp w
    = Ret (real_exect path args (Some envs)) w
  ∧ execl apple path arg vargs w
    = Ret (real_execve path (Some strs) (Some environ_strs)) w
  ∧ execlp apple file arg vargs w
    = Ret (real_execvp file (Some strs) (Some environ_strs)) w
  ∧ execle apple path arg vargs_e w
    = Ret (real_execve path (Some strs) (Some envs)) w
  ∧ posix_spawn apple sa path argv envp w
    = Ret (real_posix_spawn sa path args (Some envs)) w
  ∧ posix_spawnp apple sa file argv envp w
    = Ret (real_posix_spawnp sa file args (Some envs)) w.
Proof.
  intros Hinit Henv Hargv Hin Hin' Hvar Hvar_e.
  pose proof (report_call_disarmed argv w Hinit) as Hrep.
  split_and!; [done|..].
  - unfold execve. mstep Hrep. by eapply call_with_envp_first_absent.
  - unfold execv. mstep Hrep.
    mstep (eq_refl : get environ w = Ret (environ w) w).
    by eapply call_with_envp_first_absent.
  - unfold execvpe. mstep Hrep. by eapply call_with_envp_first_absent.
  - unfold execvp. mstep Hrep. by eapply call_with_environ_first_absent.
  - unfold execvP. mstep Hrep. by eapply call_with_environ_first_absent.
  - unfold exect. mstep Hrep. by eapply call_with_envp_first_absent.
  - unfold execl.
    destruct (string_array_from_varargs_spec _ _ _ _ _ _ Hvar)
      as (r & ls' & h1 & Hfrom & Ho & Hsub & Hout & Hsame).
    mstep (on_heap_Ret _ w _ _ Hfrom).
    mstep (report_call_disarmed (Some r) (set_heap h1 w) Hinit).
    mstep (eq_refl : get environ (set_heap h1 w)
                     = Ret (environ w) (set_heap h1 w)).
    rewrite (M_bind_Ret _ _ _ _ _
               (call_with_envp_first_absent (real_execve path) (Some r)
                  (Some strs) (environ w) environ_strs env'
                  (set_heap h1 w) Henv
                  ltac:(by exists ls'; apply Ho)
                  (vector_in_weaken (heap w) _ _ _ Hsub Hin'))).
    cbn beta iota.
    mstep (on_heap_Ret (string_array_release (Some r)) (set_heap h1 w) _ _
             (release_restores _ _ _ _ _ Ho Hout Hsame)).
    by rewrite set_heap_set_heap, set_heap_same.
  - unfold execlp.
    destruct (string_array_from_varargs_spec _ _ _ _ _ _ Hvar)
      as (r & ls' & h1 & Hfrom & Ho & Hsub & Hout & Hsame).
    mstep (on_heap_Ret _ w _ _ Hfrom).
    mstep (report_call_disarmed (Some r) (set_heap h1 w) Hinit).
    rewrite (M_bind_Ret _ _ _ _ _
               (call_with_environ_first_absent (real_execvp file) (Some r)
                  (Some strs) environ_strs env' (set_heap h1 w) Henv
                  ltac:(by exists ls'; apply Ho)
                  (vector_in_weaken (heap w) _ _ _ Hsub Hin'))).
    cbn beta iota.
    mstep (on_heap_Ret (string_array_release (Some r)) (set_heap h1 w) _ _
             (release_restores _ _ _ _ _ Ho Hout Hsame)).
    by rewrite set_heap_set_heap, set_heap_same.
  - unfold execle.
    destruct (string_array_from_varargs_spec _ _ _ _ _ _ Hvar_e)
      as (r & ls' & h1 & Hfrom & Ho & Hsub & Hout & Hsame).
    mstep (on_heap_Ret _ w _ _ Hfrom).
    mstep (on_heap_Ret (va_arg (envp :: tail_e)) (set_heap h1 w)
             (envp, tail_e) h1 eq_refl).
    rewrite set_heap_set_heap.
    mstep (report_call_disarmed (Some r) (set_heap h1 w) Hinit).
    rewrite (M_bind_Ret _ _ _ _ _
               (call_with_envp_first_absent (real_execve path) (Some r)
                  (Some strs) envp envs env' (set_heap h1 w) Henv
                  ltac:(by exists ls'; apply Ho)
                  (vector_in_weaken (heap w) _ _ _ Hsub Hin))).
    cbn beta iota.
    mstep (on_heap_Ret (string_array_release (Some r)) (set_heap h1 w) _ _
             (release_restores _ _ _ _ _ Ho Hout Hsame)).
    by rewrite set_heap_set_heap, set_heap_same.
  - unfold posix_spawn. mstep Hrep. by eapply call_with_envp_first_absent.
  - unfold posix_spawnp. mstep Hrep. by eapply call_with_envp_first_absent.
Qed.
End Disarmed.

Lemma entry_points_disarmed_witness :
  report_call (Some 3%positive) world_disarmed = Ret () world_disarmed
  ∧ @execve probe_libc false "/bin/true" (Some 3%positive) (Some 3%positive)
      world_disarmed
    = Ret 2%Z world_disarmed
  ∧ @execv probe_libc false "/bin/true" (Some 3%positive) world_disarmed
    = Ret 2%Z world_disarmed
  ∧ @execl probe_libc false "/bin/true" (Some 1%positive)
      [Some 2%positive; None] world_disarmed
    = Ret 2%Z world_disarmed
  ∧ @execlp probe_libc false "true" (Some 1%positive)
      [Some 2%positive; None] world_disarmed
    = Ret 2%Z world_disarmed
  ∧ @execle probe_libc false "/bin/true" (Some 1%positive)
      [Some 2%positive; None; Some 3%positive] world_disarmed
    = Ret 2%Z world_disarmed
  ∧ @posix_spawn probe_libc false (SpawnArgs None None None) "/bin/true"
      (Some 3%positive) (Some 3%positive) world_disarmed
    = Ret 2%Z world_disarmed.
Proof.
  assert (is_vector (heap world_disarmed) 3%positive [1; 2]%positive
            ["A=1"; "LD_PRELOAD=x"]) as Hv.
  { split; [by exists []|by repeat constructor]. }
  destruct (@entry_points_disarmed probe_libc false world_disarmed
              [Some 6%positive] (Some 3%positive)
              (Some ["A=1"; "LD_PRELOAD=x"]) (Some 3%positive)
              ["A=1"; "LD_PRELOAD=x"] ["A=1"; "LD_PRELOAD=x"]
              (Some 1%positive) [Some 2%positive; None]
              [Some 2%positive; None; Some 3%positive] [1; 2]%positive
              ["A=1"; "LD_PRELOAD=x"] [] [] (SpawnArgs None None None)
              "/bin/true" "true" "/bin")
    as (Hrep & Hexecve & Hexecv & _ & _ & _ & _ & Hexecl & Hexeclp & Hexecle
        & Hspawn & _).
  - reflexivity.
  - reflexivity.
  - by exists [1; 2]%positive.
  - by exists [1; 2]%positive.
  - by exists [1; 2]%positive.
  - split; [reflexivity|by repeat constructor].
  - split; [reflexivity|by repeat constructor].
  - split_and!; [exact Hrep|exact Hexecve|exact Hexecv|exact Hexecl
                |exact Hexeclp|exact Hexecle|exact Hspawn].
Defined.

(** A null [envp]: the genuine function is given the empty vector, not the
    null pointer. *)
Example execve_null_envp :
  @execve probe_libc false "/bin/true" (Some 3%positive) None world_disarmed
  = Ret (@real_execve probe_libc "/bin/true"
           (Some ["A=1"; "LD_PRELOAD=x"]) (Some [])) world_disarmed.
Proof.
  unfold execve.
  mstep (report_call_disarmed (Some 3%positive) world_disarmed eq_refl).
  apply (call_with_envp_first_absent false _ (Some 3%positive)
           (Some ["A=1"; "LD_PRELOAD=x"]) None [] [Some 6%positive]);
    [reflexivity| |reflexivity].
  exists [1; 2]%positive. split; [by exists []|by repeat constructor].
Qed.

(** C7, the claim as worded, fails for a shim that is not armed but has
    its first slot: with the output directory set and the preload variable
    unset, loading leaves the flag false and keeps the directory, and
    [execve] then gives the genuine function an environment with one more
    entry than the caller passed. *)
Lemma entry_points_disarmed_counterexample :
  match on_load false (Some mbstowcs_utf8) (λ _, true)
          (world_at_start heap_no_preload [None; None]) with
  | Ret _ w1 =>
      initialized w1 = false
      ∧ vector_arg (heap w1) (Some 5%positive) (Some ["A=1"])
      ∧ returned (@execve probe_libc false "/bin/true" (Some 5%positive)
                    (Some 5%positive) w1) = Some 2%Z
      ∧ @real_execve probe_libc "/bin/true" (Some ["A=1"]) (Some ["A=1"])
        = 1%Z
  | _ => False
  end.
Proof.
  vm_compute.
  split_and!; [reflexivity| |reflexivity|reflexivity].
  exists [4%positive]. split; [by exists []|by repeat constructor].
Qed.

(** ** Load and unload *)

Lemma getenv_spec name w entries :
  vector_in (heap w) (environ w) entries →
  getenv name w = Ret (getenv_in entries name) w.
Proof.
  intros Hv. unfold getenv.
  mstep (eq_refl : get environ w = Ret (environ w) w).
  destruct (environ w) as [a|]; simpl in Hv.
  - destruct Hv as [ls Hv].
    mstep (on_heap_Ret (vector_strings (Some a)) w _ _
             (vector_strings_spec _ _ _ _ Hv)).
    by rewrite set_heap_same.
  - subst entries.
    mstep (on_heap_Ret (vector_strings None) w None (heap w) eq_refl).
    by rewrite set_heap_same.
Qed.

Lemma capture_env_t_loop_spec strdup_ok entries w0 names :
  ∀ it status h env,
    vector_in h (environ w0) entries →
    it + length names ≤ length env →
    ∃ h' env' status',
      capture_env_t_loop strdup_ok names it status
        (set_initial_env env (set_heap h w0))
      = Ret status' (set_initial_env env' (set_heap h' w0))
      ∧ h ⊆ h' ∧ length env' = length env
      ∧ (∀ j, j < it → env' !! j = env !! j)
      ∧ (∀ j name, names !! j = Some name →
           match captured_value entries strdup_ok (it + j) name with
           | Some v => ∃ l, env' !! (it + j) = Some (Some l)
                            ∧ h' !! l = Some (BStr v)
           | None => env' !! (it + j) = Some None
           end)
      ∧ (status' = true ↔
         status = true
         ∧ ∀ j name, names !! j = Some name →
             is_Some (captured_value entries strdup_ok (it + j) name)).
Proof.
  induction names as [|name names IH]; intros it status h env Hv Hlen.
  { exists h, env, status. split_and!; [done..|]. split.
    - intros ->. split; [done|]. intros j name Hname.
      by rewrite lookup_nil in Hname.
    - by intros [-> _]. }
  simpl in Hlen. cbn [capture_env_t_loop].
  mstep (getenv_spec name (set_initial_env env (set_heap h w0)) entries Hv).
  (* the slot and the heap after the copy *)
  assert (∃ h1 copy,
    (match getenv_in entries name with
     | Some v =>
         if strdup_ok it
         then on_heap (c ← malloc (BStr v); mret (Some c))
         else mret None
     | None => mret None
     end) (set_initial_env env (set_heap h w0))
    = Ret copy (set_initial_env env (set_heap h1 w0))
    ∧ h ⊆ h1
    ∧ match captured_value entries strdup_ok it name with
      | Some v => ∃ l, copy = Some l ∧ h1 !! l = Some (BStr v)
      | None => copy = None
      end) as (h1 & copy & Hcopy & Hsub1 & Hcap).
  { unfold captured_value.
    destruct (getenv_in entries name) as [v|], (strdup_ok it);
      try (by exists h, None).
    exists (<[fresh (dom h) := BStr v]> h), (Some (fresh (dom h))).
    split_and!; [done|apply insert_subseteq, fresh_None|].
    eexists. split; [done|apply lookup_insert_eq]. }
  mstep Hcopy.
  mstep (eq_refl : modify (λ w, set_initial_env
                                  (<[it := copy]> (initial_env w)) w)
                     (set_initial_env env (set_heap h1 w0))
                   = Ret () (set_initial_env (<[it := copy]> env)
                                             (set_heap h1 w0))).
  destruct (IH (S it) (status && bool_decide (is_Some copy)) h1
              (<[it := copy]> env))
    as (h' & env' & status' & Hloop & Hsub & Hlen' & Hbefore & Hslots & Hst).
  { by apply (vector_in_weaken h). }
  { rewrite length_insert. lia. }
  exists h', env', status'. rewrite Hloop. split_and!.
  - done.
  - by etrans.
  - by rewrite Hlen', length_insert.
  - intros j Hj. rewrite Hbefore by lia. apply list_lookup_insert_ne. lia.
  - intros [|j] name' Hname; simpl in Hname.
    + injection Hname as <-. rewrite Nat.add_0_r.
      rewrite Hbefore by lia. rewrite list_lookup_insert_eq by lia.
      destruct (captured_value entries strdup_ok it name) as [v|].
      * destruct Hcap as (l & -> & Hl). exists l. split; [done|].
        eapply lookup_weaken; [exact Hl|done].
      * by rewrite Hcap.
    + rewrite <- Nat.add_succ_comm. by apply Hslots.
  - rewrite Hst, andb_true_iff, bool_decide_eq_true. split.
    + intros [[Hs Hcopy'] Hrest]. split; [done|].
      intros [|j] name' Hname; simpl in Hname.
      * injection Hname as <-. rewrite Nat.add_0_r.
        destruct (captured_value entries strdup_ok it name); [done|].
        subst copy. by destruct Hcopy'.
      * rewrite <- Nat.add_succ_comm. by apply Hrest.
    + intros [Hs Hall]. split_and!; [done| |].
      * specialize (Hall 0 name eq_refl). rewrite Nat.add_0_r in Hall.
        destruct (captured_value entries strdup_ok it name); [|by destruct Hall].
        destruct Hcap as (l & -> & _). done.
      * intros j name' Hname. rewrite Nat.add_succ_comm.
        by apply (Hall (S j)).
Qed.

Lemma on_unload_disarmed apple w :
  initialized w = false → on_unload apple w = Ret () w.
Proof.
  intros Hinit. unfold on_unload.
  mstep (eq_refl : get initialized w = Ret (initialized w) w).
  rewrite Hinit. destruct w. simpl in *. by subst.
Qed.

(** C8 (as amended).  If the capture of a slot fails at load, because the
    variable is unset or its copy finds no memory, the shim is not armed,
    and every slot whose capture succeeded, before or after the failing
    one, holds a copy of its value.  Unload then releases nothing: it
    leaves the slots and their strings as they are.  (The slots are freed
    and set back to null by an unload that finds the shim armed.) *)
Theorem capture_failure_keeps_slots apple lc strdup_ok w entries j0 name0 :
  initialized w = false →
  length (initial_env w) = ENV_SIZE apple →
  vector_in (heap w) (environ w) entries →
  env_names apple !! j0 = Some name0 →
  captured_value entries strdup_ok j0 name0 = None →
  ∃ w1,
    on_load apple (Some lc) strdup_ok w = Ret () w1
    ∧ initialized w1 = false
    ∧ (∀ j name value,
         env_names apple !! j = Some name →
         captured_value entries strdup_ok j name = Some value →
         ∃ l, initial_env w1 !! j = Some (Some l)
              ∧ heap w1 !! l = Some (BStr value))
    ∧ on_unload apple w1 = Ret () w1.
Proof.
  intros Hinit Hlen Hv Hj0 Hfail. unfold on_load.
  mstep (eq_refl : get initialized w = Ret (initialized w) w).
  rewrite Hinit. unfold mt_safe_on_load. rewrite !M_bind_assoc.
  mstep (eq_refl : modify (set_utf_locale (Some lc)) w
                   = Ret () (set_utf_locale (Some lc) w)).
  rewrite !M_bind_assoc. unfold capture_env_t.
  set (wl := set_utf_locale (Some lc) w).
  destruct (capture_env_t_loop_spec strdup_ok entries wl (env_names apple)
              0 true (heap w) (initial_env w))
    as (h' & env' & status' & Hloop & Hsub & Hlen' & _ & Hslots & Hst).
  { done. }
  { simpl. unfold ENV_SIZE in Hlen. lia. }
  change (set_initial_env (initial_env w) (set_heap (heap w) wl)) with wl
    in Hloop.
  mstep Hloop.
  assert (status' = false) as ->.
  { apply not_true_is_false. intros [_ Hall]%Hst.
    specialize (Hall j0 name0 Hj0). simpl in Hall. rewrite Hfail in Hall.
    by destruct Hall. }
  cbn beta iota.
  exists (set_initial_env env' (set_heap h' wl)). split_and!.
  - done.
  - done.
  - intros j name value Hname Hcap. specialize (Hslots j name Hname).
    simpl in Hslots. by rewrite Hcap in Hslots.
  - by apply on_unload_disarmed.
Qed.

Lemma capture_failure_keeps_slots_witness :
  vector_in heap_no_preload (Some 3%positive)
    ["INTERCEPT_BUILD_TARGET_DIR=/out"; "B=2"]
  ∧ captured_value ["INTERCEPT_BUILD_TARGET_DIR=/out"; "B=2"] (λ _, true)
      1 "LD_PRELOAD" = None
  ∧ captured_value ["INTERCEPT_BUILD_TARGET_DIR=/out"; "B=2"] (λ _, true)
      0 ENV_OUTPUT = Some "/out"
  ∧ ∃ w1 l,
      on_load false (Some mbstowcs_utf8) (λ _, true)
        (world_at_start heap_no_preload [None; None]) = Ret () w1
      ∧ initialized w1 = false
      ∧ initial_env w1 !! 0 = Some (Some l)
      ∧ heap w1 !! l = Some (BStr "/out")
      ∧ on_unload false w1 = Ret () w1.
Proof.
  assert (vector_in heap_no_preload (Some 3%positive)
            ["INTERCEPT_BUILD_TARGET_DIR=/out"; "B=2"]) as Hv.
  { exists [1; 2]%positive. split; [by exists []|by repeat constructor]. }
  split; [exact Hv|]. split; [reflexivity|]. split; [reflexivity|].
  destruct (capture_failure_keeps_slots false mbstowcs_utf8 (λ _, true)
              (world_at_start heap_no_preload [None; None])
              ["INTERCEPT_BUILD_TARGET_DIR=/out"; "B=2"] 1 "LD_PRELOAD"
              eq_refl eq_refl Hv eq_refl eq_refl)
    as (w1 & Hload & Hinit & Hslots & Hunload).
  destruct (Hslots 0 ENV_OUTPUT "/out" eq_refl eq_refl) as (l & Hl & Hs).
  exists w1, l. split_and!; [exact Hload|exact Hinit|exact Hl|exact Hs
                            |exact Hunload].
Defined.

(** C8, the claim as worded, fails in its last part: after a load whose
    capture failed (no preload variable) and the unload, the slot of the
    output directory still holds its pointer and the string is still
    allocated; nothing was freed or set back to null. *)
Lemma capture_failure_keeps_slots_counterexample :
  match on_load false (Some mbstowcs_utf8) (λ _, true)
          (world_at_start heap_no_preload [None; None]) with
  | Ret _ w1 =>
      match on_unload false w1 with
      | Ret _ w2 =>
          initialized w1 = false
          ∧ initial_env w2 = [Some 6%positive; None]
          ∧ heap w2 !! 6%positive = Some (BStr "/out")
      | _ => False
      end
  | _ => False
  end.
Proof. vm_compute. split_and!; reflexivity. Qed.

(** An armed run, for comparison: with both variables set the shim is
    armed, [execve] writes one report and gives the genuine function the
    two variables of the environment, and the unload frees the slots and
    sets them back to null. *)
Example armed_run :
  match on_load false (Some mbstowcs_utf8) (λ _, true)
          (world_at_start heap_both [None; None]) with
  | Ret _ w1 =>
      match @execve probe_libc false "/usr/bin/cc" (Some 7%positive)
              (Some 3%positive) w1 with
      | Ret r w2 =>
          match on_unload false w2 with
          | Ret _ w3 =>
              initialized w1 = true
              ∧ initial_env w1 = [Some 8%positive; Some 9%positive]
              ∧ r = 2%Z
              ∧ files w2
                = [("/out/execution.aaaaaa",
                    report_body 4242 ["cc"; "-c"; "a.c"] "/tmp")]
              ∧ heap w2 = heap w1
              ∧ initialized w3 = false
              ∧ initial_env w3 = [None; None]
              ∧ heap w3 = heap_both
          | _ => False
          end
      | _ => False
      end
  | _ => False
  end.
Proof. vm_compute. split_and!; reflexivity. Qed.

(* ===================================================================== *)
(** * Part III: further properties of the unit                            *)
(* ===================================================================== *)

(** ** The key test and the lookup of a variable *)

(** X1.  The test of the scanning loop of [string_array_single_update]
    ([strncmp] on the length of the key, a longer entry, an equals sign
    after the key) accepts an entry exactly when the entry is the key, an
    equals sign and some value. *)
Theorem key_matches_exact entry key :
  key_matches entry key = true ↔ ∃ value, entry = key +:+ "=" +:+ value.
Proof.
  split; [apply key_matches_inv|]. intros [value ->]. apply key_matches_entry.
Qed.

Lemma append_length s1 s2 :
  String.length (s1 +:+ s2) = String.length s1 + String.length s2.
Proof.
  induction s1 as [|a s1 IH]; [done|]. rewrite append_cons. simpl. by rewrite IH.
Qed.

Lemma substring_all s : substring 0 (String.length s) s = s.
Proof. induction s as [|a s IH]; [done|]. simpl. by rewrite IH. Qed.

Lemma substring_append s1 s2 :
  substring (String.length s1) (String.length s2) (s1 +:+ s2) = s2.
Proof.
  induction s1 as [|a s1 IH]; [apply substring_all|].
  rewrite append_cons. simpl. apply IH.
Qed.

Lemma getenv_in_head key value v :
  getenv_in ((key +:+ "=" +:+ value) :: v) key = Some value.
Proof.
  simpl. rewrite key_matches_entry. f_equal.
  rewrite <- append_assoc.
  replace (S (String.length key)) with (String.length (key +:+ "="))
    by (rewrite append_length; simpl; lia).
  rewrite (append_length (key +:+ "=") value).
  replace (String.length (key +:+ "=") + String.length value
           - String.length (key +:+ "=")) with (String.length value) by lia.
  apply substring_append.
Qed.

Lemma getenv_in_env_update v key value :
  getenv_in (env_update v key value) key = Some value.
Proof.
  induction v as [|e v IH]; simpl env_update.
  - apply getenv_in_head.
  - destruct (key_matches e key) eqn:He.
    + apply getenv_in_head.
    + simpl. by rewrite He.
Qed.

Lemma getenv_in_env_update_other v key value key' :
  no_equals key = true → no_equals key' = true → key ≠ key' →
  getenv_in (env_update v key value) key' = getenv_in v key'.
Proof.
  intros Hk Hk' Hne. induction v as [|e v IH]; simpl env_update.
  - simpl. by rewrite key_matches_other.
  - destruct (key_matches e key) eqn:He.
    + apply key_matches_inv in He as [x ->]. simpl.
      by rewrite !key_matches_other.
    + simpl. by rewrite IH.
Qed.

(** X2.  After [string_array_single_update] the lookup of the key in the
    vector returned gives the new value, and the lookup of any other key
    gives what it gave before (for keys without an equals sign).  The
    lookup is that of [getenv]: the value of the first entry that is the
    name, an equals sign and a value. *)
Theorem string_array_single_update_lookup h a ls v key value :
  owned h a ls v →
  ∃ a' h' w,
    string_array_single_update (Some a) key value h = Some (a', h')
    ∧ vector_strings (Some a') h' = Some (Some w, h')
    ∧ getenv_in w key = Some value
    ∧ ∀ key', no_equals key = true → no_equals key' = true → key ≠ key' →
              getenv_in w key' = getenv_in v key'.
Proof.
  intros Ho.
  destruct (string_array_single_update_spec h ∅ a ls v key value Ho)
    as (a' & ls' & h' & Hup & Ho' & _).
  { apply map_empty_subseteq. }
  { apply Forall_forall. intros l _. apply lookup_empty. }
  exists a', h', (env_update v key value). split_and!.
  - done.
  - apply (vector_strings_spec h' a' ls'), Ho'.
  - apply getenv_in_env_update.
  - intros key' Hk Hk' Hne. by apply getenv_in_env_update_other.
Qed.

Lemma string_array_single_update_lookup_witness :
  owned heap_AKB 4%positive [1; 2; 3]%positive ["A=1"; "KB=2"; "K=old"]
  ∧ ∃ a' h' w,
      string_array_single_update (Some 4%positive) "K" "new" heap_AKB
      = Some (a', h')
      ∧ vector_strings (Some a') h' = Some (Some w, h')
      ∧ getenv_in w "K" = Some "new"
      ∧ getenv_in w "KB" = Some "2".
Proof.
  split; [exact owned_heap_AKB|].
  destruct (string_array_single_update_lookup heap_AKB 4%positive
              [1; 2; 3]%positive ["A=1"; "KB=2"; "K=old"] "K" "new"
              owned_heap_AKB)
    as (a' & h' & w & Hup & Hvs & Hget & Hother).
  exists a', h', w. split_and!; [exact Hup|exact Hvs|exact Hget|].
  rewrite (Hother "KB" eq_refl eq_refl); [reflexivity|discriminate].
Defined.

(** ** What the updated environment gives a child *)

Lemma getenv_in_apply_pairs_other ps v key :
  no_equals key = true →
  Forall (λ p, no_equals p.1 = true ∧ p.1 ≠ key) ps →
  getenv_in (apply_pairs ps v) key = getenv_in v key.
Proof.
  intros Hk Hps. revert v.
  induction Hps as [|p ps [Hp Hne] _ IH]; intros v; [done|].
  change (apply_pairs (p :: ps) v)
    with (apply_pairs ps (env_update v p.1 p.2)).
  rewrite IH. by apply getenv_in_env_update_other.
Qed.

Lemma getenv_in_apply_pairs ps v key value :
  Forall (λ p, no_equals p.1 = true) ps → NoDup (ps.*1) →
  (key, value) ∈ ps →
  getenv_in (apply_pairs ps v) key = Some value.
Proof.
  intros Hps. revert v.
  induction Hps as [|p ps Hp Hps IH]; intros v Hnd Hin.
  { by apply elem_of_nil in Hin. }
  rewrite fmap_cons in Hnd. apply NoDup_cons in Hnd as [Hnotin Hnd].
  change (apply_pairs (p :: ps) v)
    with (apply_pairs ps (env_update v p.1 p.2)).
  apply elem_of_cons in Hin as [<-|Hin].
  - simpl in *. rewrite getenv_in_apply_pairs_other.
    + apply getenv_in_env_update.
    + done.
    + apply Forall_forall. intros p' Hp'. split.
      * by apply (proj1 (Forall_forall _ _) Hps).
      * intros Heq. apply Hnotin. rewrite <- Heq.
        by apply list_elem_of_fmap_2.
  - by apply IH.
Qed.

Lemma applied_pairs_full names xs j name x :
  names !! j = Some name → xs !! j = Some x →
  (name, x) ∈ applied_pairs names (Some <$> xs).
Proof.
  revert xs j. induction names as [|n names IH]; intros xs j Hn Hx; [done|].
  destruct xs as [|x0 xs]; [done|]. simpl.
  destruct j as [|j]; simpl in *.
  - injection Hn as ->. injection Hx as ->. apply elem_of_cons. by left.
  - apply elem_of_cons. right. by eapply IH.
Qed.

Lemma applied_pairs_keys names vals p :
  p ∈ applied_pairs names vals → p.1 ∈ names.
Proof.
  revert vals. induction names as [|n names IH]; intros vals Hp.
  { by apply elem_of_nil in Hp. }
  destruct vals as [|[x|] vals]; simpl in Hp;
    try (by apply elem_of_nil in Hp).
  apply elem_of_cons in Hp as [->|Hp]; apply elem_of_cons; [by left|].
  right. by eapply IH.
Qed.

(** X3.  The environment [string_array_partial_update] makes from fully
    captured slots gives every captured variable its captured value, so
    that a child that looks the variables up at load finds what its parent
    captured; and the lookup of a variable that is none of the names of the
    unit (and has no equals sign in its name) gives what it gave in the
    input vector.  The input vector and the captured strings stay as they
    were. *)
Theorem string_array_partial_update_lookup apple h envp env xs v :
  vector_in h envp v → captured_in h env (Some <$> xs) →
  ∃ r h' w,
    string_array_partial_update apple envp env h = Some (r, h')
    ∧ vector_strings (Some r) h' = Some (Some w, h')
    ∧ h ⊆ h'
    ∧ (∀ j name x,
         env_names apple !! j = Some name → xs !! j = Some x →
         getenv_in w name = Some x)
    ∧ (∀ key, no_equals key = true → key ∉ env_names apple →
              getenv_in w key = getenv_in v key).
Proof.
  intros Hv Hc.
  destruct (string_array_partial_update_spec apple h envp env
              (Some <$> xs) v Hv Hc)
    as (r & ls' & h' & Hup & Ho & Hsub & _).
  rewrite env_partial_update_pairs in Ho.
  destruct (applied_pairs_names apple (Some <$> xs)) as [Hne Hnd].
  eexists r, h', _. split_and!; [done| |done| |].
  - apply (vector_strings_spec h' r ls'), Ho.
  - intros j name x Hname Hx. apply getenv_in_apply_pairs; [done..|].
    by eapply applied_pairs_full.
  - intros key Hk Hnotin. apply getenv_in_apply_pairs_other; [done|].
    apply Forall_forall. intros p Hp. split.
    + by apply (proj1 (Forall_forall _ _) Hne).
    + intros Heq. apply Hnotin. rewrite <- Heq.
      by eapply applied_pairs_keys.
Qed.

Lemma string_array_partial_update_lookup_witness :
  vector_in heap_env (Some 3%positive) ["A=1"; "LD_PRELOAD=x"]
  ∧ captured_in heap_env [Some 5; Some 6]%positive
      (Some <$> ["/out"; "lib.so"])
  ∧ ∃ r h' w,
      string_array_partial_update false (Some 3%positive)
        [Some 5; Some 6]%positive heap_env = Some (r, h')
      ∧ vector_strings (Some r) h' = Some (Some w, h')
      ∧ getenv_in w "INTERCEPT_BUILD_TARGET_DIR" = Some "/out"
      ∧ getenv_in w "LD_PRELOAD" = Some "lib.so"
      ∧ getenv_in w "A" = Some "1".
Proof.
  split; [exact vector_in_heap_env|]. split; [exact captured_in_heap_env|].
  destruct (string_array_partial_update_lookup false heap_env
              (Some 3%positive) [Some 5; Some 6]%positive ["/out"; "lib.so"]
              ["A=1"; "LD_PRELOAD=x"] vector_in_heap_env
              captured_in_heap_env)
    as (r & h' & w & Hup & Hvs & _ & Hcap & Hother).
  exists r, h', w.
  split_and!; [exact Hup|exact Hvs
              |exact (Hcap 0 _ _ eq_refl eq_refl)
              |exact (Hcap 1 _ _ eq_refl eq_refl)|].
  rewrite (Hother "A" eq_refl); [reflexivity|].
  intros Hin. cbv [env_names] in Hin. rewrite !elem_of_cons in Hin.
  destruct Hin as [Heq|[Heq|Hin]]; [discriminate..|].
  by apply elem_of_nil in Hin.
Defined.

(** ** Copies, collected arguments and their release *)

(** X4.  [string_array_copy] returns a block that was not live before,
    also for a null vector (the copy of which is an empty vector, not
    null); a reader of the copy sees the strings of the input, in order;
    what was live stays as it was; and [string_array_release] of the copy
    leaves the memory exactly as it was before the copy. *)
Theorem string_array_copy_release h p v :
  vector_in h p v →
  ∃ r h1,
    string_array_copy p h = Some (r, h1)
    ∧ h !! r = None ∧ h ⊆ h1
    ∧ vector_strings (Some r) h1 = Some (Some v, h1)
    ∧ string_array_length (Some r) h1 = Some (length v, h1)
    ∧ string_array_release (Some r) h1 = Some ((), h).
Proof.
  intros Hv.
  destruct (copy_then_release h p v Hv)
    as (r & ls' & h1 & Hcopy & Ho & Hsub & Hout & Hrel).
  exists r, h1. split_and!; [done| |done| | |done].
  - by apply Forall_cons in Hout as [Hr _].
  - apply (vector_strings_spec h1 r ls'), Ho.
  - apply string_array_length_spec. exists ls'. apply Ho.
Qed.

Lemma string_array_copy_release_witness :
  vector_in heap_env (Some 3%positive) ["A=1"; "LD_PRELOAD=x"]
  ∧ ∃ r h1,
      string_array_copy (Some 3%positive) heap_env = Some (r, h1)
      ∧ heap_env !! r = None ∧ heap_env ⊆ h1
      ∧ vector_strings (Some r) h1 = Some (Some ["A=1"; "LD_PRELOAD=x"], h1)
      ∧ string_array_length (Some r) h1 = Some (2, h1)
      ∧ string_array_release (Some r) h1 = Some ((), heap_env).
Proof.
  split; [exact vector_in_heap_env|].
  exact (string_array_copy_release heap_env (Some 3%positive)
           ["A=1"; "LD_PRELOAD=x"] vector_in_heap_env).
Defined.

(** X5.  [string_array_from_varargs] collects the variadic arguments up to
    the terminating null into a vector that was not live before, whose
    strings are copies of the arguments in order, and leaves the arguments
    after the null to the caller; [string_array_release] of the vector
    leaves the memory exactly as it was before. *)
Theorem string_array_from_varargs_release h arg args ps strs tail :
  varargs_in h arg args ps strs tail →
  ∃ r h1,
    string_array_from_varargs arg args h = Some ((r, tail), h1)
    ∧ h !! r = None ∧ h ⊆ h1
    ∧ vector_strings (Some r) h1 = Some (Some strs, h1)
    ∧ string_array_release (Some r) h1 = Some ((), h).
Proof.
  intros Hv.
  destruct (string_array_from_varargs_spec h arg args ps strs tail Hv)
    as (r & ls' & h1 & Hfrom & Ho & Hsub & Hout & Hsame).
  exists r, h1. split_and!; [done| |done| |].
  - by apply Forall_cons in Hout as [Hr _].
  - apply (vector_strings_spec h1 r ls'), Ho.
  - by apply (release_restores h h1 r ls' strs).
Qed.

Lemma string_array_from_varargs_release_witness :
  varargs_in heap_both (Some 4%positive)
    [Some 5%positive; Some 6%positive; None; Some 3%positive]
    [4; 5; 6]%positive ["cc"; "-c"; "a.c"] [Some 3%positive]
  ∧ ∃ r h1,
      string_array_from_varargs (Some 4%positive)
        [Some 5%positive; Some 6%positive; None; Some 3%positive] heap_both
      = Some ((r, [Some 3%positive]), h1)
      ∧ heap_both !! r = None ∧ heap_both ⊆ h1
      ∧ vector_strings (Some r) h1 = Some (Some ["cc"; "-c"; "a.c"], h1)
      ∧ string_array_release (Some r) h1 = Some ((), heap_both).
Proof.
  assert (varargs_in heap_both (Some 4%positive)
            [Some 5%positive; Some 6%positive; None; Some 3%positive]
            [4; 5; 6]%positive ["cc"; "-c"; "a.c"] [Some 3%positive]) as Hv.
  { split; [reflexivity|by repeat constructor]. }
  split; [exact Hv|].
  exact (string_array_from_varargs_release heap_both (Some 4%positive)
           [Some 5%positive; Some 6%positive; None; Some 3%positive]
           [4; 5; 6]%positive ["cc"; "-c"; "a.c"] [Some 3%positive] Hv).
Defined.

(** X6.  On a null vector [string_array_single_update] makes a vector of
    the one entry: the scan is skipped, the length is zero and [realloc]
    of the null pointer allocates.  Nothing that was live is touched. *)
Theorem string_array_single_update_null h key value :
  ∃ r l h',
    string_array_single_update None key value h = Some (r, h')
    ∧ owned h' r [l] [key +:+ "=" +:+ value]
    ∧ h' !! r = Some (BArr [Ptr (Some l); Ptr None])
    ∧ outside h [r; l]
    ∧ ∀ l', l' ∉ [r; l] → h' !! l' = h !! l'.
Proof.
  set (e := fresh (dom h)).
  set (h1 := <[e := BStr (key +:+ "=" +:+ value)]> h).
  set (r := fresh (dom h1)).
  pose proof (fresh_None h) as He. fold e in He.
  pose proof (fresh_None h1) as Hr. fold r in Hr.
  assert (r ≠ e) as Hre.
  { intros Heq. rewrite Heq in Hr. unfold h1 in Hr.
    by rewrite lookup_insert_eq in Hr. }
  assert (h !! r = None) as Hhr.
  { unfold h1 in Hr. by rewrite lookup_insert_ne in Hr. }
  set (h2 := <[r := BArr (replicate 2 Undef)]> h1).
  set (h3 := <[r := BArr (<[0 := Ptr (Some e)]> (replicate 2 Undef))]> h2).
  set (h4 := <[r := BArr (<[1 := Ptr None]>
                            (<[0 := Ptr (Some e)]> (replicate 2 Undef)))]> h3).
  exists r, e, h4. split_and!.
  - unfold string_array_single_update.
    hstep (H_ret_Some (None : option (loc * nat)) h).
    hstep (malloc_Some h (BStr (key +:+ "=" +:+ value))).
    fold e h1.
    hstep (H_ret_Some (None : option loc) h1).
    hstep (H_ret_Some 0 h1).
    hstep (malloc_Some h1 (BArr (replicate 2 Undef))). fold r h2.
    assert (h2 !! r = Some (BArr (replicate 2 Undef))) as H2
      by apply lookup_insert_eq.
    hstep (store_Some h2 r _ 0 (Some e) H2 ltac:(simpl; lia)). fold h3.
    assert (h3 !! r
            = Some (BArr (<[0 := Ptr (Some e)]> (replicate 2 Undef)))) as H3
      by apply lookup_insert_eq.
    hstep (store_Some h3 r _ 1 None H3 ltac:(simpl; lia)). fold h4.
    reflexivity.
  - split; [split|].
    + exists []. apply lookup_insert_eq.
    + constructor; [|constructor]. unfold h4, h3, h2, h1.
      rewrite !lookup_insert_ne by done. apply lookup_insert_eq.
    + apply NoDup_singleton.
  - apply lookup_insert_eq.
  - by repeat constructor.
  - intros l' Hl'. apply not_elem_of_cons in Hl' as [Hl'r Hl'].
    apply not_elem_of_cons in Hl' as [Hl'e _].
    unfold h4, h3, h2, h1. by rewrite !lookup_insert_ne by done.
Qed.

(** ** The update, exactly *)

(** The loop of [string_array_partial_update] with the part of the memory
    it leaves alone: outside of the vector it returns, the memory is that
    of the heap [hf] the call started in. *)
Lemma string_array_partial_update_loop_exact hf names :
  ∀ env vals h a ls v,
    owned h a ls v → hf ⊆ h → outside hf (a :: ls) →
    (∀ l, l ∉ a :: ls → h !! l = hf !! l) →
    captured_in hf env vals →
    ∃ a' ls' h',
      string_array_partial_update_loop names env a h = Some (a', h')
      ∧ owned h' a' ls' (env_partial_update names vals v)
      ∧ hf ⊆ h' ∧ outside hf (a' :: ls')
      ∧ (∀ l, l ∉ a' :: ls' → h' !! l = hf !! l).
Proof.
  induction names as [|name names IH];
    intros env vals h a ls v Ho Hsub Hout Hsame Hc.
  { exists a, ls, h. by destruct env, vals. }
  destruct Hc as [|p o env vals Hp Hc]; [by exists a, ls, h|].
  destruct p as [p|], o as [s|]; try done; [|by exists a, ls, h].
  simpl.
  assert (h !! p = Some (BStr s)) as Hhp
    by (eapply lookup_weaken; [exact Hp|done]).
  hstep (read_str_Some _ _ _ Hhp).
  destruct (string_array_single_update_exact h hf a ls v name s Ho Hsub Hout)
    as (a1 & ls1 & h1 & Hup & Ho1 & Hsub1 & Hout1 & _ & Hframe & Hfreed).
  hstep Hup. apply (IH env vals h1 a1 ls1); try done.
  intros l Hl. destruct (decide (l ∈ a :: ls)) as [Hin|Hnin].
  - rewrite Hfreed by done.
    symmetry. by apply (proj1 (Forall_forall _ _) Hout).
  - rewrite Hframe by done. by apply Hsame.
Qed.

(** The vector [string_array_partial_update] returns and its release: the
    memory is then exactly what it was before the update. *)
Lemma string_array_partial_update_exact apple h envp env vals v :
  vector_in h envp v → captured_in h env vals →
  ∃ r ls' h',
    string_array_partial_update apple envp env h = Some (r, h')
    ∧ owned h' r ls' (env_partial_update (env_names apple) vals v)
    ∧ h ⊆ h' ∧ outside h (r :: ls')
    ∧ string_array_release (Some r) h' = Some ((), h).
Proof.
  intros Hv Hc. unfold string_array_partial_update.
  destruct (string_array_copy_spec h envp v Hv)
    as (r & ls & h1 & Hcopy & Hr & Hs & Hnd & Hsub & Hout & Hsame).
  hstep Hcopy.
  destruct (string_array_partial_update_loop_exact h (env_names apple)
              env vals h1 r ls v)
    as (a' & ls' & h' & Hloop & Ho & Hsub' & Hout' & Hsame'); try done.
  { split; [split|]; [by eexists|done|done]. }
  exists a', ls', h'. split_and!; [done..|].
  by eapply release_restores.
Qed.

(** ** The encoder and the size of its buffer *)

(** X7.  For a string of code points below 65536 the encoder returns 0
    exactly when the buffer has room for the escapes and the terminating
    zero, and -1 otherwise, in which case [write_json_report] is told to
    give up. *)
Theorem encode_json_string_fits mbstowcs src wsrc dst_size :
  mbstowcs src = Some wsrc →
  Forall (λ c, (0 ≤ c < 65536)%Z) wsrc →
  enc_ret (encode_json_string mbstowcs src dst_size)
  = (if decide (length (escaped_text json_escape wsrc) < dst_size)
     then 0%Z else (-1)%Z)
  ∧ (dst_size ≤ length (escaped_text json_escape wsrc) →
     encode_in_buffer mbstowcs src dst_size = Some None).
Proof.
  intros Hmb Hall. split.
  - destruct (decide _) as [Hfit|Hshort].
    + destruct (encode_in_buffer_bmp mbstowcs src wsrc dst_size Hmb Hall Hfit)
        as [-> _]. done.
    + unfold encode_json_string. rewrite Hmb.
      apply encode_loop_bmp_short; [done|]. simpl. lia.
  - intros Hshort. unfold encode_in_buffer, encode_json_string. rewrite Hmb.
    by rewrite encode_loop_bmp_short by (done || (simpl; lia)).
Qed.

Lemma encode_json_string_fits_witness :
  enc_ret (encode_json_string mbstowcs_utf8 (str [47; 1; 195; 169]%Z) 13)
  = (-1)%Z
  ∧ enc_ret (encode_json_string mbstowcs_utf8 (str [47; 1; 195; 169]%Z) 14)
    = 0%Z
  ∧ encode_in_buffer mbstowcs_utf8 (str [47; 1; 195; 169]%Z) 13 = Some None.
Proof.
  assert (mbstowcs_utf8 (str [47; 1; 195; 169]%Z) = Some [47; 1; 233]%Z)
    as Hmb by (vm_compute; reflexivity).
  assert (Forall (λ c, (0 ≤ c < 65536)%Z) [47; 1; 233]%Z) as Hall
    by (repeat constructor; lia).
  split_and!.
  - exact (proj1 (encode_json_string_fits mbstowcs_utf8 _ _ 13 Hmb Hall)).
  - exact (proj1 (encode_json_string_fits mbstowcs_utf8 _ _ 14 Hmb Hall)).
  - apply (proj2 (encode_json_string_fits mbstowcs_utf8 _ _ 13 Hmb Hall)).
    vm_compute. lia.
Defined.

(** X8.  On strings of code points below 65536 the encoder loses nothing:
    two strings that leave the same text in their buffers decode to the
    same wide characters. *)
Theorem encode_json_string_injective mbstowcs src1 src2 w1 w2 n1 n2 :
  mbstowcs src1 = Some w1 → mbstowcs src2 = Some w2 →
  Forall (λ c, (0 ≤ c < 65536)%Z) w1 →
  Forall (λ c, (0 ≤ c < 65536)%Z) w2 →
  length (escaped_text json_escape w1) < n1 →
  length (escaped_text json_escape w2) < n2 →
  encode_in_buffer mbstowcs src1 n1 = encode_in_buffer mbstowcs src2 n2 →
  w1 = w2.
Proof.
  intros Hmb1 Hmb2 Hall1 Hall2 Hfit1 Hfit2.
  rewrite (proj2 (encode_in_buffer_bmp mbstowcs src1 w1 n1 Hmb1 Hall1 Hfit1)).
  rewrite (proj2 (encode_in_buffer_bmp mbstowcs src2 w2 n2 Hmb2 Hall2 Hfit2)).
  intros Heq. injection Heq as Heq. unfold json_text in Heq.
  apply (f_equal list_ascii_of_string) in Heq.
  rewrite !list_ascii_of_string_of_list_ascii in Heq.
  apply (f_equal json_unescape) in Heq.
  rewrite !json_unescape_escaped_text in Heq by done. congruence.
Qed.

Lemma encode_json_string_injective_witness :
  [34; 233]%Z = [34; 233]%Z.
Proof.
  apply (encode_json_string_injective mbstowcs_utf8
           (str [34; 195; 169]%Z) (str [34; 195; 169]%Z)
           [34; 233]%Z [34; 233]%Z 19 9).
  - vm_compute. reflexivity.
  - vm_compute. reflexivity.
  - repeat constructor; lia.
  - repeat constructor; lia.
  - vm_compute. lia.
  - vm_compute. lia.
  - vm_compute. reflexivity.
Defined.

Lemma json_escape_ascii (c : Z) :
  (0 ≤ c < 65536)%Z →
  Forall (λ a, (32 ≤ wchar_of_char a ≤ 127)%Z) (json_escape c).
Proof.
  intros Hc.
  apply (bmp_all_spec
           (λ c, forallb (λ a, (32 <=? wchar_of_char a)%Z
                               && (wchar_of_char a <=? 127)%Z)
                         (json_escape c))) in Hc.
  - apply Forall_forall. intros a Ha.
    rewrite forallb_forall in Hc.
    specialize (Hc a (proj1 (list_elem_of_In _ _) Ha)).
    apply andb_true_iff in Hc as [H1 H2]. lia.
  - vm_compute. reflexivity.
Qed.

(** X9.  Whatever the characters of a string, as long as they are code
    points below 65536, the text the encoder leaves in the buffer is made
    of bytes from 0x20 to 0x7F only: no control character below 0x20 and no
    byte above 0x7F reaches a report. *)
Theorem encode_json_string_ascii mbstowcs src wsrc dst_size :
  mbstowcs src = Some wsrc →
  Forall (λ c, (0 ≤ c < 65536)%Z) wsrc →
  length (escaped_text json_escape wsrc) < dst_size →
  ∃ buffer,
    encode_in_buffer mbstowcs src dst_size = Some (Some buffer)
    ∧ Forall (λ a, (32 ≤ wchar_of_char a ≤ 127)%Z)
        (list_ascii_of_string buffer).
Proof.
  intros Hmb Hall Hfit. exists (json_text wsrc). split.
  - by apply encode_in_buffer_bmp.
  - unfold json_text. rewrite list_ascii_of_string_of_list_ascii.
    clear Hmb Hfit. induction Hall as [|c wsrc Hc _ IH]; [constructor|].
    simpl. apply Forall_app. split; [by apply json_escape_ascii|done].
Qed.

Lemma encode_json_string_ascii_witness :
  ∃ buffer,
    encode_in_buffer mbstowcs_utf8 (str [127; 1; 10; 195; 169]%Z) 31
    = Some (Some buffer)
    ∧ Forall (λ a, (32 ≤ wchar_of_char a ≤ 127)%Z)
        (list_ascii_of_string buffer).
Proof.
  apply (encode_json_string_ascii mbstowcs_utf8
           (str [127; 1; 10; 195; 169]%Z) [127; 1; 10; 233]%Z 31).
  - vm_compute. reflexivity.
  - repeat constructor; lia.
  - vm_compute. lia.
Defined.

(** ** The report writer: when it succeeds and what it leaves behind *)

(** X10.  The buffers [write_json_report] sizes are large enough for what
    it is given in practice: when the arguments and the working directory
    decode to code points below 65536, no more of them than bytes, and the
    escapes of the working directory are shorter than six times its length
    in bytes, as they are for a path that begins with a slash, the call
    returns 0 and appends the whole object. *)
Theorem write_json_report_succeeds mb out cmd cwd pid ws wcwd :
  Forall2 (decodes mb) (default [] cmd) ws →
  decodes mb cwd wcwd →
  (length (escaped_text json_escape wcwd) < 6 * String.length cwd
   ∨ ∃ w', wcwd = 47%Z :: w') →
  write_json_report mb out cmd cwd pid
  = Some (0%Z, out +:+ report_body pid (json_text <$> ws) (json_text wcwd)).
Proof.
  intros Hcmd Hcwd Hfit. apply write_json_report_ok; [done..|].
  destruct Hfit as [Hfit|[w' ->]]; [done|].
  by apply (absolute_path_fits mb).
Qed.

Lemma write_json_report_succeeds_witness :
  write_json_report mbstowcs_utf8 ""
    (Some ["/bin/echo"; str [195; 169]%Z]) "/tmp" 4242
  = Some (0%Z,
          "" +:+ report_body 4242
                   (json_text <$> [[47; 98; 105; 110; 47; 101; 99; 104; 111];
                                   [233]]%Z)
                   (json_text [47; 116; 109; 112]%Z)).
Proof.
  apply (write_json_report_succeeds mbstowcs_utf8 ""
           (Some ["/bin/echo"; str [195; 169]%Z]) "/tmp" 4242).
  - repeat (constructor; [solve_decodes|]). constructor.
  - solve_decodes.
  - right. by eexists.
Defined.

(** X11.  When a string does not decode in the locale in use,
    [write_json_report] returns -1 and leaves in the file what it had
    written by then: the head and the entries of the arguments before the
    one that failed, or, when it is the working directory that fails, the
    head and all the entries; neither bracket nor brace is closed. *)
Theorem write_json_report_partial mb out pre ws bad post cwd pid :
  Forall2 (decodes mb) pre ws →
  (mb bad = None →
   write_json_report mb out (Some (pre ++ bad :: post)) cwd pid
   = Some ((-1)%Z,
           out +:+ report_head pid +:+ cmd_text true (json_text <$> ws)))
  ∧ (mb cwd = None →
     write_json_report mb out (Some pre) cwd pid
     = Some ((-1)%Z,
             out +:+ report_head pid +:+ cmd_text true (json_text <$> ws))).
Proof.
  intros Hpre. split; intros Hbad.
  - by apply write_json_report_bad_argument.
  - unfold write_json_report. cbn [default].
    rewrite (write_cmd_succeeds mb true pre ws _ Hpre).
    unfold encode_in_buffer, encode_json_string. rewrite Hbad. simpl.
    unfold report_head. by rewrite !append_assoc.
Qed.

Lemma write_json_report_partial_witness :
  write_json_report mbstowcs_utf8 "" (Some (["cc"] ++ [str [255%Z]; "-c"]))
    "/tmp" 4242
  = Some ((-1)%Z,
          "" +:+ report_head 4242
             +:+ cmd_text true (json_text <$> [[99; 99]%Z]))
  ∧ write_json_report mbstowcs_utf8 "" (Some ["cc"]) (str [255%Z]) 4242
    = Some ((-1)%Z,
            "" +:+ report_head 4242
               +:+ cmd_text true (json_text <$> [[99; 99]%Z])).
Proof.
  assert (Forall2 (decodes mbstowcs_utf8) ["cc"] [[99; 99]%Z]) as Hpre
    by (repeat (constructor; [solve_decodes|]); constructor).
  split.
  - apply (proj1 (write_json_report_partial mbstowcs_utf8 "" ["cc"]
                    [[99; 99]%Z] (str [255%Z]) ["-c"] "/tmp" 4242 Hpre)).
    vm_compute. reflexivity.
  - apply (proj2 (write_json_report_partial mbstowcs_utf8 "" ["cc"]
                    [[99; 99]%Z] (str [255%Z]) ["-c"] (str [255%Z]) 4242
                    Hpre)).
    vm_compute. reflexivity.
Defined.

(** X19.  A call that has room stays inside its buffer: for code points
    below 65536 and a buffer longer than the escapes, no byte is stored at
    or beyond [dst_size], nor beyond the terminating zero. *)
Theorem encode_json_string_inside mbstowcs src wsrc dst_size :
  mbstowcs src = Some wsrc →
  Forall (λ c, (0 ≤ c < 65536)%Z) wsrc →
  length (escaped_text json_escape wsrc) < dst_size →
  (∀ i, length (escaped_text json_escape wsrc) < i →
        enc_dst (encode_json_string mbstowcs src dst_size) !! i = None)
  ∧ enc_dst (encode_json_string mbstowcs src dst_size)
      !! length (escaped_text json_escape wsrc) = Some NUL.
Proof.
  intros Hmb Hall Hfit. unfold encode_json_string. rewrite Hmb.
  destruct (encode_loop_bmp wsrc ∅ [] dst_size Hall)
    as (dst' & He & Hh & Hout); [done|done|].
  change (length (@nil ascii)) with 0 in He, Hout. rewrite He. simpl. split.
  - intros i Hi. by rewrite Hout.
  - apply Hh. simpl. rewrite lookup_app_r by done.
    by rewrite Nat.sub_diag.
Qed.

Lemma encode_json_string_inside_witness :
  (∀ i, 13 < i →
        enc_dst (encode_json_string mbstowcs_utf8 (str [47; 1; 195; 169]%Z) 25)
          !! i = None)
  ∧ enc_dst (encode_json_string mbstowcs_utf8 (str [47; 1; 195; 169]%Z) 25)
      !! 13 = Some NUL.
Proof.
  apply (encode_json_string_inside mbstowcs_utf8 (str [47; 1; 195; 169]%Z)
           [47; 1; 233]%Z 25).
  - vm_compute. reflexivity.
  - repeat constructor; lia.
  - vm_compute. lia.
Defined.

(** ** The stores of the encoder, whatever the characters *)

Lemma hex_digits_length fuel u acc :
  length (hex_digits fuel u acc) ≤ fuel + length acc.
Proof.
  revert u acc. induction fuel as [|fuel IH]; intros u acc; simpl; [lia|].
  destruct (u =? 0)%Z; [lia|]. etrans; [apply IH|]. simpl. lia.
Qed.

Lemma fmt_04x_length u : length (fmt_04x u) ≤ 8.
Proof.
  unfold fmt_04x. rewrite length_app, length_replicate.
  pose proof (hex_digits_length 8 u []) as Hd. cbn [length] in Hd. lia.
Qed.

Lemma snprintf_footprint dst it size s i :
  i < it ∨ it + size ≤ i → (snprintf dst it size s).2 !! i = dst !! i.
Proof.
  intros Hi. destruct size as [|k]; [done|]. simpl.
  assert (length (take k s) ≤ k) as Hlen by (rewrite length_take; lia).
  rewrite lookup_insert_ne by lia.
  destruct Hi as [Hi|Hi].
  - by apply store_chars_lookup_lt.
  - apply store_chars_lookup_ge. lia.
Qed.

Lemma snprintf_ret dst it size s : (snprintf dst it size s).1 = length s.
Proof. by destruct size. Qed.

(** The body of the [switch] stores within the seven bytes from [dst_it]
    and advances by at most ten. *)
Lemma encode_wchar_footprint c dst it i :
  i < it ∨ it + 7 ≤ i → (encode_wchar c dst it).2 !! i = dst !! i.
Proof.
  intros Hi. unfold encode_wchar.
  repeat match goal with
    | |- context [if ?b then _ else _] => destruct b
    end;
    try (apply snprintf_footprint; lia).
  simpl. apply lookup_insert_ne. lia.
Qed.

Lemma encode_wchar_advance c dst it :
  (encode_wchar c dst it).1 ≤ 6 * min_bytes c.
Proof.
  unfold min_bytes.
  destruct ((0 <=? c) && (c <? 65536))%Z eqn:Hc.
  - apply andb_true_iff in Hc as [H0 H1].
    destruct (encode_wchar_bmp c dst it) as (dst' & -> & _); [lia|].
    pose proof (json_escape_length c). simpl. lia.
  - unfold encode_wchar.
    repeat match goal with
      | |- context [if ?b then _ else _] => destruct b
      end;
      rewrite ?snprintf_ret; simpl; try lia.
    pose proof (fmt_04x_length (to_unsigned_int c)). lia.
Qed.

(** With six bytes of room for each byte the characters take, and one
    more, no store of the loop lands at or beyond [dst_size]. *)
Lemma encode_loop_inside wsrc :
  ∀ dst it dst_size,
    it + 6 * room wsrc + 1 ≤ dst_size →
    (∀ i, dst_size ≤ i → dst !! i = None) →
    ∀ i, dst_size ≤ i →
         enc_dst (encode_loop wsrc dst it dst_size) !! i = None.
Proof.
  induction wsrc as [|c wsrc IH]; intros dst it dst_size Hroom Hdst i Hi;
    simpl in *.
  - destruct (decide (it < dst_size)) as [Hlt|Hge]; simpl; [|by apply Hdst].
    rewrite lookup_insert_ne by lia. by apply Hdst.
  - destruct (decide (dst_size ≤ it)) as [Hle|Hgt]; simpl; [by apply Hdst|].
    pose proof (encode_wchar_advance c dst it) as Hadv.
    pose proof (encode_wchar_footprint c dst it) as Hfoot.
    destruct (encode_wchar c dst it) as [n dst1]. simpl in Hadv, Hfoot.
    apply IH; [lia| |done].
    intros k Hk. rewrite Hfoot; [by apply Hdst|].
    unfold min_bytes in *. destruct ((0 <=? c) && (c <? 65536))%Z; lia.
Qed.

(** The same for a string that begins with a slash and a buffer without
    the one byte more. *)
Lemma encode_loop_inside_slash w' dst_size :
  6 * (1 + room w') ≤ dst_size →
  ∀ i, dst_size ≤ i →
       enc_dst (encode_loop (47%Z :: w') ∅ 0 dst_size) !! i = None.
Proof.
  intros Hroom i Hi.
  change (encode_loop (47%Z :: w') ∅ 0 dst_size)
    with (if decide (dst_size ≤ 0) then Encoding (-1) ∅
          else encode_loop w' (<[0 := "/"%char]> ∅) 1 dst_size).
  destruct (decide (dst_size ≤ 0)); [lia|].
  apply encode_loop_inside; [lia| |done].
  intros k Hk. rewrite lookup_insert_ne by lia. done.
Qed.

(** *** The decoder of a UTF-8 locale *)

Lemma fmap_cons_Some (c : Z) (o : option (list Z)) ws :
  (c ::.) <$> o = Some ws → ∃ ws', o = Some ws' ∧ ws = c :: ws'.
Proof. destruct o as [ws'|]; [|done]. intros [= <-]. by exists ws'. Qed.

Lemma min_bytes_le c : 1 ≤ min_bytes c ≤ 2.
Proof. unfold min_bytes. destruct (_ && _); lia. Qed.

(** The characters of a UTF-8 string take at least the bytes [room]
    counts. *)
Lemma utf8_decode_room n :
  ∀ bs ws,
    length bs ≤ n → Forall (λ b, (0 ≤ b)%Z) bs →
    utf8_decode bs = Some ws → room ws ≤ length bs.
Proof.
  induction n as [|n IH]; intros bs ws Hn Hpos Hdec.
  { destruct bs; [|simpl in Hn; lia]. by injection Hdec as <-. }
  destruct bs as [|b0 r0]; [by injection Hdec as <-|].
  apply Forall_cons in Hpos as [Hb0 Hpos]. simpl in Hn, Hdec.
  destruct (b0 <? 128)%Z eqn:H128.
  { apply fmap_cons_Some in Hdec as (ws' & Hdec & ->).
    apply IH in Hdec; [|lia|done]. simpl. unfold min_bytes.
    rewrite (proj2 (Z.leb_le 0 b0) Hb0).
    replace (b0 <? 65536)%Z with true by (symmetry; apply Z.ltb_lt; lia).
    simpl. lia. }
  destruct (b0 <? 194)%Z; [done|].
  destruct (b0 <? 224)%Z.
  { destruct r0 as [|b1 r1]; [done|]. destruct (is_cont b1); [|done].
    apply fmap_cons_Some in Hdec as (ws' & Hdec & ->).
    apply Forall_cons in Hpos as [_ Hpos].
    apply IH in Hdec; [|simpl in Hn; lia|done].
    pose proof (min_bytes_le ((b0 - 192) * 64 + (b1 - 128))%Z).
    simpl. lia. }
  destruct (b0 <? 240)%Z.
  { destruct r0 as [|b1 [|b2 r2]]; [done..|].
    destruct (_ && _); [|done].
    apply fmap_cons_Some in Hdec as (ws' & Hdec & ->).
    apply Forall_cons in Hpos as [_ Hpos].
    apply Forall_cons in Hpos as [_ Hpos].
    apply IH in Hdec; [|simpl in Hn; lia|done].
    pose proof (min_bytes_le ((b0 - 224) * 4096 + (b1 - 128) * 64
                              + (b2 - 128))%Z).
    simpl. lia. }
  destruct (b0 <? 245)%Z; [|done].
  destruct r0 as [|b1 [|b2 [|b3 r3]]]; [done..|].
  destruct (_ && _); [|done].
  apply fmap_cons_Some in Hdec as (ws' & Hdec & ->).
  do 3 apply Forall_cons in Hpos as [_ Hpos].
  apply IH in Hdec; [|simpl in Hn; lia|done].
  pose proof (min_bytes_le ((b0 - 240) * 262144 + (b1 - 128) * 4096
                            + (b2 - 128) * 64 + (b3 - 128))%Z).
  simpl. lia.
Qed.

Lemma length_list_ascii_of_string s :
  length (list_ascii_of_string s) = String.length s.
Proof. induction s as [|a s IH]; simpl; [done|]. by rewrite IH. Qed.

Lemma mbstowcs_utf8_room src wsrc :
  mbstowcs_utf8 src = Some wsrc → room wsrc ≤ String.length src.
Proof.
  unfold mbstowcs_utf8. intros Hdec.
  rewrite <- length_list_ascii_of_string,
    <- (length_fmap wchar_of_char (list_ascii_of_string src)).
  apply (utf8_decode_room _ _ _ (le_n _)); [|done].
  apply Forall_fmap, Forall_forall. intros a _. unfold wchar_of_char. simpl.
  lia.
Qed.

(** X21.  In a UTF-8 locale no call [write_json_report] makes stores a
    byte at or beyond the end of its buffer, whatever the string, be it
    invalid or with characters above 0xFFFF: not with the [6 * strlen + 1]
    bytes of an argument, and not with the [6 * strlen] bytes of the working
    directory when the path begins with a slash, as a path [getcwd] returns
    does. *)
Theorem encode_json_string_utf8_inside src :
  (∀ i, 6 * String.length src + 1 ≤ i →
        enc_dst (encode_json_string mbstowcs_utf8 src
                   (6 * String.length src + 1)) !! i = None)
  ∧ (∀ rest, src = String "/" rest →
       ∀ i, 6 * String.length src ≤ i →
            enc_dst (encode_json_string mbstowcs_utf8 src
                       (6 * String.length src)) !! i = None).
Proof.
  split.
  - intros i Hi. unfold encode_json_string.
    destruct (mbstowcs_utf8 src) as [wsrc|] eqn:Hmb; [|done].
    apply mbstowcs_utf8_room in Hmb.
    apply encode_loop_inside; [lia|done|done].
  - intros rest -> i Hi. unfold encode_json_string.
    destruct (mbstowcs_utf8 (String "/" rest)) as [wsrc|] eqn:Hmb; [|done].
    pose proof (mbstowcs_utf8_room _ _ Hmb) as Hroom.
    unfold mbstowcs_utf8 in Hmb.
    change (wchar_of_char <$> list_ascii_of_string (String "/" rest))
      with (47%Z :: (wchar_of_char <$> list_ascii_of_string rest)) in Hmb.
    change (utf8_decode (47%Z :: (wchar_of_char <$> list_ascii_of_string rest)))
      with ((47%Z ::.) <$> utf8_decode
                             (wchar_of_char <$> list_ascii_of_string rest))
      in Hmb.
    apply fmap_cons_Some in Hmb as (w' & _ & ->).
    apply encode_loop_inside_slash; [|done].
    change (room (47%Z :: w')) with (1 + room w') in Hroom. lia.
Qed.

Lemma encode_json_string_utf8_inside_witness :
  (∀ i, 25 ≤ i →
        enc_dst (encode_json_string mbstowcs_utf8
                   (str [240; 159; 152; 128]%Z) 25) !! i = None)
  ∧ (∀ i, 12 ≤ i →
          enc_dst (encode_json_string mbstowcs_utf8 (str [47; 255]%Z) 12)
            !! i = None).
Proof.
  split.
  - exact (proj1 (encode_json_string_utf8_inside
                    (str [240; 159; 152; 128]%Z))).
  - exact (proj2 (encode_json_string_utf8_inside (str [47; 255]%Z)) _
             eq_refl).
Defined.

(** ** The report of an armed shim *)

Lemma substring_prefix s1 s2 :
  substring 0 (String.length s1) (s1 +:+ s2) = s1.
Proof.
  induction s1 as [|a s1 IH]; [by destruct s2|].
  rewrite append_cons. simpl. by rewrite IH.
Qed.

(** The name [mkstemp] makes of the template of [report_call]. *)
Lemma mkstemp_name out_dir suffix :
  substring 0 (String.length (out_dir +:+ "/execution.XXXXXX") - 6)
    (out_dir +:+ "/execution.XXXXXX") +:+ suffix
  = report_name out_dir suffix.
Proof.
  change (out_dir +:+ "/execution.XXXXXX")
    with (out_dir +:+ "/execution." +:+ "XXXXXX").
  rewrite <- append_assoc, append_length.
  change (String.length "XXXXXX") with 6. rewrite Nat.add_sub.
  rewrite substring_prefix. unfold report_name. by rewrite append_assoc.
Qed.

Lemma mkstemp_report out_dir suffix w :
  mkstemp_pick (sys w) (out_dir +:+ "/execution.XXXXXX") (files w)
  = Some suffix →
  fresh_name suffix (report_name out_dir suffix) (files w) = true →
  mkstemp (out_dir +:+ "/execution.XXXXXX") w
  = Ret (Some (length (files w)))
        (set_files (files w ++ [(report_name out_dir suffix, "")]) w).
Proof.
  intros Hpick Hfresh. unfold mkstemp.
  mstep (eq_refl : get files w = Ret (files w) w).
  mstep (eq_refl : get (λ w0, mkstemp_pick (sys w0)
                                (out_dir +:+ "/execution.XXXXXX") (files w))
                     w
                   = Ret (mkstemp_pick (sys w)
                            (out_dir +:+ "/execution.XXXXXX") (files w)) w).
  rewrite Hpick. cbv zeta. rewrite mkstemp_name, Hfresh. reflexivity.
Qed.

Lemma mkstemp_fails template w :
  mkstemp_pick (sys w) template (files w) = None →
  mkstemp template w = Ret None w.
Proof.
  intros Hpick. unfold mkstemp.
  mstep (eq_refl : get files w = Ret (files w) w).
  mstep (eq_refl : get (λ w0, mkstemp_pick (sys w0) template (files w)) w
                   = Ret (mkstemp_pick (sys w) template (files w)) w).
  by rewrite Hpick.
Qed.

Lemma uselocale_valid l w :
  locale_valid (sys w) l = true →
  uselocale (Some l) w
  = Ret (Some (thread_locale w)) (set_thread_locale l w).
Proof.
  intros Hvalid. unfold uselocale.
  mstep (eq_refl : get thread_locale w = Ret (thread_locale w) w).
  mstep (eq_refl : get (λ w0, locale_valid (sys w0) l) w
                   = Ret (locale_valid (sys w) l) w).
  by rewrite Hvalid.
Qed.

Lemma getcwd_spec w :
  getcwd_ok (sys w) = true →
  getcwd w
  = Ret (Some (fresh (dom (heap w))))
        (set_heap (<[fresh (dom (heap w)) := BStr (cwd w)]> (heap w)) w).
Proof.
  intros Hok. unfold getcwd.
  mstep (eq_refl : get (λ w0, getcwd_ok (sys w0)) w
                   = Ret (getcwd_ok (sys w)) w).
  by rewrite Hok.
Qed.

(** [write_report] on the file [mkstemp] has just made, up to the test of
    the result of [write_json_report]. *)
Lemma write_report_spec argv args name lc r text w :
  utf_locale w = Some lc → locale_valid (sys w) lc = true →
  getcwd_ok (sys w) = true →
  vector_arg (heap w) argv args →
  write_json_report lc "" args (cwd w) (pid w) = Some (r, text) →
  write_report (length (files w)) argv
    (set_files (files w ++ [(name, "")]) w)
  = if (r =? 0)%Z
    then (on_heap (free (Some (fresh (dom (heap w)))));;
          restored_locale ← uselocale (Some (thread_locale w));
          match restored_locale with
          | None => exit_failure
          | Some _ => mret ()
          end) (written name text lc w)
    else Exit (written name text lc w).
Proof.
  intros Hutf Hvalid Hcwd Hargv Hjson. unfold write_report.
  set (w1 := set_files (files w ++ [(name, "")]) w).
  mstep (eq_refl : get utf_locale w1 = Ret (utf_locale w) w1).
  rewrite Hutf.
  mstep (uselocale_valid lc w1 Hvalid).
  set (w2 := set_thread_locale lc w1).
  mstep (getcwd_spec w2 Hcwd).
  set (l := fresh (dom (heap w))).
  set (h1 := <[l := BStr (cwd w)]> (heap w)).
  set (w3 := set_heap h1 w2).
  assert (heap w ⊆ h1) as Hsub by apply insert_subseteq, fresh_None.
  mstep (on_heap_Ret (read_str l) w3 _ _
           (read_str_Some h1 l (cwd w) (lookup_insert_eq _ _ _))).
  change (set_heap h1 w3) with w3.
  mstep (eq_refl : get pid w3 = Ret (pid w) w3).
  mstep (on_heap_Ret (vector_strings argv) w3 _ _
           (vector_arg_strings h1 argv args
              (vector_arg_weaken _ _ _ _ Hsub Hargv))).
  change (set_heap h1 w3) with w3.
  mstep (eq_refl : get files w3 = Ret (files w ++ [(name, "")]) w3).
  mstep (eq_refl : get thread_locale w3 = Ret lc w3).
  rewrite list_lookup_middle by done.
  rewrite Hjson.
  mstep (eq_refl : modify (set_files (<[length (files w) := (name, text)]>
                                        (files w ++ [(name, "")]))) w3
                   = Ret () (set_files (<[length (files w) := (name, text)]>
                                          (files w ++ [(name, "")])) w3)).
  replace (set_files (<[length (files w) := (name, text)]>
                        (files w ++ [(name, "")])) w3)
    with (written name text lc w); [by destruct (r =? 0)%Z|].
  unfold written, w3, w2, w1, h1, l, set_files, set_heap, set_thread_locale.
  simpl. f_equal. rewrite insert_app_r_alt by lia. by rewrite Nat.sub_diag.
Qed.

Lemma written_restored name text lc w :
  set_thread_locale (thread_locale w)
    (set_heap (delete (fresh (dom (heap w)))
                 (<[fresh (dom (heap w)) := BStr (cwd w)]> (heap w)))
       (written name text lc w))
  = with_file (name, text) w.
Proof.
  unfold written, with_file, set_files, set_heap, set_thread_locale.
  destruct w as [h i ul ie en tl fs c p sy]. simpl. f_equal.
  apply delete_insert_id, fresh_None.
Qed.

Lemma written_done name text lc w :
  locale_valid (sys w) (thread_locale w) = true →
  (on_heap (free (Some (fresh (dom (heap w)))));;
   restored_locale ← uselocale (Some (thread_locale w));
   match restored_locale with
   | None => exit_failure
   | Some _ => mret ()
   end) (written name text lc w)
  = Ret () (with_file (name, text) w).
Proof.
  intros Hvalid.
  set (l := fresh (dom (heap w))).
  mstep (on_heap_Ret (free (Some l)) (written name text lc w) _ _
           (free_Some (<[l := BStr (cwd w)]> (heap w)) l (BStr (cwd w))
              (lookup_insert_eq _ _ _))).
  mstep (uselocale_valid (thread_locale w)
           (set_heap (delete l (<[l := BStr (cwd w)]> (heap w)))
              (written name text lc w)) Hvalid).
  unfold mret, M_ret. f_equal. apply written_restored.
Qed.

(** [report_call] of an armed shim, up to the test of the result of
    [write_json_report]. *)
Lemma report_call_spec argv args l env' lc out_dir suffix r text w :
  initialized w = true →
  initial_env w = Some l :: env' →
  heap w !! l = Some (BStr out_dir) →
  report_opens w lc out_dir suffix →
  vector_arg (heap w) argv args →
  write_json_report lc "" args (cwd w) (pid w) = Some (r, text) →
  report_call argv w
  = (write_report (length (files w)) argv;;
     closed ← close (length (files w));
     if (closed : bool) then mret () else exit_failure)
      (set_files (files w ++ [(report_name out_dir suffix, "")]) w).
Proof.
  intros Hinit Henv Hl (Hpick & Hfresh & _) Hargv Hjson. unfold report_call.
  mstep (eq_refl : get initialized w = Ret (initialized w) w).
  rewrite Hinit. cbn [negb].
  mstep (eq_refl : get initial_env w = Ret (initial_env w) w).
  rewrite Henv. cbn [lookup list_lookup].
  mstep (on_heap_Ret (read_str l) w _ _ (read_str_Some _ _ _ Hl)).
  rewrite set_heap_same.
  by mstep (mkstemp_report out_dir suffix w Hpick Hfresh).
Qed.

Lemma report_call_ok argv args l env' lc out_dir suffix ws wcwd w :
  initialized w = true →
  initial_env w = Some l :: env' →
  heap w !! l = Some (BStr out_dir) →
  report_ready w lc out_dir suffix →
  vector_arg (heap w) argv args →
  report_encodes lc (default [] args) (cwd w) ws wcwd →
  report_call argv w
  = Ret () (with_file (report_file out_dir suffix (pid w) ws wcwd) w).
Proof.
  intros Hinit Henv Hl (Hopens & Hvalid & Hclose) Hargv (Hcmd & Hcwd & Hfit).
  pose proof (write_json_report_ok lc "" args (cwd w) (pid w) ws wcwd
                Hcmd Hcwd Hfit) as Hjson.
  rewrite (report_call_spec argv args l env' lc out_dir suffix _ _ w Hinit
             Henv Hl Hopens Hargv Hjson).
  destruct Hopens as (_ & _ & Hutf & Hvalid' & Hgetcwd).
  rewrite (M_bind_Ret _ _ _ () (with_file (report_file out_dir suffix (pid w)
                                             ws wcwd) w)).
  - cbn beta iota.
    mstep (eq_refl : close (length (files w))
                       (with_file (report_file out_dir suffix (pid w)
                                     ws wcwd) w)
                     = Ret (close_ok (sys w))
                         (with_file (report_file out_dir suffix (pid w)
                                       ws wcwd) w)).
    by rewrite Hclose.
  - rewrite (write_report_spec argv args _ lc _ _ w Hutf Hvalid' Hgetcwd
               Hargv Hjson).
    cbn [Z.eqb]. by apply written_done.
Qed.

(** The exit on a report that [write_json_report] gives up. *)
Lemma report_call_gives_up argv args l env' lc out_dir suffix text w :
  initialized w = true →
  initial_env w = Some l :: env' →
  heap w !! l = Some (BStr out_dir) →
  report_opens w lc out_dir suffix →
  vector_arg (heap w) argv args →
  write_json_report lc "" args (cwd w) (pid w) = Some ((-1)%Z, text) →
  report_call argv w
  = Exit (written (report_name out_dir suffix) text lc w).
Proof.
  intros Hinit Henv Hl Hopens Hargv Hjson.
  rewrite (report_call_spec argv args l env' lc out_dir suffix _ _ w Hinit
             Henv Hl Hopens Hargv Hjson).
  destruct Hopens as (_ & _ & Hutf & Hvalid' & Hgetcwd).
  unfold mbind at 1, M_bind at 1.
  by rewrite (write_report_spec argv args _ lc _ _ w Hutf Hvalid' Hgetcwd
                Hargv Hjson).
Qed.

(** The exit when [mkstemp] makes no file. *)
Lemma report_call_no_file argv l env' out_dir w :
  initialized w = true →
  initial_env w = Some l :: env' →
  heap w !! l = Some (BStr out_dir) →
  mkstemp_pick (sys w) (out_dir +:+ "/execution.XXXXXX") (files w) = None →
  report_call argv w = Exit w.
Proof.
  intros Hinit Henv Hl Hpick. unfold report_call.
  mstep (eq_refl : get initialized w = Ret (initialized w) w).
  rewrite Hinit. cbn [negb].
  mstep (eq_refl : get initial_env w = Ret (initial_env w) w).
  rewrite Henv. cbn [lookup list_lookup].
  mstep (on_heap_Ret (read_str l) w _ _ (read_str_Some _ _ _ Hl)).
  rewrite set_heap_same.
  by mstep (mkstemp_fails _ w Hpick).
Qed.

Lemma fresh_name_spec suffix name fs :
  fresh_name suffix name fs = true →
  String.length suffix = 6 ∧ name ∉ fs.*1.
Proof.
  unfold fresh_name. intros [Hlen Hnew]%andb_true_iff. split.
  - by apply Nat.eqb_eq.
  - intros Hin. apply negb_true_iff in Hnew.
    assert (existsb (String.eqb name) fs.*1 = true) as Hex; [|congruence].
    apply existsb_exists. exists name. split.
    + by apply list_elem_of_In.
    + apply String.eqb_refl.
Qed.

(** X12.  The report of an armed shim.  When the library calls succeed
    ([mkstemp] makes a file, [uselocale] accepts [utf_locale] and then the
    locale of the thread, [getcwd] and [close] succeed) and the arguments
    and the working directory decode in [utf_locale] to code points below
    65536, no more of them than bytes, the escapes of the working directory
    being shorter than six times its length, [report_call] makes one file,
    named after the directory of the first captured slot with the six
    characters [mkstemp] picks, a name no file had, and writes the whole
    object to it.  The locale of the thread is the same after the call as
    before, the string of [getcwd] is freed, and neither the memory nor the
    slots nor [environ] change. *)
Theorem report_call_armed argv args l env' lc out_dir suffix ws wcwd w :
  initialized w = true →
  initial_env w = Some l :: env' →
  heap w !! l = Some (BStr out_dir) →
  report_ready w lc out_dir suffix →
  vector_arg (heap w) argv args →
  report_encodes lc (default [] args) (cwd w) ws wcwd →
  ∃ w',
    report_call argv w = Ret () w'
    ∧ files w'
      = files w ++ [(out_dir +:+ "/execution." +:+ suffix,
                     report_body (pid w) (json_text <$> ws) (json_text wcwd))]
    ∧ String.length suffix = 6
    ∧ ((out_dir +:+ "/execution." +:+ suffix) ∉ (files w).*1)
    ∧ thread_locale w' = thread_locale w
    ∧ heap w' = heap w ∧ initial_env w' = initial_env w
    ∧ environ w' = environ w ∧ initialized w' = true.
Proof.
  intros Hinit Henv Hl Hready Hargv Henc.
  exists (with_file (report_file out_dir suffix (pid w) ws wcwd) w).
  split; [by eapply report_call_ok|].
  destruct Hready as ((_ & Hfresh & _) & _).
  apply fresh_name_spec in Hfresh as [Hlen Hnew].
  by split_and!.
Qed.

Lemma vector_arg_world_armed :
  vector_arg (heap world_armed) (Some 7%positive) (Some ["cc"; "-c"; "a.c"]).
Proof.
  exists [4; 5; 6]%positive. split; [by exists []|by repeat constructor].
Qed.

Lemma report_ready_world_armed :
  report_ready world_armed mbstowcs_utf8 "/out" "aaaaaa".
Proof. by repeat split. Qed.

Lemma report_encodes_world_armed :
  report_encodes mbstowcs_utf8 ["cc"; "-c"; "a.c"] (cwd world_armed)
    [[99; 99]; [45; 99]; [97; 46; 99]]%Z [47; 116; 109; 112]%Z.
Proof.
  split_and!.
  - repeat (constructor; [solve_decodes|]). constructor.
  - solve_decodes.
  - vm_compute. lia.
Qed.

Lemma report_call_armed_witness :
  ∃ w',
    report_call (Some 7%positive) world_armed = Ret () w'
    ∧ files w'
      = files world_armed
        ++ [("/out" +:+ "/execution." +:+ "aaaaaa",
             report_body (pid world_armed)
               (json_text <$> [[99; 99]; [45; 99]; [97; 46; 99]]%Z)
               (json_text [47; 116; 109; 112]%Z))]
    ∧ String.length "aaaaaa" = 6
    ∧ (("/out" +:+ "/execution." +:+ "aaaaaa") ∉ (files world_armed).*1)
    ∧ thread_locale w' = thread_locale world_armed
    ∧ heap w' = heap world_armed
    ∧ initial_env w' = initial_env world_armed
    ∧ environ w' = environ world_armed ∧ initialized w' = true.
Proof.
  apply (report_call_armed (Some 7%positive) (Some ["cc"; "-c"; "a.c"])
           8%positive [Some 9%positive] mbstowcs_utf8 "/out" "aaaaaa"
           [[99; 99]; [45; 99]; [97; 46; 99]]%Z [47; 116; 109; 112]%Z
           world_armed).
  - reflexivity.
  - reflexivity.
  - reflexivity.
  - exact report_ready_world_armed.
  - exact vector_arg_world_armed.
  - exact report_encodes_world_armed.
Defined.

(** ** A report that cannot be written *)

Section ReportFailure.
Context `{Libc} (apple : bool).

(** X13.  A report that cannot be written ends the process.  When
    [mkstemp] makes no file, [report_call] of an armed shim exits with the
    process as it was: no file is left.  When the file is made, [uselocale]
    accepts [utf_locale] and [getcwd] succeeds, but an argument does not
    decode in [utf_locale], it exits with the file holding the head of the
    object and the entries of the arguments before the one that failed; the
    memory is as it was but for the string [getcwd] allocated, which is
    still there.  Whenever [report_call] exits, the entry point that called
    it does not return and the genuine function is not called. *)
Theorem report_failure_exits argv args l env' out_dir w
    path file search_path envp sa :
  initialized w = true →
  initial_env w = Some l :: env' →
  heap w !! l = Some (BStr out_dir) →
  vector_arg (heap w) argv args →
  (mkstemp_pick (sys w) (out_dir +:+ "/execution.XXXXXX") (files w) = None →
   report_call argv w = Exit w)
  ∧ (∀ lc suffix pre ws bad post,
       args = Some (pre ++ bad :: post) →
       report_opens w lc out_dir suffix →
       Forall2 (decodes lc) pre ws →
       lc bad = None →
       ∃ w',
         report_call argv w = Exit w'
         ∧ files w'
           = files w ++ [(out_dir +:+ "/execution." +:+ suffix,
                          report_head (pid w)
                            +:+ cmd_text true (json_text <$> ws))]
         ∧ heap w' = <[fresh (dom (heap w)) := BStr (cwd w)]> (heap w)
         ∧ heap w !! fresh (dom (heap w)) = None)
  ∧ (∀ w',
       report_call argv w = Exit w' →
       execve apple path argv envp w = Exit w'
       ∧ execv apple path argv w = Exit w'
       ∧ execvpe apple file argv envp w = Exit w'
       ∧ execvp apple file argv w = Exit w'
       ∧ execvP apple file search_path argv w = Exit w'
       ∧ exect apple path argv envp w = Exit w'
       ∧ posix_spawn apple sa path argv envp w = Exit w'
       ∧ posix_spawnp apple sa file argv envp w = Exit w').
Proof.
  intros Hinit Henv Hl Hargv. split_and!.
  - intros Hpick. by eapply report_call_no_file.
  - intros lc suffix pre ws bad post -> Hopens Hpre Hbad.
    eexists. split.
    + eapply (report_call_gives_up argv _ l env' lc out_dir suffix);
        [done..|].
      by apply write_json_report_bad_argument.
    + split_and!; [done|done|apply fresh_None].
  - intros w' Hrep. split_and!.
    + unfold execve, mbind, M_bind. by rewrite Hrep.
    + unfold execv, mbind, M_bind. by rewrite Hrep.
    + unfold execvpe, mbind, M_bind. by rewrite Hrep.
    + unfold execvp, mbind, M_bind. by rewrite Hrep.
    + unfold execvP, mbind, M_bind. by rewrite Hrep.
    + unfold exect, mbind, M_bind. by rewrite Hrep.
    + unfold posix_spawn, mbind, M_bind. by rewrite Hrep.
    + unfold posix_spawnp, mbind, M_bind. by rewrite Hrep.
Qed.
End ReportFailure.

Lemma report_failure_exits_witness :
  (report_call (Some 7%positive) world_no_file = Exit world_no_file
   ∧ @execve probe_libc false "/usr/bin/cc" (Some 7%positive)
       (Some 3%positive) world_no_file
     = Exit world_no_file)
  ∧ ∃ w',
      report_call (Some 11%positive) (set_heap heap_bad_arg world_armed)
      = Exit w'
      ∧ files w'
        = [("/out" +:+ "/execution." +:+ "aaaaaa",
            report_head 4242 +:+ cmd_text true (json_text <$> [[99; 99]%Z]))]
      ∧ heap w' = <[fresh (dom heap_bad_arg) := BStr "/tmp"]> heap_bad_arg
      ∧ @execve probe_libc false "/usr/bin/cc" (Some 11%positive)
          (Some 3%positive) (set_heap heap_bad_arg world_armed)
        = Exit w'
      ∧ @posix_spawnp probe_libc false (SpawnArgs None None None) "cc"
          (Some 11%positive) (Some 3%positive)
          (set_heap heap_bad_arg world_armed)
        = Exit w'.
Proof.
  split.
  - destruct (@report_failure_exits probe_libc false (Some 7%positive)
                (Some ["cc"; "-c"; "a.c"]) 8%positive [Some 9%positive]
                "/out" world_no_file "/usr/bin/cc" "cc" "/bin"
                (Some 3%positive) (SpawnArgs None None None)
                eq_refl eq_refl eq_refl vector_arg_world_armed)
      as (Hno & _ & Hexit).
    split; [exact (Hno eq_refl)|].
    exact (proj1 (Hexit _ (Hno eq_refl))).
  - destruct (@report_failure_exits probe_libc false (Some 11%positive)
                (Some (["cc"] ++ [str [255%Z]])) 8%positive
                [Some 9%positive] "/out"
                (set_heap heap_bad_arg world_armed) "/usr/bin/cc" "cc" "/bin"
                (Some 3%positive) (SpawnArgs None None None)
                eq_refl eq_refl eq_refl)
      as (_ & Hbad & Hexit).
    { exists [4; 10]%positive. split; [by exists []|by repeat constructor]. }
    destruct (Hbad mbstowcs_utf8 "aaaaaa" ["cc"] [[99; 99]%Z] (str [255%Z]) []
                eq_refl)
      as (w' & Hrep & Hfiles & Hheap & _).
    { by repeat split. }
    { repeat (constructor; [solve_decodes|]). constructor. }
    { vm_compute. reflexivity. }
    destruct (Hexit w' Hrep) as (Hexecve & _ & _ & _ & _ & _ & _ & Hsp).
    exists w'. split_and!; [exact Hrep|exact Hfiles|exact Hheap|exact Hexecve
                           |exact Hsp].
Defined.

(** ** The entry points of an armed shim *)

Section Armed.
Context `{Libc} (apple : bool).

(** The genuine function is given the updated copy of [envp], and the copy
    is released: the process is left as it was. *)
Lemma call_with_envp_spec fp argv args envp envs vals w :
  captured_in (heap w) (initial_env w) vals →
  vector_arg (heap w) argv args →
  vector_in (heap w) envp envs →
  call_with_envp apple fp argv envp w
  = Ret (fp args (Some (env_partial_update (env_names apple) vals envs))) w.
Proof.
  intros Hcap Hargv Henvp. unfold call_with_envp.
  mstep (eq_refl : get initial_env w = Ret (initial_env w) w).
  destruct (string_array_partial_update_exact apple (heap w) envp
              (initial_env w) vals envs Henvp Hcap)
    as (r & ls' & h1 & Hup & Ho & Hsub & Hout & Hrel).
  mstep (on_heap_Ret _ w _ _ Hup).
  mstep (on_heap_Ret (vector_strings argv) (set_heap h1 w) _ _
           (vector_arg_strings h1 argv args
              (vector_arg_weaken _ _ _ _ Hsub Hargv))).
  rewrite set_heap_set_heap.
  mstep (on_heap_Ret (vector_strings (Some r)) (set_heap h1 w) _ _
           (vector_strings_spec h1 r ls' _ (proj1 Ho))).
  rewrite set_heap_set_heap.
  mstep (on_heap_Ret (string_array_release (Some r)) (set_heap h1 w) _ _
           Hrel).
  by rewrite set_heap_set_heap, set_heap_same.
Qed.

(** The same for the calls that go through [environ]: the genuine function
    runs with [environ] pointing to the updated copy, and [environ] is set
    back before the copy is released. *)
Lemma call_with_environ_spec fp argv args envs vals w :
  captured_in (heap w) (initial_env w) vals →
  vector_arg (heap w) argv args →
  vector_in (heap w) (environ w) envs →
  call_with_environ apple fp argv w
  = Ret (fp args (Some (env_partial_update (env_names apple) vals envs))) w.
Proof.
  intros Hcap Hargv Henvp. unfold call_with_environ.
  mstep (eq_refl : get environ w = Ret (environ w) w).
  mstep (eq_refl : get initial_env w = Ret (initial_env w) w).
  destruct (string_array_partial_update_exact apple (heap w) (environ w)
              (initial_env w) vals envs Henvp Hcap)
    as (r & ls' & h1 & Hup & Ho & Hsub & Hout & Hrel).
  mstep (on_heap_Ret _ w _ _ Hup).
  set (w1 := set_environ (Some r) (set_heap h1 w)).
  mstep (eq_refl : modify (set_environ (Some r)) (set_heap h1 w)
                   = Ret () w1).
  mstep (on_heap_Ret (vector_strings argv) w1 _ _
           (vector_arg_strings h1 argv args
              (vector_arg_weaken _ _ _ _ Hsub Hargv))).
  change (set_heap h1 w1) with w1.
  mstep (eq_refl : get environ w1 = Ret (Some r) w1).
  mstep (on_heap_Ret (vector_strings (Some r)) w1 _ _
           (vector_strings_spec h1 r ls' _ (proj1 Ho))).
  change (set_heap h1 w1) with w1.
  mstep (eq_refl : modify (set_environ (environ w)) w1
                   = Ret () (set_environ (environ w) w1)).
  mstep (on_heap_Ret (string_array_release (Some r))
           (set_environ (environ w) w1) _ _ Hrel).
  unfold mret, M_ret. f_equal. by destruct w.
Qed.

(** X14.  The entry points of an armed shim whose slots are all
    captured.  When the library calls of the report succeed ([mkstemp]
    makes a file, [uselocale] accepts the locales, [getcwd] and [close]
    succeed) and the arguments and the working directory decode in
    [utf_locale] to code points below 65536, no more of them than bytes,
    the escapes of the working directory being shorter than six times its
    length, each entry point writes one report of its arguments and
    returns what the genuine function returns for the same path, the same
    arguments and the caller's environment with the captured variables
    forced to their captured values, the other entries as they were (a
    null [envp] or [environ] counting as the empty vector).  Afterwards the
    process differs from before by the file of the report alone: the
    updated copy and the collected arguments are released, and [environ]
    points where it did.  [execl] and [execlp] take their arguments up to
    the terminating null, [execle] takes [envp] after it. *)
Theorem entry_points_armed w l env' lc out_dir suffix vals argv args ws wcwd
    envp envs environ_strs arg vargs vargs_e ps strs wstrs tail tail_e
    sa path file search_path :
  initialized w = true →
  initial_env w = Some l :: env' →
  captured_in (heap w) (initial_env w) (Some out_dir :: vals) →
  report_ready w lc out_dir suffix →
  vector_arg (heap w) argv args →
  report_encodes lc (default [] args) (cwd w) ws wcwd →
  vector_in (heap w) envp envs →
  vector_in (heap w) (environ w) environ_strs →
  varargs_in (heap w) arg vargs ps strs tail →
  varargs_in (heap w) arg vargs_e ps strs (envp :: tail_e) →
  Forall2 (decodes lc) strs wstrs →
  let update :=
    env_partial_update (env_names apple) (Some out_dir :: vals) in
  let w1 := with_file (report_file out_dir suffix (pid w) ws wcwd) w in
  let w2 := with_file (report_file out_dir suffix (pid w) wstrs wcwd) w in
  execve apple path argv envp w
  = Ret (real_execve path args (Some (update envs))) w1
  ∧ execv apple path argv w
    = Ret (real_execve path args (Some (update environ_strs))) w1
  ∧ execvpe apple file argv envp w
    = Ret (real_execvpe file args (Some (update envs))) w1
  ∧ execvp apple file argv w
    = Ret (real_execvp file args (Some (update environ_strs))) w1
  ∧ execvP apple file search_path argv w
    = Ret (real_execvP file search_path args (Some (update environ_strs))) w1
  ∧ exect apple path argv envp w
    = Ret (real_exect path args (Some (update envs))) w1
  ∧ execl apple path arg vargs w
    = Ret (real_execve path (Some strs) (Some (update environ_strs))) w2
  ∧ execlp apple file arg vargs w
    = Ret (real_execvp file (Some strs) (Some (update environ_strs))) w2
  ∧ execle apple path arg vargs_e w
    = Ret (real_execve path (Some strs) (Some (update envs))) w2
  ∧ posix_spawn apple sa path argv envp w
    = Ret (real_posix_spawn sa path args (Some (update envs))) w1
  ∧ posix_spawnp apple sa file argv envp w
    = Ret (real_posix_spawnp sa file args (Some (update envs))) w1.
Proof.
  intros Hinit Henv Hcap Hready Hargv Henc Hin Hin' Hvar Hvar_e Hwstrs
    update w1 w2.
  assert (heap w !! l = Some (BStr out_dir)) as Hl.
  { rewrite Henv in Hcap. by apply Forall2_cons_1 in Hcap as [Hl _]. }
  pose proof (report_call_ok argv args l env' lc out_dir suffix ws wcwd w
                Hinit Henv Hl Hready Hargv Henc) as Hrep.
  fold w1 in Hrep.
  assert (∀ fp e es, vector_in (heap w) e es →
            call_with_envp apple fp argv e w1
            = Ret (fp args (Some (update es))) w1) as Hcall.
  { intros fp e es He. by apply call_with_envp_spec. }
  assert (∀ fp, call_with_environ apple fp argv w1
                = Ret (fp args (Some (update environ_strs))) w1) as Hcall'.
  { intros fp. by apply call_with_environ_spec. }
  (* the variadic entry points: what they do after collecting *)
  assert (∀ vs tl,
    varargs_in (heap w) arg vs ps strs tl →
    ∃ r h1,
      string_array_from_varargs arg vs (heap w) = Some ((r, tl), h1)
      ∧ heap w ⊆ h1
      ∧ report_call (Some r) (set_heap h1 w)
        = Ret () (with_file (report_file out_dir suffix (pid w) wstrs wcwd)
                    (set_heap h1 w))
      ∧ captured_in h1 (initial_env w) (Some out_dir :: vals)
      ∧ vector_arg h1 (Some r) (Some strs)
      ∧ string_array_release (Some r) h1 = Some ((), heap w)) as Hcollect.
  { intros vs tl Hvs.
    destruct (string_array_from_varargs_spec _ _ _ _ _ _ Hvs)
      as (r & ls' & h1 & Hfrom & Ho & Hsub & Hout & Hsame).
    exists r, h1. split_and!; [done|done| | | |].
    - apply (report_call_ok (Some r) (Some strs) l env' lc out_dir suffix
               wstrs wcwd (set_heap h1 w)); try done.
      + eapply lookup_weaken; [exact Hl|done].
      + exists ls'. apply Ho.
      + destruct Henc as (_ & Hcwd & Hfit). by split_and!.
    - by apply (captured_in_weaken (heap w)).
    - exists ls'. apply Ho.
    - by eapply release_restores. }
  assert (∀ h1 f, set_heap (heap w) (with_file f (set_heap h1 w))
                  = with_file f w) as Hback.
  { intros h1 f. by destruct w. }
  split_and!.
  - unfold execve. mstep Hrep. by apply Hcall.
  - unfold execv. mstep Hrep.
    mstep (eq_refl : get environ w1 = Ret (environ w) w1). by apply Hcall.
  - unfold execvpe. mstep Hrep. by apply Hcall.
  - unfold execvp. mstep Hrep. by apply Hcall'.
  - unfold execvP. mstep Hrep. by apply Hcall'.
  - unfold exect. mstep Hrep. by apply Hcall.
  - unfold execl.
    destruct (Hcollect vargs tail Hvar)
      as (r & h1 & Hfrom & Hsub & Hrepv & Hcapv & Hargv2 & Hrel).
    mstep (on_heap_Ret _ w _ _ Hfrom).
    mstep Hrepv.
    set (wv2 := with_file (report_file out_dir suffix (pid w) wstrs wcwd)
                  (set_heap h1 w)).
    mstep (eq_refl : get environ wv2 = Ret (environ w) wv2).
    unfold call_execve.
    rewrite (M_bind_Ret _ _ _ _ _
               (call_with_envp_spec (real_execve path) (Some r) (Some strs)
                  (environ w) environ_strs _ wv2 Hcapv Hargv2
                  (vector_in_weaken (heap w) _ _ _ Hsub Hin'))).
    cbn beta iota.
    mstep (on_heap_Ret (string_array_release (Some r)) wv2 _ _ Hrel).
    unfold wv2. by rewrite Hback.
  - unfold execlp.
    destruct (Hcollect vargs tail Hvar)
      as (r & h1 & Hfrom & Hsub & Hrepv & Hcapv & Hargv2 & Hrel).
    mstep (on_heap_Ret _ w _ _ Hfrom).
    mstep Hrepv.
    set (wv2 := with_file (report_file out_dir suffix (pid w) wstrs wcwd)
                  (set_heap h1 w)).
    unfold call_execvp.
    rewrite (M_bind_Ret _ _ _ _ _
               (call_with_environ_spec (real_execvp file) (Some r)
                  (Some strs) environ_strs _ wv2 Hcapv Hargv2
                  (vector_in_weaken (heap w) _ _ _ Hsub Hin'))).
    cbn beta iota.
    mstep (on_heap_Ret (string_array_release (Some r)) wv2 _ _ Hrel).
    unfold wv2. by rewrite Hback.
  - unfold execle.
    destruct (Hcollect vargs_e (envp :: tail_e) Hvar_e)
      as (r & h1 & Hfrom & Hsub & Hrepv & Hcapv & Hargv2 & Hrel).
    mstep (on_heap_Ret _ w _ _ Hfrom).
    mstep (on_heap_Ret (va_arg (envp :: tail_e)) (set_heap h1 w)
             (envp, tail_e) h1 eq_refl).
    rewrite set_heap_set_heap.
    mstep Hrepv.
    set (wv2 := with_file (report_file out_dir suffix (pid w) wstrs wcwd)
                  (set_heap h1 w)).
    unfold call_execve.
    rewrite (M_bind_Ret _ _ _ _ _
               (call_with_envp_spec (real_execve path) (Some r) (Some strs)
                  envp envs _ wv2 Hcapv Hargv2
                  (vector_in_weaken (heap w) _ _ _ Hsub Hin))).
    cbn beta iota.
    mstep (on_heap_Ret (string_array_release (Some r)) wv2 _ _ Hrel).
    unfold wv2. by rewrite Hback.
  - unfold posix_spawn. mstep Hrep. by apply Hcall.
  - unfold posix_spawnp. mstep Hrep. by apply Hcall.
Qed.
End Armed.

Lemma entry_points_armed_witness :
  @execve probe_libc false "/usr/bin/cc" (Some 7%positive) (Some 3%positive)
    world_armed
  = Ret 2%Z
      (with_file (report_file "/out" "aaaaaa" 4242
                    [[99; 99]; [45; 99]; [97; 46; 99]]%Z
                    [47; 116; 109; 112]%Z) world_armed)
  ∧ @execvp probe_libc false "cc" (Some 7%positive) world_armed
    = Ret 2%Z
        (with_file (report_file "/out" "aaaaaa" 4242
                      [[99; 99]; [45; 99]; [97; 46; 99]]%Z
                      [47; 116; 109; 112]%Z) world_armed)
  ∧ @execl probe_libc false "/usr/bin/cc" (Some 4%positive)
      [Some 5%positive; None] world_armed
    = Ret 2%Z
        (with_file (report_file "/out" "aaaaaa" 4242 [[99; 99]; [45; 99]]%Z
                      [47; 116; 109; 112]%Z) world_armed)
  ∧ @execle probe_libc false "/usr/bin/cc" (Some 4%positive)
      [Some 5%positive; None; Some 3%positive] world_armed
    = Ret 2%Z
        (with_file (report_file "/out" "aaaaaa" 4242 [[99; 99]; [45; 99]]%Z
                      [47; 116; 109; 112]%Z) world_armed).
Proof.
  assert (vector_in (heap world_armed) (Some 3%positive)
            ["INTERCEPT_BUILD_TARGET_DIR=/out"; "LD_PRELOAD=lib.so"]) as Hv.
  { exists [1; 2]%positive. split; [by exists []|by repeat constructor]. }
  destruct (@entry_points_armed probe_libc false world_armed 8%positive
              [Some 9%positive] mbstowcs_utf8 "/out" "aaaaaa"
              [Some "lib.so"] (Some 7%positive)
              (Some ["cc"; "-c"; "a.c"]) [[99; 99]; [45; 99]; [97; 46; 99]]%Z
              [47; 116; 109; 112]%Z (Some 3%positive)
              ["INTERCEPT_BUILD_TARGET_DIR=/out"; "LD_PRELOAD=lib.so"]
              ["INTERCEPT_BUILD_TARGET_DIR=/out"; "LD_PRELOAD=lib.so"]
              (Some 4%positive) [Some 5%positive; None]
              [Some 5%positive; None; Some 3%positive]
              [4; 5]%positive ["cc"; "-c"] [[99; 99]; [45; 99]]%Z [] []
              (SpawnArgs None None None) "/usr/bin/cc" "cc" "/bin")
    as (Hexecve & _ & _ & Hexecvp & _ & _ & Hexecl & _ & Hexecle & _ & _).
  - reflexivity.
  - reflexivity.
  - by repeat constructor.
  - exact report_ready_world_armed.
  - exact vector_arg_world_armed.
  - exact report_encodes_world_armed.
  - exact Hv.
  - exact Hv.
  - split; [reflexivity|by repeat constructor].
  - split; [reflexivity|by repeat constructor].
  - repeat (constructor; [solve_decodes|]). constructor.
  - split_and!; [exact Hexecve|exact Hexecvp|exact Hexecl|exact Hexecle].
Defined.

(** ** Load and unload of a shim that arms *)

Lemma capture_env_t_loop_all strdup_ok entries w0 names xs :
  Forall2 (λ name x, getenv_in entries name = Some x) names xs →
  ∀ it status h env,
    vector_in h (environ w0) entries →
    (∀ j, j < length names → strdup_ok (it + j) = true) →
    it + length names ≤ length env →
    ∃ ls h' env',
      capture_env_t_loop strdup_ok names it status
        (set_initial_env env (set_heap h w0))
      = Ret status (set_initial_env env' (set_heap h' w0))
      ∧ h ⊆ h' ∧ strings_at h' ls xs ∧ NoDup ls ∧ outside h ls
      ∧ (∀ l, l ∉ ls → h' !! l = h !! l)
      ∧ length env' = length env
      ∧ (∀ j, j < it ∨ it + length names ≤ j → env' !! j = env !! j)
      ∧ (∀ j l, ls !! j = Some l → env' !! (it + j) = Some (Some l)).
Proof.
  induction 1 as [|name x names xs Hx Hall IH];
    intros it status h env Hv Hok Hlen.
  { exists [], h, env. split_and!; try done; by constructor. }
  simpl in Hlen. cbn [capture_env_t_loop].
  mstep (getenv_spec name (set_initial_env env (set_heap h w0)) entries Hv).
  rewrite Hx.
  pose proof (Hok 0 ltac:(simpl; lia)) as Hok0. rewrite Nat.add_0_r in Hok0.
  rewrite Hok0.
  set (l0 := fresh (dom h)). set (h1 := <[l0 := BStr x]> h).
  pose proof (fresh_None h) as Hl0. fold l0 in Hl0.
  mstep (eq_refl : on_heap (c ← malloc (BStr x); mret (Some c))
                     (set_initial_env env (set_heap h w0))
                   = Ret (Some l0) (set_initial_env env (set_heap h1 w0))).
  mstep (eq_refl : modify (λ w, set_initial_env
                                  (<[it := Some l0]> (initial_env w)) w)
                     (set_initial_env env (set_heap h1 w0))
                   = Ret () (set_initial_env (<[it := Some l0]> env)
                                             (set_heap h1 w0))).
  replace (status && bool_decide (is_Some (Some l0))) with status
    by (rewrite bool_decide_eq_true_2 by done; by rewrite andb_true_r).
  assert (h ⊆ h1) as Hsub1 by by apply insert_subseteq.
  destruct (IH (S it) status h1 (<[it := Some l0]> env))
    as (ls & h' & env' & Hloop & Hsub & Hs & Hnd & Hout & Hsame & Hlen'
        & Hkeep & Hslots).
  { by apply (vector_in_weaken h). }
  { intros j Hj. replace (S it + j) with (it + S j) by lia.
    apply Hok. simpl. lia. }
  { rewrite length_insert. lia. }
  assert (l0 ∉ ls) as Hl0ls.
  { intros Hin. pose proof (proj1 (Forall_forall _ _) Hout l0 Hin) as Hnone.
    unfold h1 in Hnone. by rewrite lookup_insert_eq in Hnone. }
  exists (l0 :: ls), h', env'. rewrite Hloop. split_and!.
  - done.
  - by etrans.
  - constructor; [|done]. eapply lookup_weaken; [|exact Hsub].
    apply lookup_insert_eq.
  - by constructor.
  - constructor; [done|]. apply Forall_forall. intros l Hl.
    pose proof (proj1 (Forall_forall _ _) Hout l Hl) as Hnone.
    unfold h1 in Hnone. rewrite lookup_insert_ne in Hnone; [done|].
    intros ->. done.
  - intros l Hl. apply not_elem_of_cons in Hl as [Hne Hl].
    rewrite Hsame by done. unfold h1. by rewrite lookup_insert_ne.
  - by rewrite Hlen', length_insert.
  - intros j Hj. rewrite Hkeep by (simpl in Hj; lia).
    apply list_lookup_insert_ne. simpl in Hj. lia.
  - intros [|j] l Hl; simpl in Hl.
    + injection Hl as <-. rewrite Nat.add_0_r.
      rewrite Hkeep by lia. apply list_lookup_insert_eq. lia.
    + rewrite <- Nat.add_succ_comm. by apply Hslots.
Qed.

Lemma captured_in_strings h ls xs :
  strings_at h ls xs → captured_in h (Some <$> ls) (Some <$> xs).
Proof.
  intros Hs. unfold captured_in. apply Forall2_fmap.
  eapply Forall2_impl; [exact Hs|]. done.
Qed.

(** A load that finds every variable and memory for every copy. *)
Lemma on_load_all apple lc strdup_ok w entries xs :
  initialized w = false →
  length (initial_env w) = ENV_SIZE apple →
  vector_in (heap w) (environ w) entries →
  Forall2 (λ name x, getenv_in entries name = Some x) (env_names apple) xs →
  (∀ j, j < ENV_SIZE apple → strdup_ok j = true) →
  ∃ ls h',
    on_load apple (Some lc) strdup_ok w
    = Ret () (set_initialized true
                (set_initial_env (Some <$> ls)
                   (set_heap h' (set_utf_locale (Some lc) w))))
    ∧ heap w ⊆ h' ∧ strings_at h' ls xs ∧ NoDup ls
    ∧ outside (heap w) ls
    ∧ (∀ l, l ∉ ls → h' !! l = heap w !! l).
Proof.
  intros Hinit Hlen Hv Hxs Hok. unfold on_load.
  mstep (eq_refl : get initialized w = Ret (initialized w) w).
  rewrite Hinit. unfold mt_safe_on_load. rewrite !M_bind_assoc.
  mstep (eq_refl : modify (set_utf_locale (Some lc)) w
                   = Ret () (set_utf_locale (Some lc) w)).
  rewrite !M_bind_assoc. unfold capture_env_t.
  set (wl := set_utf_locale (Some lc) w).
  destruct (capture_env_t_loop_all strdup_ok entries wl (env_names apple) xs
              Hxs 0 true (heap w) (initial_env w))
    as (ls & h' & env' & Hloop & Hsub & Hs & Hnd & Hout & Hsame & Hlen'
        & _ & Hslots).
  { done. }
  { done. }
  { simpl. unfold ENV_SIZE in Hlen. lia. }
  change (set_initial_env (initial_env w) (set_heap (heap w) wl)) with wl
    in Hloop.
  mstep Hloop. cbn beta iota.
  assert (env' = Some <$> ls) as ->.
  { apply list_eq. intros i. rewrite list_lookup_fmap.
    destruct (ls !! i) as [l|] eqn:Hi.
    - by apply (Hslots i l).
    - apply lookup_ge_None. apply lookup_ge_None in Hi.
      rewrite Hlen', Hlen. unfold ENV_SIZE.
      rewrite (Forall2_length _ _ _ Hxs), <- (Forall2_length _ _ _ Hs).
      done. }
  by exists ls, h'.
Qed.

Lemma release_env_t_loop_spec w0 ps :
  ∀ pre post h,
    NoDup (omap id ps) → (∀ l, Some l ∈ ps → is_Some (h !! l)) →
    ∃ h',
      release_env_t_loop (length ps) (length pre)
        (set_initial_env (pre ++ ps ++ post) (set_heap h w0))
      = Ret () (set_initial_env (pre ++ replicate (length ps) None ++ post)
                  (set_heap h' w0))
      ∧ (∀ l, Some l ∉ ps → h' !! l = h !! l)
      ∧ (∀ l, Some l ∈ ps → h' !! l = None).
Proof.
  induction ps as [|p ps IH]; intros pre post h Hnd Hlive.
  { exists h. split_and!; [done|done|]. intros l Hl.
    by apply elem_of_nil in Hl. }
  cbn [length release_env_t_loop].
  set (W := set_initial_env (pre ++ (p :: ps) ++ post) (set_heap h w0)).
  mstep (eq_refl : get initial_env W = Ret (pre ++ (p :: ps) ++ post) W).
  rewrite <- app_comm_cons, list_lookup_middle by done.
  assert (∃ h1, free p h = Some ((), h1)
                ∧ (∀ l, Some l ≠ p → h1 !! l = h !! l)
                ∧ (∀ l, Some l = p → h1 !! l = None)
                ∧ NoDup (omap id ps)
                ∧ (∀ l, Some l ∈ ps → is_Some (h1 !! l)))
    as (h1 & Hfree & Hother & Hfreed & Hnd1 & Hlive1).
  { destruct p as [l|].
    - destruct (Hlive l) as [b Hb]; [by left|].
      simpl in Hnd. apply NoDup_cons in Hnd as [Hnotin Hnd].
      exists (delete l h). split_and!.
      + by apply (free_Some h l b).
      + intros l' Hne. apply lookup_delete_ne. congruence.
      + intros l' [= ->]. apply lookup_delete_eq.
      + done.
      + intros l' Hl'. rewrite lookup_delete_ne.
        * apply Hlive. by right.
        * intros ->. apply Hnotin. apply list_elem_of_omap.
          by exists (Some l').
    - exists h. split_and!; [done|done|done|done|].
      intros l Hl. apply Hlive. by right. }
  mstep (on_heap_Ret (free p) W _ _ Hfree).
  mstep (eq_refl : modify (λ w, set_initial_env
                                  (<[length pre := None]> (initial_env w)) w)
                     (set_heap h1 W)
                   = Ret () (set_initial_env
                               (<[length pre := None]>
                                  (pre ++ p :: ps ++ post))
                               (set_heap h1 w0))).
  rewrite insert_app_r_alt, Nat.sub_diag by lia. cbn [insert list_insert].
  replace (pre ++ None :: ps ++ post) with ((pre ++ [None]) ++ ps ++ post)
    by by rewrite <- app_assoc.
  replace (S (length pre)) with (length (pre ++ [None]))
    by (rewrite length_app; simpl; lia).
  destruct (IH (pre ++ [None]) post h1 Hnd1 Hlive1)
    as (h' & Hloop & Hsame & Hgone).
  exists h'. rewrite Hloop. split_and!.
  - by rewrite <- app_assoc.
  - intros l Hl. apply not_elem_of_cons in Hl as [Hne Hl].
    rewrite Hsame by done. by apply Hother.
  - intros l Hl. destruct (decide (Some l ∈ ps)) as [Hin|Hnin].
    + by apply Hgone.
    + apply elem_of_cons in Hl as [Heq|Hl]; [|done].
      rewrite Hsame by done. by apply Hfreed.
Qed.

(** The unload of an armed shim, whatever its slots hold. *)
Lemma on_unload_spec apple w :
  initialized w = true →
  length (initial_env w) = ENV_SIZE apple →
  NoDup (omap id (initial_env w)) →
  (∀ l, Some l ∈ initial_env w → is_Some (heap w !! l)) →
  ∃ h',
    on_unload apple w
    = Ret () (set_initialized false
                (set_initial_env (replicate (ENV_SIZE apple) None)
                   (set_heap h' w)))
    ∧ (∀ l, Some l ∉ initial_env w → h' !! l = heap w !! l)
    ∧ (∀ l, Some l ∈ initial_env w → h' !! l = None).
Proof.
  intros Hinit Hlen Hnd Hlive. unfold on_unload.
  mstep (eq_refl : get initialized w = Ret (initialized w) w).
  rewrite Hinit. unfold mt_safe_on_unload, release_env_t.
  destruct (release_env_t_loop_spec w (initial_env w) [] [] (heap w) Hnd
              Hlive) as (h' & Hloop & Hsame & Hgone).
  rewrite app_nil_r in Hloop. cbn [app length] in Hloop.
  rewrite app_nil_r, Hlen in Hloop.
  replace (set_initial_env (initial_env w) (set_heap (heap w) w)) with w
    in Hloop by by destruct w.
  mstep Hloop. by exists h'.
Qed.

Lemma omap_id_Some {A} (ls : list A) : omap id (Some <$> ls) = ls.
Proof.
  induction ls as [|l ls IH]; [done|].
  change (omap id (Some <$> l :: ls)) with (l :: omap id (Some <$> ls)).
  by rewrite IH.
Qed.

Lemma elem_of_Some_fmap {A} (l : A) (ls : list A) :
  Some l ∈ Some <$> ls ↔ l ∈ ls.
Proof.
  split.
  - intros (l' & [= ->] & Hl')%list_elem_of_fmap. done.
  - intros Hl. by apply list_elem_of_fmap_2.
Qed.

(** X15.  When [newlocale] gives a locale, every variable of the unit is
    set in the environment and every copy finds memory, [on_load] arms the
    shim: the flag is set, the locale is kept, and each slot holds a copy
    of the value of its variable.  What was live stays as it was, [environ]
    is not changed and no file is made.  A further [on_load] then does
    nothing: the variables are not captured a second time.  When
    [newlocale] gives null, [on_load] captures nothing and the shim is not
    armed, whatever the environment. *)
Theorem on_load_arms apple strdup_ok w entries xs :
  initialized w = false →
  length (initial_env w) = ENV_SIZE apple →
  vector_in (heap w) (environ w) entries →
  Forall2 (λ name x, getenv_in entries name = Some x) (env_names apple) xs →
  (∀ j, j < ENV_SIZE apple → strdup_ok j = true) →
  (∀ lc, ∃ w1,
     on_load apple (Some lc) strdup_ok w = Ret () w1
     ∧ initialized w1 = true ∧ utf_locale w1 = Some lc
     ∧ captured_in (heap w1) (initial_env w1) (Some <$> xs)
     ∧ heap w ⊆ heap w1 ∧ environ w1 = environ w ∧ files w1 = files w
     ∧ ∀ lc' strdup_ok', on_load apple lc' strdup_ok' w1 = Ret () w1)
  ∧ ∃ w0,
      on_load apple None strdup_ok w = Ret () w0
      ∧ initialized w0 = false ∧ utf_locale w0 = None
      ∧ heap w0 = heap w ∧ initial_env w0 = initial_env w.
Proof.
  intros Hinit Hlen Hv Hxs Hok. split.
  - intros lc.
    destruct (on_load_all apple lc strdup_ok w entries xs Hinit Hlen Hv Hxs
                Hok)
      as (ls & h' & Hload & Hsub & Hs & Hnd & Hout & Hsame).
    eexists. split; [exact Hload|]. split_and!; try done.
    by apply captured_in_strings.
  - exists (set_utf_locale None w). split; [|done].
    unfold on_load.
    mstep (eq_refl : get initialized w = Ret (initialized w) w).
    by rewrite Hinit.
Qed.

Lemma vector_in_heap_both :
  vector_in heap_both (Some 3%positive)
    ["INTERCEPT_BUILD_TARGET_DIR=/out"; "LD_PRELOAD=lib.so"].
Proof.
  exists [1; 2]%positive. split; [by exists []|by repeat constructor].
Qed.

Lemma on_load_arms_witness :
  (∃ w1,
     on_load false (Some mbstowcs_utf8) (λ _, true)
       (world_at_start heap_both [None; None]) = Ret () w1
     ∧ initialized w1 = true ∧ utf_locale w1 = Some mbstowcs_utf8
     ∧ captured_in (heap w1) (initial_env w1) (Some <$> ["/out"; "lib.so"])
     ∧ heap_both ⊆ heap w1 ∧ environ w1 = Some 3%positive ∧ files w1 = []
     ∧ ∀ lc' strdup_ok', on_load false lc' strdup_ok' w1 = Ret () w1)
  ∧ ∃ w0,
      on_load false None (λ _, true) (world_at_start heap_both [None; None])
      = Ret () w0
      ∧ initialized w0 = false ∧ utf_locale w0 = None
      ∧ heap w0 = heap_both ∧ initial_env w0 = [None; None].
Proof.
  destruct (on_load_arms false (λ _, true)
              (world_at_start heap_both [None; None])
              ["INTERCEPT_BUILD_TARGET_DIR=/out"; "LD_PRELOAD=lib.so"]
              ["/out"; "lib.so"]) as [Harm Hnull].
  - reflexivity.
  - reflexivity.
  - exact vector_in_heap_both.
  - by repeat constructor.
  - done.
  - split; [exact (Harm mbstowcs_utf8)|exact Hnull].
Defined.

(** X16.  [on_unload] of an armed shim frees the string of every slot that
    has one, sets every slot to null and clears the flag; memory that no
    slot points to is left as it is.  A further [on_unload] then does
    nothing, so that no slot is freed twice. *)
Theorem on_unload_releases apple w :
  initialized w = true →
  length (initial_env w) = ENV_SIZE apple →
  NoDup (omap id (initial_env w)) →
  (∀ l, Some l ∈ initial_env w → is_Some (heap w !! l)) →
  ∃ w2,
    on_unload apple w = Ret () w2
    ∧ initialized w2 = false
    ∧ initial_env w2 = replicate (ENV_SIZE apple) None
    ∧ (∀ l, Some l ∈ initial_env w → heap w2 !! l = None)
    ∧ (∀ l, Some l ∉ initial_env w → heap w2 !! l = heap w !! l)
    ∧ environ w2 = environ w ∧ files w2 = files w
    ∧ on_unload apple w2 = Ret () w2.
Proof.
  intros Hinit Hlen Hnd Hlive.
  destruct (on_unload_spec apple w Hinit Hlen Hnd Hlive)
    as (h' & Hun & Hsame & Hgone).
  eexists. split; [exact Hun|]. by split_and!.
Qed.

Lemma on_unload_releases_witness :
  ∃ w2,
    on_unload false world_armed = Ret () w2
    ∧ initialized w2 = false
    ∧ initial_env w2 = [None; None]
    ∧ heap w2 !! 8%positive = None ∧ heap w2 !! 9%positive = None
    ∧ heap w2 !! 3%positive = heap world_armed !! 3%positive
    ∧ on_unload false w2 = Ret () w2.
Proof.
  destruct (on_unload_releases false world_armed)
    as (w2 & Hun & Hinit & Henv & Hgone & Hsame & _ & _ & Hagain).
  - reflexivity.
  - reflexivity.
  - simpl. apply NoDup_cons. split; [|apply NoDup_singleton].
    intros Hin. apply list_elem_of_singleton in Hin. discriminate.
  - intros l Hl. simpl in Hl. rewrite !elem_of_cons in Hl.
    destruct Hl as [[= ->]|[[= ->]|Hl]]; [by eexists..|].
    by apply elem_of_nil in Hl.
  - exists w2. split_and!; [exact Hun|exact Hinit|exact Henv| | | |exact Hagain].
    + apply Hgone. simpl. apply elem_of_cons. by left.
    + apply Hgone. simpl. apply elem_of_cons. right.
      apply elem_of_cons. by left.
    + apply Hsame. simpl. rewrite !elem_of_cons.
      intros [Heq|[Heq|Hin]]; [discriminate..|]. by apply elem_of_nil in Hin.
Defined.

(** X17.  Load and unload undo each other on the memory: after a load
    that arms the shim and the unload that follows, the memory is exactly
    what it was before the load, every slot is null and the flag is clear.
    The copies of the load are the only blocks the unload frees. *)
Theorem load_unload_round_trip apple lc strdup_ok w entries xs :
  initialized w = false →
  length (initial_env w) = ENV_SIZE apple →
  vector_in (heap w) (environ w) entries →
  Forall2 (λ name x, getenv_in entries name = Some x) (env_names apple) xs →
  (∀ j, j < ENV_SIZE apple → strdup_ok j = true) →
  ∃ w1 w2,
    on_load apple (Some lc) strdup_ok w = Ret () w1
    ∧ on_unload apple w1 = Ret () w2
    ∧ heap w2 = heap w
    ∧ initial_env w2 = replicate (ENV_SIZE apple) None
    ∧ initialized w2 = false
    ∧ environ w2 = environ w ∧ files w2 = files w.
Proof.
  intros Hinit Hlen Hv Hxs Hok.
  destruct (on_load_all apple lc strdup_ok w entries xs Hinit Hlen Hv Hxs Hok)
    as (ls & h' & Hload & Hsub & Hs & Hnd & Hout & Hsame).
  set (w1 := set_initialized true
               (set_initial_env (Some <$> ls)
                  (set_heap h' (set_utf_locale (Some lc) w)))) in Hload.
  assert (length ls = ENV_SIZE apple) as Hls.
  { unfold ENV_SIZE.
    by rewrite (Forall2_length _ _ _ Hxs), <- (Forall2_length _ _ _ Hs). }
  destruct (on_unload_spec apple w1) as (h2 & Hun & Hsame2 & Hgone).
  { done. }
  { simpl. by rewrite length_fmap. }
  { simpl. by rewrite omap_id_Some. }
  { simpl. intros l Hl. apply (proj1 (elem_of_Some_fmap _ _)) in Hl.
    destruct (strings_at_lookup _ _ _ _ Hs Hl) as [s Hl']. by eexists. }
  exists w1. eexists. split; [exact Hload|]. split; [exact Hun|].
  split_and!; try done.
  simpl. apply map_eq. intros l. simpl in Hsame2, Hgone.
  destruct (decide (l ∈ ls)) as [Hin|Hnin].
  - rewrite Hgone by by apply (proj2 (elem_of_Some_fmap _ _)).
    symmetry. by apply (proj1 (Forall_forall _ _) Hout).
  - rewrite Hsame2.
    + by apply Hsame.
    + intros Hin. by apply (proj1 (elem_of_Some_fmap _ _)) in Hin.
Qed.

Lemma load_unload_round_trip_witness :
  ∃ w1 w2,
    on_load false (Some mbstowcs_utf8) (λ _, true)
      (world_at_start heap_both [None; None]) = Ret () w1
    ∧ on_unload false w1 = Ret () w2
    ∧ heap w2 = heap_both
    ∧ initial_env w2 = [None; None]
    ∧ initialized w2 = false
    ∧ environ w2 = Some 3%positive ∧ files w2 = [].
Proof.
  apply (load_unload_round_trip false mbstowcs_utf8 (λ _, true)
           (world_at_start heap_both [None; None])
           ["INTERCEPT_BUILD_TARGET_DIR=/out"; "LD_PRELOAD=lib.so"]
           ["/out"; "lib.so"]).
  - reflexivity.
  - reflexivity.
  - exact vector_in_heap_both.
  - by repeat constructor.
  - done.
Defined.

(** ** From a parent to its child *)

(** X18.  The interception propagates: a process that starts with the
    environment [string_array_partial_update] makes from fully captured
    slots, whatever the vector the caller passed, arms itself at load with
    the very values its parent captured, provided that in the child
    [newlocale] gives a locale and every copy finds memory. *)
Theorem update_rearms_child apple lc strdup_ok w xs envs :
  length xs = ENV_SIZE apple →
  initialized w = false →
  length (initial_env w) = ENV_SIZE apple →
  vector_in (heap w) (environ w)
    (env_partial_update (env_names apple) (Some <$> xs) envs) →
  (∀ j, j < ENV_SIZE apple → strdup_ok j = true) →
  ∃ w1,
    on_load apple (Some lc) strdup_ok w = Ret () w1
    ∧ initialized w1 = true
    ∧ captured_in (heap w1) (initial_env w1) (Some <$> xs).
Proof.
  intros Hxs Hinit Hlen Hv Hok.
  destruct (on_load_all apple lc strdup_ok w _ xs Hinit Hlen Hv)
    as (ls & h' & Hload & Hsub & Hs & Hnd & Hout & Hsame).
  - apply Forall2_same_length_lookup. split; [done|].
    intros j name x Hname Hx.
    rewrite env_partial_update_pairs.
    destruct (applied_pairs_names apple (Some <$> xs)) as [Hne Hndp].
    apply getenv_in_apply_pairs; [done..|].
    by eapply applied_pairs_full.
  - done.
  - eexists. split; [exact Hload|]. split; [done|].
    by apply captured_in_strings.
Qed.

Lemma update_rearms_child_witness :
  ∃ w1,
    on_load false (Some mbstowcs_utf8) (λ _, true)
      (world_at_start heap_child [None; None]) = Ret () w1
    ∧ initialized w1 = true
    ∧ captured_in (heap w1) (initial_env w1) (Some <$> ["/out"; "lib.so"]).
Proof.
  apply (update_rearms_child false mbstowcs_utf8 (λ _, true)
           (world_at_start heap_child [None; None]) ["/out"; "lib.so"]
           ["A=1"]).
  - reflexivity.
  - reflexivity.
  - reflexivity.
  - exists [1; 2; 4]%positive. split; [by exists []|by repeat constructor].
  - done.
Defined.

(** ** The update of a shim that is not armed *)

Section NotArmed.
Context `{Libc} (apple : bool).

(** X20.  The update of the environment does not depend on the flag: a
    shim that is not armed writes no report, but its entry points still
    give the genuine function the caller's environment updated with the
    slots that were captured, up to the first absent one, and leave the
    process as it was.  (Stated for the entry points that take an argument
    vector.) *)
Theorem entry_points_update_unarmed w vals argv args envp els envs en nls
    environ_strs sa path file search_path :
  initialized w = false →
  captured_in (heap w) (initial_env w) vals →
  vector_arg (heap w) argv args →
  is_vector (heap w) envp els envs →
  environ w = Some en → is_vector (heap w) en nls environ_strs →
  let update := env_partial_update (env_names apple) vals in
  report_call argv w = Ret () w
  ∧ execve apple path argv (Some envp) w
    = Ret (real_execve path args (Some (update envs))) w
  ∧ execv apple path argv w
    = Ret (real_execve path args (Some (update environ_strs))) w
  ∧ execvpe apple file argv (Some envp) w
    = Ret (real_execvpe file args (Some (update envs))) w
  ∧ execvp apple file argv w
    = Ret (real_execvp file args (Some (update environ_strs))) w
  ∧ execvP apple file search_path argv w
    = Ret (real_execvP file search_path args (Some (update environ_strs))) w
  ∧ exect apple path argv (Some envp) w
    = Ret (real_exect path args (Some (update envs))) w
  ∧ posix_spawn apple sa path argv (Some envp) w
    = Ret (real_posix_spawn sa path args (Some (update envs))) w
  ∧ posix_spawnp apple sa file argv (Some envp) w
    = Ret (real_posix_spawnp sa file args (Some (update envs))) w.
Proof.
  intros Hinit Hcap Hargv Henvp Hen Henviron update.
  assert (vector_in (heap w) (Some envp) envs) as Hin by by exists els.
  assert (vector_in (heap w) (environ w) environ_strs) as Hin'
    by (rewrite Hen; by exists nls).
  pose proof (report_call_disarmed argv w Hinit) as Hrep.
  split_and!; [done|..].
  - unfold execve. mstep Hrep. by apply call_with_envp_spec.
  - unfold execv. mstep Hrep.
    mstep (eq_refl : get environ w = Ret (environ w) w).
    by apply call_with_envp_spec.
  - unfold execvpe. mstep Hrep. by apply call_with_envp_spec.
  - unfold execvp. mstep Hrep. by apply call_with_environ_spec.
  - unfold execvP. mstep Hrep. by apply call_with_environ_spec.
  - unfold exect. mstep Hrep. by apply call_with_envp_spec.
  - unfold posix_spawn. mstep Hrep. by apply call_with_envp_spec.
  - unfold posix_spawnp. mstep Hrep. by apply call_with_envp_spec.
Qed.
End NotArmed.

Lemma entry_points_update_unarmed_witness :
  report_call (Some 7%positive)
    (set_initial_env [Some 8%positive; None]
       (set_initialized false world_armed))
  = Ret () (set_initial_env [Some 8%positive; None]
              (set_initialized false world_armed))
  ∧ @execve probe_libc false "/usr/bin/cc" (Some 7%positive)
      (Some 7%positive)
      (set_initial_env [Some 8%positive; None]
         (set_initialized false world_armed))
    = Ret 4%Z (set_initial_env [Some 8%positive; None]
                 (set_initialized false world_armed))
  ∧ @execvp probe_libc false "cc" (Some 7%positive)
      (set_initial_env [Some 8%positive; None]
         (set_initialized false world_armed))
    = Ret 2%Z (set_initial_env [Some 8%positive; None]
                 (set_initialized false world_armed)).
Proof.
  assert (is_vector (heap world_armed) 3%positive [1; 2]%positive
            ["INTERCEPT_BUILD_TARGET_DIR=/out"; "LD_PRELOAD=lib.so"]) as Hv.
  { split; [by exists []|by repeat constructor]. }
  assert (is_vector (heap world_armed) 7%positive [4; 5; 6]%positive
            ["cc"; "-c"; "a.c"]) as Hv7.
  { split; [by exists []|by repeat constructor]. }
  destruct (@entry_points_update_unarmed probe_libc false
              (set_initial_env [Some 8%positive; None]
                 (set_initialized false world_armed))
              [Some "/out"; None] (Some 7%positive)
              (Some ["cc"; "-c"; "a.c"]) 7%positive [4; 5; 6]%positive
              ["cc"; "-c"; "a.c"] 3%positive [1; 2]%positive
              ["INTERCEPT_BUILD_TARGET_DIR=/out"; "LD_PRELOAD=lib.so"]
              (SpawnArgs None None None) "/usr/bin/cc" "cc" "/bin")
    as (Hrep & Hexecve & _ & _ & Hexecvp & _).
  - reflexivity.
  - by repeat constructor.
  - exact vector_arg_world_armed.
  - exact Hv7.
  - reflexivity.
  - exact Hv.
  - split_and!; [exact Hrep|exact Hexecve|exact Hexecvp].
Defined.
